(** * badhints: hint selection and session progression

    A shallow embedding of [src/client/puzzle.ts] (the [PuzzleManager]:
    cosine distance, seeded shuffle, hint search, singleton accessor) and of
    the server route [POST /api/puzzle/hint] that drives a player's session,
    followed by the properties the specification states about them.

    Conventions of the embedding.
    - A JavaScript [number] is a member of the class [Number].  Two instances
      are given: IEEE 754 binary64 ([float], the numbers the program runs on,
      on which every definition computes), and the real numbers ([R], exact
      arithmetic, on which the algebraic facts are proved).
    - A JavaScript exception is the [Throw] branch of [result].
    - Strings are [string]; their [length] counts characters, which is the
      JavaScript [length] (UTF-16 code units) on ASCII words.
    - The Redis store of the route is a record of finite maps ([gmap]). *)

From Stdlib Require Import ZArith Reals Lra Lia Floats Psatz.
From Stdlib Require Import Sorting.Permutation Sorting.Sorted.
From stdpp Require Import base option list strings pretty gmap.

Set Default Proof Using "Type".

(** ** JavaScript values *)

Module JS.

(** The exceptions the modelled code raises: [new Error(message)] and the
    [TypeError] of a property read on [null] or [undefined]. *)
Inductive exn : Type :=
| Error (message : string)
| TypeError.

Inductive result (A : Type) : Type :=
| Ok (a : A)
| Throw (e : exn).
Arguments Ok {A} a.
Arguments Throw {A} e.

Definition bind {A B} (r : result A) (k : A -> result B) : result B :=
  match r with
  | Ok a => k a
  | Throw e => Throw e
  end.

Definition is_Throw {A} (r : result A) : Prop :=
  match r with Ok _ => False | Throw _ => True end.

(** [xs.map(f)] on a dense array, for a callback that may throw: the
    elements are visited from index 0 and the first exception escapes. *)
Fixpoint mapM {A B} (f : A -> result B) (xs : list A) : result (list B) :=
  match xs with
  | [] => Ok []
  | x :: xs' =>
      bind (f x) (fun y => bind (mapM f xs') (fun ys => Ok (y :: ys)))
  end.

(** The numbers of the program, with the operations the code applies to
    them.  [of_nat] injects an array length or a counter; [to_index] reads a
    number used as an array subscript ([None] when it is not a canonical
    array index); [JSON_number] is what arithmetic reads after
    [JSON.parse(JSON.stringify(x))]. *)
Class Number (num : Type) : Type := {
  zero : num;
  one : num;
  add : num -> num -> num;
  sub : num -> num -> num;
  mul : num -> num -> num;
  div : num -> num -> num;
  strict_eq : num -> num -> bool;      (* x === y *)
  lt : num -> num -> bool;             (* x < y *)
  ge : num -> num -> bool;             (* x >= y *)
  Math_sqrt : num -> num;
  Math_floor : num -> num;
  Math_sin : num -> num;
  of_nat : nat -> num;
  to_index : num -> option nat;
  lit_0_33 : num;                      (* the literal 0.33 *)
  lit_0_5 : num;                       (* the literal 0.5 *)
  lit_10000 : num;                     (* the literal 10000 *)
  JSON_number : num -> num;
}.

End JS.

Export JS.

Declare Scope js_scope.
Delimit Scope js_scope with js.
Notation "x + y" := (add x y) : js_scope.
Notation "x - y" := (sub x y) : js_scope.
Notation "x * y" := (mul x y) : js_scope.
Notation "x / y" := (div x y) : js_scope.
Notation "x === y" := (strict_eq x y) (at level 70, no associativity) : js_scope.
Notation "x >= y" := (ge x y) : js_scope.
Notation "x < y" := (lt x y) : js_scope.
Notation "0" := zero : js_scope.
Notation "1" := one : js_scope.
Notation "x <- r ;; k" := (bind r (fun x => k))
  (at level 100, r at next level, right associativity, only parsing).

(** ** The two number systems *)

Module Binary64.

Definition of_Z (z : Z) : float := PrimFloat.of_uint63 (Uint63.of_Z z).

(** [Math.floor]: the largest integer not above [x]; zeros, infinities and
    NaN are returned as they are. *)
Definition floor (x : float) : float :=
  match Prim2SF x with
  | S754_finite s m e =>
      if (0 <=? e)%Z then x
      else
        let q := (Z.pos m / 2 ^ (- e))%Z in
        let whole := (Z.pos m mod 2 ^ (- e) =? 0)%Z in
        if s then PrimFloat.opp (of_Z (if whole then q else q + 1))
        else of_Z q
  | _ => x
  end.

(** A number is an array index when it is a non-negative integer below
    2^32 - 1. *)
Definition to_index (x : float) : option nat :=
  match Prim2SF x with
  | S754_zero _ => Some 0%nat
  | S754_finite false m e =>
      let z :=
        if (0 <=? e)%Z then Some (Z.pos m * 2 ^ e)%Z
        else if (Z.pos m mod 2 ^ (- e) =? 0)%Z
             then Some (Z.pos m / 2 ^ (- e))%Z else None in
      match z with
      | Some z => if (z <? 4294967295)%Z then Some (Z.to_nat z) else None
      | None => None
      end
  | _ => None
  end.

(** [JSON.stringify] writes a finite number with the digits that read back
    as the same number, except that it writes [-0] as [0]; it writes NaN
    and the infinities as [null], and the products of [cosineDistance]
    read a [null] as [+0]. *)
Definition JSON_number (x : float) : float :=
  if PrimFloat.is_nan x || PrimFloat.is_infinity x then 0%float
  else if PrimFloat.is_zero x then 0%float
  else x.

(** [Math.sin] is implementation-approximated in ECMAScript, so the
    binary64 numbers are parameterised by it. *)
Definition number (sin : float -> float) : Number float := {|
  zero := 0%float;
  one := 1%float;
  add := PrimFloat.add;
  sub := PrimFloat.sub;
  mul := PrimFloat.mul;
  div := PrimFloat.div;
  strict_eq := PrimFloat.eqb;
  lt := PrimFloat.ltb;
  ge := fun x y => PrimFloat.leb y x;
  Math_sqrt := PrimFloat.sqrt;
  Math_floor := floor;
  Math_sin := sin;
  of_nat := fun n => of_Z (Z.of_nat n);
  JS.to_index := to_index;
  lit_0_33 := 0x1.51eb851eb851fp-2%float;
  lit_0_5 := 0.5%float;
  lit_10000 := 10000%float;
  JS.JSON_number := JSON_number;
|}.

(** The values of [Math.sin] at the first integers, as V8 and the C
    library print them, for running the shuffle on small vocabularies;
    NaN beyond the table. *)
Definition sin_table : list float :=
  [ 0;                            (* sin 0 *)
    0x1.aed548f090ceep-1;         (* sin 1 =  0.8414709848078965 *)
    0x1.d18f6ead1b446p-1;         (* sin 2 =  0.9092974268256817 *)
    0x1.210386db6d55bp-3;         (* sin 3 =  0.1411200080598672 *)
    -0x1.837b9dddc1eaep-1;        (* sin 4 = -0.7568024953079282 *)
    -0x1.eaf81f5e09933p-1;        (* sin 5 = -0.9589242746631385 *)
    -0x1.1e1f18ab0a2c0p-2;        (* sin 6 = -0.27941549819892586 *)
    0x1.50608c26d0a08p-1          (* sin 7 =  0.6569865987187891 *)
  ]%float.

Definition sin (x : float) : float :=
  match to_index x with
  | Some i => nth i sin_table nan
  | None => nan
  end.

End Binary64.

Module Exact.

Definition Rltb (x y : R) : bool := if Rlt_dec x y then true else false.
Definition Rgeb (x y : R) : bool := if Rge_dec x y then true else false.
Definition Reqb (x y : R) : bool := if Req_dec_T x y then true else false.

Definition floor (x : R) : R := IZR (Int_part x).

Definition to_index (x : R) : option nat :=
  let z := Int_part x in
  if Req_dec_T x (IZR z)
  then if (0 <=? z)%Z then Some (Z.to_nat z) else None
  else None.

Definition number : Number R := {|
  zero := 0%R;
  one := 1%R;
  add := Rplus;
  sub := Rminus;
  mul := Rmult;
  div := Rdiv;
  strict_eq := Reqb;
  lt := Rltb;
  ge := Rgeb;
  Math_sqrt := R_sqrt.sqrt;
  Math_floor := floor;
  Math_sin := Rtrigo_def.sin;
  of_nat := INR;
  JS.to_index := to_index;
  lit_0_33 := (33 / 100)%R;
  lit_0_5 := (1 / 2)%R;
  lit_10000 := 10000%R;
  JSON_number := fun x => x;
|}.

End Exact.

(** ** [puzzle.ts]: the distance *)

Section Distance.
Context {num : Type} `{Number num}.
Local Open Scope js_scope.

(** The body of the [for] loop of [cosineDistance], run over the two
    arrays side by side (they have the same length when it is reached). *)
Fixpoint cosineDistance_loop (vecA vecB : list num) (acc : num * num * num)
  : num * num * num :=
  match vecA, vecB with
  | a :: vecA', b :: vecB' =>
      let '(dotProduct, magA, magB) := acc in
      cosineDistance_loop vecA' vecB'
        (dotProduct + a * b, magA + a * a, magB + b * b)
  | _, _ => acc
  end.

Definition cosineDistance (vecA vecB : list num) : result num :=
  if negb (length vecA =? length vecB)%nat
  then Throw (Error "Vectors must have the same length")
  else
    let '(dotProduct, magA, magB) := cosineDistance_loop vecA vecB (0, 0, 0) in
    let magA := Math_sqrt magA in
    let magB := Math_sqrt magB in
    if (magA === 0) || (magB === 0)
    then Ok 1
    else
      let similarity := dotProduct / (magA * magB) in
      Ok (1 - similarity).

(** The quantities of the definition, written on their own: the dot
    product and the magnitude, summed from index 0 as the loop does. *)
Definition dot (a b : list num) : num :=
  fold_left (fun acc xy => acc + fst xy * snd xy) (combine a b) 0.

Definition magnitude (a : list num) : num := Math_sqrt (dot a a).

End Distance.

(** ** [puzzle.ts]: strings and arrays of the standard library *)

(** [s.includes(t)]: [t] occurs in [s] as a substring. *)
Fixpoint String_includes (s t : string) : bool :=
  if String.prefix t s then true
  else match s with
       | EmptyString => false
       | String _ s' => String_includes s' t
       end.

(** [words.includes(w)] on an array of strings. *)
Definition Array_includes (words : list string) (w : string) : bool :=
  bool_decide (w ∈ words).

(** A string is truthy unless it is empty. *)
Definition truthy (w : string) : bool := negb (String.eqb w "").

Section ArraySort.
Context {num : Type} `{Number num}.
Local Open Scope js_scope.

(** [indices.sort(comparefn)].  ECMAScript sorts stably; for a comparator
    that is consistent on the elements every conforming engine returns the
    same array, the one this insertion sort returns.  The comparator
    answers a number, or [None] for the NaN that arithmetic on [undefined]
    gives; [a] is placed after [b] only when [comparefn a b > 0] (a NaN is
    read as [+0]). *)
Definition sorts_after (comparefn : nat -> nat -> option num) (a b : nat)
  : bool :=
  match comparefn a b with
  | Some v => 0 < v
  | None => false
  end.

Fixpoint sort_insert (comparefn : nat -> nat -> option num) (a : nat)
    (sorted : list nat) : list nat :=
  match sorted with
  | [] => [a]
  | b :: rest =>
      if sorts_after comparefn a b
      then b :: sort_insert comparefn a rest
      else a :: sorted
  end.

Definition Array_sort (comparefn : nat -> nat -> option num)
    (indices : list nat) : list nat :=
  foldr (sort_insert comparefn) [] indices.

End ArraySort.

(** ** [puzzle.ts]: the puzzle manager *)

Module Puzzle.

(** One slot of [hint_embeddings]: a hole of a sparse array (it reads as
    [undefined] and array iteration skips it), a [null] as [JSON.parse]
    produces, or a vector. *)
Inductive slot (num : Type) : Type :=
| Hole
| Null
| Embedding (embedding : list num).
Arguments Hole {num}.
Arguments Null {num}.
Arguments Embedding {num} embedding.

Record PuzzleData (num : Type) : Type := {
  hint_vocabulary : list string;
  hint_embeddings : list (slot num);
}.
Arguments hint_vocabulary {num} _.
Arguments hint_embeddings {num} _.

Record GameState (num : Type) : Type := {
  targetWord : string;
  targetEmbedding : list num;
  guessesHistory : list string;
  usedHints : list string;
  solved : option bool;
}.
Arguments targetWord {num} _.
Arguments targetEmbedding {num} _.
Arguments guessesHistory {num} _.
Arguments usedHints {num} _.
Arguments solved {num} _.

Record PuzzleManager (num : Type) : Type := {
  puzzleData : PuzzleData num;
  wordToEmbedding : gmap string (list num);
  shuffledVocabulary : list string;
}.
Arguments puzzleData {num} _.
Arguments wordToEmbedding {num} _.
Arguments shuffledVocabulary {num} _.

(** [hint_embeddings[i]] where the code tests it for truthiness: the
    vector, or nothing for a subscript past the end, a hole or a null. *)
Definition embedding_at {num} (hint_embeddings : list (slot num)) (i : nat)
  : option (list num) :=
  match hint_embeddings !! i with
  | Some (Embedding embedding) => Some embedding
  | _ => None
  end.

Section Manager.
Context {num : Type} `{Number num}.
Local Open Scope js_scope.

(** *** The constructor *)

Definition constructor_loop (puzzleData : PuzzleData num)
  : gmap string (list num) :=
  fold_left
    (fun wordToEmbedding i =>
       match hint_vocabulary puzzleData !! i,
             embedding_at (hint_embeddings puzzleData) i with
       | Some word, Some embedding =>
           if truthy word
           then <[word := embedding]> wordToEmbedding
           else wordToEmbedding
       | _, _ => wordToEmbedding
       end)
    (seq 0 (length (hint_vocabulary puzzleData))) ∅.

(** *** The seeded shuffle *)

(** The closure [random] at the value [i] of its counter. *)
Definition random (i : nat) : num :=
  let x := Math_sin (of_nat i) * lit_10000 in
  x - Math_floor x.

(** [t = array[m]; array[m] = array[j]; array[j] = t].  In exact arithmetic
    the subscript [j] is an index below the old [m] ([random_index_lt]), and
    binary64 rounding keeps it so unless [sin i * 10000] is negative and
    above [-2^-53], which no counter [i] of a vocabulary comes near.  The
    exchange is then the one below.  For a subscript that is not an index
    of the array JavaScript would store [undefined] and an extra property;
    the model leaves the array as it is there. *)
Definition swap_elements {A} (array : list A) (m : nat) (j : num)
  : list A :=
  match to_index j with
  | Some j =>
      match array !! m, array !! j with
      | Some t, Some u => <[j := t]> (<[m := u]> array)
      | _, _ => array
      end
  | None => array
  end.

(** [while (m) { j = Math.floor(random() * m--); ... }], by recursion on
    [m]; [i] is the counter of [random]. *)
Fixpoint shuffle_loop {A} (m i : nat) (array : list A) : list A :=
  match m with
  | O => array
  | S m' =>
      let j := Math_floor (random i * of_nat m) in
      shuffle_loop m' (S i) (swap_elements array m' j)
  end.

Definition shuffleWithSeed {A} (array : list A) (seed : string) : list A :=
  shuffle_loop (length array) 0 array.

Definition new_PuzzleManager (puzzleData : PuzzleData num)
  : PuzzleManager num :=
  {| puzzleData := puzzleData;
     wordToEmbedding := constructor_loop puzzleData;
     shuffledVocabulary :=
       shuffleWithSeed (hint_vocabulary puzzleData) "devvit-rocks" |}.

(** *** The singleton *)

(** The static field [PuzzleManager.instance] is threaded as a state:
    [None] before the first construction. *)
Definition getInstance (puzzleData : PuzzleData num)
    (instance : option (PuzzleManager num))
  : PuzzleManager num * option (PuzzleManager num) :=
  match instance with
  | None =>
      let instance := new_PuzzleManager puzzleData in
      (instance, Some instance)
  | Some instance => (instance, Some instance)
  end.

Definition getPuzzleManager (puzzleData : PuzzleData num)
    (instance : option (PuzzleManager num))
  : PuzzleManager num * option (PuzzleManager num) :=
  getInstance puzzleData instance.

(** *** Accessors *)

Definition getShuffledVocabulary (this : PuzzleManager num) : list string :=
  shuffledVocabulary this.

Definition getVocabulary (this : PuzzleManager num) : list string :=
  hint_vocabulary (puzzleData this).

Definition getEmbedding (this : PuzzleManager num) (word : string)
  : option (list num) :=
  wordToEmbedding this !! word.

(** *** The hint search *)

(** The callback of [hint_embeddings.map]: the collinearity score of one
    embedding. *)
Definition collinearityScore (guessEmbedding targetEmbedding : list num)
    (hintEmbedding : list num) : result num :=
  guessDist <- cosineDistance guessEmbedding hintEmbedding ;;
  targetDist <- cosineDistance targetEmbedding hintEmbedding ;;
  Ok (guessDist + targetDist).

(** [hint_embeddings.map(callback)]: a hole is skipped and stays a hole;
    on a [null] the callback runs and its read of [.length] raises. *)
Fixpoint map_slots (callback : list num -> result num)
    (slots : list (slot num)) : result (list (option num)) :=
  match slots with
  | [] => Ok []
  | s :: slots' =>
      score <- match s with
               | Hole => Ok None
               | Null => Throw TypeError
               | Embedding hintEmbedding =>
                   v <- callback hintEmbedding ;; Ok (Some v)
               end ;;
      scores <- map_slots callback slots' ;;
      Ok (score :: scores)
  end.

(** [(a, b) => collinearityScores[a] - collinearityScores[b]]; a hole
    reads as [undefined] and the difference is then NaN. *)
Definition comparefn (collinearityScores : list (option num)) (a b : nat)
  : option num :=
  match mjoin (collinearityScores !! a), mjoin (collinearityScores !! b) with
  | Some x, Some y => Some (x - y)
  | _, _ => None
  end.

Definition sortedIndices (collinearityScores : list (option num))
  : list nat :=
  Array_sort (comparefn collinearityScores)
    (seq 0 (length collinearityScores)).

(** "Basic invalidity checks": the candidate is the target, a past guess
    or a past hint. *)
Definition repeats (gameState : GameState num) (hintWord : string) : bool :=
  String.eqb hintWord (targetWord gameState)
  || Array_includes (guessesHistory gameState) hintWord
  || Array_includes (usedHints gameState) hintWord.

Definition wordsToCheck (gameState : GameState num) : list string :=
  targetWord gameState :: guessesHistory gameState ++ usedHints gameState.

(** "Substring check". *)
Definition collides (gameState : GameState num) (hintWord : string)
  : bool :=
  existsb
    (fun w =>
       (3 <=? String.length w)%nat && String_includes hintWord w
       || (3 <=? String.length hintWord)%nat && String_includes w hintWord)
    (wordsToCheck gameState).

(** The first [for] loop: the result is the word it returns, or [None]
    when the loop runs to its end. *)
Fixpoint firstPass (this : PuzzleManager num) (gameState : GameState num)
    (min_dist_from_target min_dist_from_guesses : num)
    (allGuessesEmbeddings : list (list num)) (indices : list nat)
  : result (option string) :=
  match indices with
  | [] => Ok None
  | idx :: rest =>
      let continue :=
        firstPass this gameState min_dist_from_target
          min_dist_from_guesses allGuessesEmbeddings rest in
      match hint_vocabulary (puzzleData this) !! idx,
            embedding_at (hint_embeddings (puzzleData this)) idx with
      | Some hintWord, Some hintEmbedding =>
          if negb (truthy hintWord) then continue
          else if repeats gameState hintWord then continue
          else if collides gameState hintWord then continue
          else
            distanceFromTarget <-
              cosineDistance (targetEmbedding gameState) hintEmbedding ;;
            distancesFromGuesses <-
              mapM (fun emb => cosineDistance emb hintEmbedding)
                allGuessesEmbeddings ;;
            if (distanceFromTarget >= min_dist_from_target)
               && forallb (fun d => d >= min_dist_from_guesses)
                    distancesFromGuesses
            then Ok (Some hintWord)
            else continue
      | _, _ => continue
      end
  end.

(** The second [for] loop ("Fallback"). *)
Fixpoint fallbackPass (this : PuzzleManager num) (gameState : GameState num)
    (indices : list nat) : option string :=
  match indices with
  | [] => None
  | idx :: rest =>
      match hint_vocabulary (puzzleData this) !! idx with
      | Some hintWord =>
          if negb (truthy hintWord) then fallbackPass this gameState rest
          else if repeats gameState hintWord
          then fallbackPass this gameState rest
          else if collides gameState hintWord
          then fallbackPass this gameState rest
          else Some hintWord
      | None => fallbackPass this gameState rest
      end
  end.

(** [findHint], in the order of the source: the scores and the sorted
    indices (lines 119-131), the thresholds and the first loop (lines
    133-184), the fallback loop and the last resort (lines 186-215). *)
Definition rankIndices (this : PuzzleManager num)
    (guessEmbedding : list num) (gameState : GameState num)
  : result (list nat) :=
  collinearityScores <-
    map_slots (collinearityScore guessEmbedding (targetEmbedding gameState))
      (hint_embeddings (puzzleData this)) ;;
  Ok (sortedIndices collinearityScores).

Definition firstLoop (this : PuzzleManager num)
    (guessEmbedding : list num) (gameState : GameState num)
    (sortedIndices : list nat) : result (option string) :=
  D <- cosineDistance guessEmbedding (targetEmbedding gameState) ;;
  let min_dist_from_target := lit_0_33 * D in
  let min_dist_from_guesses := lit_0_5 * D in
  let allGuessesEmbeddings :=
    omap (getEmbedding this) (guessesHistory gameState) in
  firstPass this gameState min_dist_from_target min_dist_from_guesses
    allGuessesEmbeddings sortedIndices.

Definition findHint (this : PuzzleManager num) (guess : string)
    (gameState : GameState num) : result string :=
  match getEmbedding this guess with
  | None => Ok "unknown"
  | Some guessEmbedding =>
      sortedIndices <- rankIndices this guessEmbedding gameState ;;
      found <- firstLoop this guessEmbedding gameState sortedIndices ;;
      match found with
      | Some hintWord => Ok hintWord
      | None =>
          match fallbackPass this gameState sortedIndices with
          | Some hintWord => Ok hintWord
          | None => Ok "unknown"
          end
      end
  end.

End Manager.

End Puzzle.

(** ** The server route [POST /api/puzzle/hint] *)

Module Server.

Record TargetState (num : Type) : Type := {
  targetWord : string;
  targetEmbedding : list num;
}.
Arguments targetWord {num} _.
Arguments targetEmbedding {num} _.

Record PlayerState : Type := {
  guessesHistory : list string;
  usedHints : list string;
  solved : option bool;
}.

(** The three families of Redis keys the route uses; their prefixes keep
    them apart, so each family is a map of its own, keyed by the full key.
    The values are kept as the records that [JSON.parse] reads back from
    the stored strings: strings and booleans come back as they went, the
    numbers through [JSON_number]. *)
Record Redis (num : Type) : Type := {
  targets : gmap string (TargetState num);   (* puzzle:target:<postId> *)
  players : gmap string PlayerState;   (* puzzle:player:<postId>:<userId> *)
  globalWordIndex : nat;                     (* puzzle:globalWordIndex *)
}.
Arguments targets {num} _.
Arguments players {num} _.
Arguments globalWordIndex {num} _.

Record Context : Type := {
  postId : option string;
  userId : option string;
}.

(** [req.body]: [guess] is [None] when it is absent or not a string. *)
Record Body : Type := { guess : option string }.

(** The object passed to [res.json]. *)
Record Reply : Type := {
  correct : option bool;
  isGameOver : option bool;
  message : option string;
  hint : option string;
  guessesRemaining : option Z;
}.

Inductive Response : Type :=
| Status (code : nat) (error : string)   (* res.status(code).json({error}) *)
| Json (reply : Reply).                  (* res.json(reply) *)

Definition target_key (postId : string) : string :=
  "puzzle:target:" +:+ postId.

Definition player_key (postId : string) (userId : option string) : string :=
  "puzzle:player:" +:+ postId +:+ ":" +:+ default "undefined" userId.

Definition set_target {num} (key : string) (v : TargetState num)
    (redis : Redis num) : Redis num :=
  {| targets := <[key := v]> (targets redis);
     players := players redis;
     globalWordIndex := globalWordIndex redis |}.

Definition set_player {num} (key : string) (v : PlayerState)
    (redis : Redis num) : Redis num :=
  {| targets := targets redis;
     players := <[key := v]> (players redis);
     globalWordIndex := globalWordIndex redis |}.

(** [redis.incrBy("puzzle:globalWordIndex", 1)]: the new value and the
    store holding it (a missing key counts from 0). *)
Definition incr_globalWordIndex {num} (redis : Redis num)
  : nat * Redis num :=
  let wordIndex := S (globalWordIndex redis) in
  (wordIndex,
   {| targets := targets redis;
      players := players redis;
      globalWordIndex := wordIndex |}).

Section Route.
Context {num : Type} `{Number num}.
Variable puzzleManager : Puzzle.PuzzleManager num.

(** [JSON.parse(JSON.stringify(targetState))]. *)
Definition JSON_TargetState (targetState : TargetState num)
  : TargetState num :=
  {| targetWord := targetWord targetState;
     targetEmbedding := map JSON_number (targetEmbedding targetState) |}.

(** "Try to get the target word. If it doesn't exist, create it."  The
    store and [targetStateString] get [JSON.stringify(newTargetState)], and
    the handler goes on with [JSON.parse] of that string. *)
Definition lazy_target (postId : string) (redis : Redis num)
  : Redis num * (Response + TargetState num) :=
  match targets redis !! target_key postId with
  | Some targetState => (redis, inr targetState)
  | None =>
      let '(wordIndex, redis) := incr_globalWordIndex redis in
      let shuffledVocab := Puzzle.getShuffledVocabulary puzzleManager in
      (* on an empty array the subscript is NaN in JavaScript and
         [wordIndex] here: the read is [undefined] either way *)
      match shuffledVocab !! (wordIndex mod length shuffledVocab)%nat with
      | None => (redis, inl (Status 500 "Could not select a target word."))
      | Some targetWord =>
          if negb (truthy targetWord)
          then (redis, inl (Status 500 "Could not select a target word."))
          else
            match Puzzle.getEmbedding puzzleManager targetWord with
            | None =>
                (redis,
                 inl (Status 500
                        "Could not find embedding for target word."))
            | Some targetEmbedding =>
                let newTargetState :=
                  {| targetWord := targetWord;
                     targetEmbedding := targetEmbedding |} in
                let targetState := JSON_TargetState newTargetState in
                (set_target (target_key postId) targetState redis,
                 inr targetState)
            end
      end
  end.

(** "Try to get the player state. If it doesn't exist, create it." *)
Definition lazy_player (key : string) (redis : Redis num)
  : Redis num * PlayerState :=
  match players redis !! key with
  | Some playerState => (redis, playerState)
  | None =>
      let newPlayerState :=
        {| guessesHistory := []; usedHints := []; solved := None |} in
      (set_player key newPlayerState redis, newPlayerState)
  end.

(** The rest of the handler, from "Check if this player has already
    completed the puzzle" on. *)
Definition play (key : string) (guess : string)
    (targetState : TargetState num) (playerState : PlayerState)
    (redis : Redis num) : Redis num * result Response :=
  if default false (solved playerState)
  then
    (redis,
     Ok (Json {| correct := None; isGameOver := Some true;
                 message :=
                   Some ("You have already completed this puzzle! The word was '"
                         +:+ targetWord targetState +:+ "'.");
                 hint := None; guessesRemaining := None |}))
  else
    (* playerState.guessesHistory.push(guess) *)
    let guessesHistory := guessesHistory playerState ++ [guess] in
    if String.eqb guess (targetWord targetState)
    then
      let playerState :=
        {| guessesHistory := guessesHistory;
           usedHints := usedHints playerState;
           solved := Some true |} in
      (set_player key playerState redis,
       Ok (Json {| correct := Some true; isGameOver := Some true;
                   message :=
                     Some ("Congratulations! You guessed the word in "
                           +:+ pretty (length guessesHistory)
                           +:+ " tries!");
                   hint := None; guessesRemaining := None |}))
    else if (10 <=? length guessesHistory)%nat
    then
      let playerState :=
        {| guessesHistory := guessesHistory;
           usedHints := usedHints playerState;
           solved := Some true |} in
      (set_player key playerState redis,
       Ok (Json {| correct := Some false; isGameOver := Some true;
                   message :=
                     Some ("You've used all 10 guesses! The word was '"
                           +:+ targetWord targetState +:+ "'.");
                   hint := None; guessesRemaining := None |}))
    else
      (* { ...targetState, ...playerState } *)
      let gameState :=
        {| Puzzle.targetWord := targetWord targetState;
           Puzzle.targetEmbedding := targetEmbedding targetState;
           Puzzle.guessesHistory := guessesHistory;
           Puzzle.usedHints := usedHints playerState;
           Puzzle.solved := solved playerState |} in
      match Puzzle.findHint puzzleManager guess gameState with
      | Throw e => (redis, Throw e)
      | Ok hint =>
          let playerState :=
            {| guessesHistory := guessesHistory;
               usedHints := usedHints playerState ++ [hint];
               solved := solved playerState |} in
          (set_player key playerState redis,
           Ok (Json {| correct := Some false; isGameOver := Some false;
                       message := None; hint := Some hint;
                       guessesRemaining :=
                         Some (10 - Z.of_nat (length guessesHistory))%Z |}))
      end.

Definition post_hint (context : Context) (body : Body) (redis : Redis num)
  : Redis num * result Response :=
  match postId context with
  | None => (redis, Ok (Status 400 "postId is required"))
  | Some postId =>
      if negb (truthy postId)
      then (redis, Ok (Status 400 "postId is required"))
      else
        match guess body with
        | None => (redis, Ok (Status 400 "Guess must be a non-empty string."))
        | Some guess =>
            if negb (truthy guess)
            then (redis, Ok (Status 400 "Guess must be a non-empty string."))
            else if negb (Array_includes
                            (Puzzle.getVocabulary puzzleManager) guess)
            then (redis, Ok (Status 400 "Word not in vocabulary."))
            else
              match lazy_target postId redis with
              | (redis, inl response) => (redis, Ok response)
              | (redis, inr targetState) =>
                  let key := player_key postId (userId context) in
                  let '(redis, playerState) := lazy_player key redis in
                  play key guess targetState playerState redis
              end
        end
  end.

End Route.

End Server.

(** The binary64 numbers with the tabulated sine, and the exact numbers. *)
#[export] Instance binary64 : Number float := Binary64.number Binary64.sin.
#[export] Instance exact_arithmetic : Number R := Exact.number.

(** * The vocabulary of the specification *)

(** ** Substrings *)

(** [t] occurs in [s]. *)
Definition is_substring (t s : string) : Prop :=
  exists pre post, s = pre +:+ t +:+ post.

(** A substring collision of the candidate [w] with the word [v]: one
    contains the other and the shorter of the two has at least 3
    characters. *)
Definition substring_collision (w v : string) : Prop :=
  (is_substring v w \/ is_substring w v)
  /\ (3 <= Nat.min (String.length v) (String.length w))%nat.

(** ** Hints *)

Section HintVocabulary.
Context {num : Type} `{Number num}.
Local Open Scope js_scope.
Import Puzzle.

(** What the specification asks of a hint. *)
Definition valid_hint (gameState : GameState num) (w : string) : Prop :=
  w <> targetWord gameState
  /\ (w ∉ guessesHistory gameState)
  /\ (w ∉ usedHints gameState)
  /\ forall v, v ∈ wordsToCheck gameState -> ~ substring_collision w v.

(** The vocabulary entry at [idx] is a word (a non-empty string) that passes
    the identity, history and substring checks. *)
Definition admissible (this : PuzzleManager num) (gameState : GameState num)
    (idx : nat) (w : string) : Prop :=
  hint_vocabulary (puzzleData this) !! idx = Some w
  /\ w <> "" /\ valid_hint gameState w.

(** ... and the embedding at [idx] keeps the two distances. *)
Definition constrained (this : PuzzleManager num) (gameState : GameState num)
    (min_dist_from_target min_dist_from_guesses : num)
    (allGuessesEmbeddings : list (list num)) (idx : nat) (w : string) : Prop :=
  admissible this gameState idx w
  /\ exists hintEmbedding distanceFromTarget distancesFromGuesses,
      embedding_at (hint_embeddings (puzzleData this)) idx = Some hintEmbedding
      /\ cosineDistance (targetEmbedding gameState) hintEmbedding
         = Ok distanceFromTarget
      /\ mapM (fun emb => cosineDistance emb hintEmbedding)
           allGuessesEmbeddings = Ok distancesFromGuesses
      /\ (distanceFromTarget >= min_dist_from_target) = true
      /\ Forall (fun d => (d >= min_dist_from_guesses) = true)
           distancesFromGuesses.

(** The same with the thresholds [0.33 * D] and [0.5 * D] and the embeddings
    of the past guesses, as [firstLoop] computes them from the embedding of
    the guess. *)
Definition constrained_candidate (this : PuzzleManager num)
    (guessEmbedding : list num) (gameState : GameState num)
    (idx : nat) (w : string) : Prop :=
  exists D,
    cosineDistance guessEmbedding (targetEmbedding gameState) = Ok D
    /\ constrained this gameState (lit_0_33 * D) (lit_0_5 * D)
         (omap (getEmbedding this) (guessesHistory gameState)) idx w.

(** Every vector of the table and the target vector have [dim] components,
    and no slot is [null]. *)
Definition uniform_dimension (dim : nat) (puzzleData : PuzzleData num)
    (gameState : GameState num) : Prop :=
  Forall (fun s => match s with
                   | Embedding e => length e = dim
                   | Hole => True
                   | Null => False
                   end) (hint_embeddings puzzleData)
  /\ length (targetEmbedding gameState) = dim.

(** The score of a slot: the sum of the distances of its vector to the
    guess and to the target. *)
Definition score_of (guessEmbedding targetEmbedding : list num)
    (s : slot num) (score : option num) : Prop :=
  match s with
  | Hole => score = None
  | Null => False
  | Embedding e =>
      exists guessDist targetDist,
        cosineDistance guessEmbedding e = Ok guessDist
        /\ cosineDistance targetEmbedding e = Ok targetDist
        /\ score = Some (guessDist + targetDist)
  end.

(** One turn of the first loop on its own; [Ok None] stands for
    [continue]. *)
Definition firstPass_turn (this : PuzzleManager num)
    (gameState : GameState num)
    (min_dist_from_target min_dist_from_guesses : num)
    (allGuessesEmbeddings : list (list num)) (idx : nat)
  : result (option string) :=
  match hint_vocabulary (puzzleData this) !! idx,
        embedding_at (hint_embeddings (puzzleData this)) idx with
  | Some hintWord, Some hintEmbedding =>
      if negb (truthy hintWord) || repeats gameState hintWord
         || collides gameState hintWord
      then Ok None
      else
        distanceFromTarget <-
          cosineDistance (targetEmbedding gameState) hintEmbedding ;;
        distancesFromGuesses <-
          mapM (fun emb => cosineDistance emb hintEmbedding)
            allGuessesEmbeddings ;;
        Ok (if (distanceFromTarget >= min_dist_from_target)
               && forallb (fun d => d >= min_dist_from_guesses)
                    distancesFromGuesses
            then Some hintWord else None)
  | _, _ => Ok None
  end.

(** The calls [getPuzzleManager(p)] for the payloads [p] of a list, in
    order, from a given value of the static field: the managers returned and
    the final value of the field. *)
Fixpoint getPuzzleManager_calls (payloads : list (PuzzleData num))
    (instance : option (PuzzleManager num))
  : list (PuzzleManager num) * option (PuzzleManager num) :=
  match payloads with
  | [] => ([], instance)
  | puzzleData :: rest =>
      let '(manager, instance) := getPuzzleManager puzzleData instance in
      let '(managers, instance) := getPuzzleManager_calls rest instance in
      (manager :: managers, instance)
  end.

End HintVocabulary.

(** ** The ranking *)

Section RankingVocabulary.
Context {num : Type} `{Number num}.
Variable comparefn : nat -> nat -> option num.

(** The comparator is consistent on the indices of [l]: "sorts after" is
    asymmetric and "does not sort after" is transitive.  A NaN among the
    scores breaks it. *)
Definition consistentb (l : list nat) : bool :=
  forallb (fun i =>
    forallb (fun j =>
      implb (sorts_after comparefn i j) (negb (sorts_after comparefn j i))
      && forallb (fun k =>
           implb (negb (sorts_after comparefn i j)
                  && negb (sorts_after comparefn j k))
             (negb (sorts_after comparefn i k)))
           l) l) l.

Definition consistent_on (l : list nat) : Prop := consistentb l = true.

(** [i] is ranked before [j]: its score is not above the score of [j], and
    on a tie [i] is the smaller index. *)
Definition ranked (i j : nat) : Prop :=
  sorts_after comparefn i j = false
  /\ (sorts_after comparefn j i = false -> i < j).

End RankingVocabulary.

Section ScoreOrder.
Context {num : Type} `{Number num}.
Local Open Scope js_scope.

(** [i] comes before [j] by the scores: the score at [i] is not above the
    score at [j], and when neither is above the other [i] is the smaller
    index. *)
Definition ascending (scores : list (option num)) (i j : nat) : Prop :=
  exists x y,
    scores !! i = Some (Some x) /\ scores !! j = Some (Some y)
    /\ (y >= x) = true
    /\ ((x >= y) = true -> (i < j)%nat).

(** Every slot has a score, and of two scores the first is above the second
    exactly when their difference is positive.  A NaN among the scores
    breaks it. *)
Definition differences_tell_orderb (scores : list (option num)) : bool :=
  forallb (fun s =>
    forallb (fun t =>
      match s, t with
      | Some x, Some y => Bool.eqb (0 < x - y) (negb (y >= x))
      | _, _ => false
      end) scores) scores.

Definition differences_tell_order (scores : list (option num)) : Prop :=
  differences_tell_orderb scores = true.

End ScoreOrder.

(** ** Sessions *)

Section SessionVocabulary.
Context {num : Type} `{Number num}.
Import Server.

(** The four outcomes of a guess, as the replies the handler sends. *)
Definition AlreadyCompleted (message : string) : Response :=
  Json {| correct := None; isGameOver := Some true;
          message := Some message; hint := None;
          guessesRemaining := None |}.

Definition Won (message : string) : Response :=
  Json {| correct := Some true; isGameOver := Some true;
          message := Some message; hint := None;
          guessesRemaining := None |}.

Definition Lost (message : string) : Response :=
  Json {| correct := Some false; isGameOver := Some true;
          message := Some message; hint := None;
          guessesRemaining := None |}.

Definition Hinted (hint : string) (guessesRemaining : Z) : Response :=
  Json {| correct := Some false; isGameOver := Some false;
          message := None; hint := Some hint;
          guessesRemaining := Some guessesRemaining |}.

(** The session is over when [solved] is truthy. *)
Definition terminal (playerState : PlayerState) : Prop :=
  solved playerState = Some true.

(** The request passes the validation at the head of the handler: a post
    id, and a non-empty guess drawn from the vocabulary. *)
Definition valid_request (puzzleManager : Puzzle.PuzzleManager num)
    (context : Context) (body : Body) (post : string) (g : string) : Prop :=
  postId context = Some post /\ post <> "" /\ guess body = Some g
  /\ g <> "" /\ g ∈ Puzzle.getVocabulary puzzleManager.

(** The stored target holds the embedding the manager has for its word, as
    [JSON.parse] reads it back. *)
Definition stored_embedding (puzzleManager : Puzzle.PuzzleManager num)
    (targetState : TargetState num) : Prop :=
  exists targetEmbedding,
    Puzzle.getEmbedding puzzleManager (targetWord targetState)
    = Some targetEmbedding
    /\ Server.targetEmbedding targetState
       = map JSON_number targetEmbedding.

(** The game state [findHint] receives for a target and a player state. *)
Definition gameState_of (targetState : TargetState num)
    (playerState : PlayerState) : Puzzle.GameState num :=
  {| Puzzle.targetWord := targetWord targetState;
     Puzzle.targetEmbedding := targetEmbedding targetState;
     Puzzle.guessesHistory := guessesHistory playerState;
     Puzzle.usedHints := usedHints playerState;
     Puzzle.solved := solved playerState |}.

End SessionVocabulary.

(** ** Worked data *)

Module Examples.
Import Puzzle.
Local Open Scope float_scope.

(** The vocabulary of the end-to-end scenario of the specification, with
    2-dimensional embeddings: cat and kitten close, dog and puppy close, car
    far from both. *)
Definition pets : PuzzleData float :=
  {| hint_vocabulary := ["cat"; "dog"; "kitten"; "puppy"; "car"];
     hint_embeddings :=
       [Embedding [1; 0]; Embedding [0; 1]; Embedding [0.75; 0.25];
        Embedding [0.25; 0.75]; Embedding [-1; -1]] |}.

Definition cat_after_dog : GameState float :=
  {| targetWord := "cat"; targetEmbedding := [1; 0];
     guessesHistory := ["dog"]; usedHints := []; solved := None |}.

(** A table whose last slot is a hole of a sparse array, the same table
    with a [null] there, and the table cut short. *)
Definition sparse : PuzzleData float :=
  {| hint_vocabulary := ["cat"; "dog"; "sun"];
     hint_embeddings := [Embedding [1; 0]; Embedding [0; 1]; Hole] |}.

Definition with_null : PuzzleData float :=
  {| hint_vocabulary := ["cat"; "dog"; "sun"];
     hint_embeddings := [Embedding [1; 0]; Embedding [0; 1]; Null] |}.

Definition cut_short : PuzzleData float :=
  {| hint_vocabulary := ["cat"; "dog"; "sun"];
     hint_embeddings := [Embedding [1; 0]; Embedding [0; 1]] |}.

Definition sparse_manager : PuzzleManager float := new_PuzzleManager sparse.

(** Two words only: after one guess nothing is left to hint.  [exhausted]
    is the state of the second guess ["dog"], after the first one was
    answered by the last resort. *)
Definition two_words : PuzzleData float :=
  {| hint_vocabulary := ["cat"; "dog"];
     hint_embeddings := [Embedding [1; 0]; Embedding [0; 1]] |}.

Definition exhausted : GameState float :=
  {| targetWord := "cat"; targetEmbedding := [1; 0];
     guessesHistory := ["dog"; "dog"]; usedHints := ["unknown"];
     solved := None |}.

End Examples.

Module Scenario.
Import Server.
Local Open Scope float_scope.

Definition manager : Puzzle.PuzzleManager float :=
  Puzzle.new_PuzzleManager Examples.pets.

Definition context : Context :=
  {| postId := Some "t3_abc"; userId := Some "t2_player" |}.

Definition cat : TargetState float :=
  {| targetWord := "cat"; targetEmbedding := [1; 0] |}.

Definition dog : TargetState float :=
  {| targetWord := "dog"; targetEmbedding := [0; 1] |}.

(** The store before any post was touched. *)
Definition untouched : Redis float :=
  {| targets := ∅; players := ∅; globalWordIndex := 4 |}.

(** The store after the post got the target [cat], before the player's
    first guess. *)
Definition fresh : Redis float :=
  {| targets := {[ target_key "t3_abc" := cat ]};
     players := ∅;
     globalWordIndex := 5 |}.

Definition new_player : PlayerState :=
  {| guessesHistory := []; usedHints := []; solved := None |}.

Definition winner : PlayerState :=
  {| guessesHistory := ["dog"; "cat"]; usedHints := ["car"];
     solved := Some true |}.

(** The store after the player won. *)
Definition finished : Redis float :=
  set_player (player_key "t3_abc" (Some "t2_player")) winner fresh.

End Scenario.

(** * Further vocabulary *)

(** ** The table and the constructor *)

Section TableVocabulary.
Context {num : Type} `{Number num}.
Local Open Scope js_scope.
Import Puzzle.

(** The map after the first [n] turns of the constructor's loop. *)
Definition wordToEmbedding_upto (table : PuzzleData num) (n : nat)
  : gmap string (list num) :=
  fold_left
    (fun wordToEmbedding i =>
       match hint_vocabulary table !! i,
             embedding_at (hint_embeddings table) i with
       | Some word, Some embedding =>
           if truthy word
           then <[word := embedding]> wordToEmbedding
           else wordToEmbedding
       | _, _ => wordToEmbedding
       end)
    (seq 0 n) ∅.

(** [i] is the last index below [n] at which the word [w] stands with an
    embedding, and that embedding is [e]. *)
Definition last_entry (table : PuzzleData num) (n : nat) (w : string)
    (i : nat) (e : list num) : Prop :=
  (i < n)%nat
  /\ hint_vocabulary table !! i = Some w
  /\ embedding_at (hint_embeddings table) i = Some e
  /\ forall j e', (i < j < n)%nat -> hint_vocabulary table !! j = Some w ->
       embedding_at (hint_embeddings table) j = Some e' -> False.

(** Every vector of the table has [dim] components and no slot is
    [null]. *)
Definition uniform_table (dim : nat) (puzzleData : PuzzleData num) : Prop :=
  Forall (fun s => match s with
                   | Embedding e => length e = dim
                   | Hole => True
                   | Null => False
                   end) (hint_embeddings puzzleData).

(** Every entry of the vocabulary is a word with an embedding in its
    slot. *)
Definition complete_table (puzzleData : PuzzleData num) : Prop :=
  forall i w,
    hint_vocabulary puzzleData !! i = Some w ->
    w <> "" /\ is_Some (embedding_at (hint_embeddings puzzleData) i).

(** Every turn of the shuffle's loop, from the value [m] of its bound and
    [i] of the counter on, exchanges two elements of the array, the second
    one at or below the first. *)
Fixpoint shuffle_in_bounds {A} (m i : nat) (array : list A) : Prop :=
  match m with
  | O => True
  | S m' =>
      let j := Math_floor (random i * of_nat m) in
      (exists k t u,
          to_index j = Some k /\ (k <= m')%nat
          /\ array !! m' = Some t /\ array !! k = Some u
          /\ swap_elements array m' j = <[k := t]> (<[m' := u]> array))
      /\ shuffle_in_bounds m' (S i) (swap_elements array m' j)
  end.

(** Two states that differ in the order and the repetitions of their
    guesses and of their hints only (and in [solved]). *)
Definition same_history (gameState gameState' : GameState num) : Prop :=
  targetWord gameState = targetWord gameState'
  /\ targetEmbedding gameState = targetEmbedding gameState'
  /\ (forall w, w ∈ guessesHistory gameState
                <-> w ∈ guessesHistory gameState')
  /\ (forall w, w ∈ usedHints gameState <-> w ∈ usedHints gameState').

End TableVocabulary.

(** ** The stores of the route *)

Section StoreVocabulary.
Context {num : Type} `{Number num}.
Import Puzzle Server.

(** The state [lazy_player] creates. *)
Definition new_player_state : PlayerState :=
  {| guessesHistory := []; usedHints := []; solved := None |}.

(** What [play] stores for a running session: the state after a win or a
    loss, or the state after a hint. *)
Definition play_step (puzzleManager : PuzzleManager num) (g : string)
    (targetState : TargetState num)
    (playerState playerState' : PlayerState) : Prop :=
  default false (solved playerState) = false
  /\ (playerState'
      = {| guessesHistory := guessesHistory playerState ++ [g];
           usedHints := usedHints playerState;
           solved := Some true |}
      /\ (g = targetWord targetState
          \/ 10 <= length (guessesHistory playerState ++ [g]))
      \/ length (guessesHistory playerState ++ [g]) < 10
         /\ g <> targetWord targetState
         /\ exists h,
             findHint puzzleManager g
               (gameState_of targetState
                  {| guessesHistory := guessesHistory playerState ++ [g];
                     usedHints := usedHints playerState;
                     solved := solved playerState |}) = Ok h
             /\ playerState'
                = {| guessesHistory := guessesHistory playerState ++ [g];
                     usedHints := usedHints playerState ++ [h];
                     solved := solved playerState |}).

(** The requests of a list, served one after the other: the store they
    leave and the outcome of each. *)
Fixpoint serve (puzzleManager : PuzzleManager num)
    (requests : list (Context * Body)) (redis : Redis num)
  : Redis num * list (result Response) :=
  match requests with
  | [] => (redis, [])
  | (context, body) :: rest =>
      let '(redis, response) := post_hint puzzleManager context body redis in
      let '(redis, responses) := serve puzzleManager rest redis in
      (redis, response :: responses)
  end.

(** The counts of a session: a running one has a hint for every guess and
    fewer than 10 guesses; a finished one has at most 10 guesses and no
    hint for the last. *)
Definition session_counts (playerState : PlayerState) : Prop :=
  if default false (solved playerState)
  then length (usedHints playerState) + 1
       = length (guessesHistory playerState)
       /\ length (guessesHistory playerState) <= 10
  else length (usedHints playerState) = length (guessesHistory playerState)
       /\ length (guessesHistory playerState) < 10.

(** No hint but the last resort was given twice. *)
Definition distinct_hints (playerState : PlayerState) : Prop :=
  NoDup (filter (fun h => h <> "unknown") (usedHints playerState)).

(** Every stored target is a word of the vocabulary with the embedding the
    manager has for it, as [JSON.parse] reads it back from the store. *)
Definition targets_from (puzzleManager : PuzzleManager num)
    (redis : Redis num) : Prop :=
  forall key targetState,
    targets redis !! key = Some targetState ->
    targetWord targetState ∈ getVocabulary puzzleManager
    /\ targetWord targetState <> ""
    /\ stored_embedding puzzleManager targetState.

End StoreVocabulary.

(** * The page

    [main.ts], the variant that plays in the browser: it keeps the game
    state in a module variable, asks the manager for the hints itself and
    posts the state to [/api/puzzle/save]. *)

Module Client.
Import Puzzle.

(** What [handleGuess] writes to the message area, kept as the data the
    text is built from ([toFixed(3)] is not applied to the distance). *)
Inductive Message (num : Type) : Type :=
| NotInitialized            (* "Game is not initialized." *)
| AlreadyGuessed            (* "You have already guessed this word." *)
| UnknownWord               (* "I don't know that word." *)
| GotIt (targetWord : string)
| OutOfGuesses (targetWord : string)
| HintGiven (guess : string) (distance : num) (hint : string)
    (remainingGuesses : Z)
| UnexpectedError.          (* "An unexpected error occurred." *)
Arguments NotInitialized {num}.
Arguments AlreadyGuessed {num}.
Arguments UnknownWord {num}.
Arguments GotIt {num} _.
Arguments OutOfGuesses {num} _.
Arguments HintGiven {num} _ _ _ _.
Arguments UnexpectedError {num}.

(** The effects of one call of [handleGuess]: the module variable
    [gameState] after it, the message written ([None]: none), the body of
    the request [saveGameState] sends ([None]: it is not called), and what
    the [finally] block leaves in [disabled] of the two inputs ([None]: the
    call returns before the [try]). *)
Record Outcome (num : Type) : Type := {
  gameState : option (GameState num);
  message : option (Message num);
  saved : option Server.PlayerState;
  disabled : option bool;
}.
Arguments gameState {num} _.
Arguments message {num} _.
Arguments saved {num} _.
Arguments disabled {num} _.

Section Page.
Context {num : Type} `{Number num}.

(** The body [saveGameState] posts to [/api/puzzle/save]. *)
Definition saveGameState (gameState : GameState num) : Server.PlayerState :=
  {| Server.guessesHistory := guessesHistory gameState;
     Server.usedHints := usedHints gameState;
     Server.solved := solved gameState |}.

(** [initializeGame] once its two fetches have answered: the manager of the
    payload, and the game state made of the server's reply, or none when
    the target word has no embedding (the [throw] is caught and [gameState]
    stays [null]). *)
Definition initializeGame (puzzleData : PuzzleData num)
    (targetWord : string) (playerState : Server.PlayerState)
  : PuzzleManager num * option (GameState num) :=
  let puzzleManager := (getPuzzleManager puzzleData None).1 in
  match getEmbedding puzzleManager targetWord with
  | None => (puzzleManager, None)
  | Some targetEmbedding =>
      (puzzleManager,
       Some {| targetWord := targetWord;
               targetEmbedding := targetEmbedding;
               guessesHistory := Server.guessesHistory playerState;
               usedHints := Server.usedHints playerState;
               solved := Server.solved playerState |})
  end.

(** [handleGuess], for the value [guess] of the input after
    [trim().toLowerCase()]. *)
Definition handleGuess (puzzleManager : option (PuzzleManager num))
    (gameState : option (GameState num)) (guess : string) : Outcome num :=
  match gameState, puzzleManager with
  | Some gameState, Some puzzleManager =>
      if negb (truthy guess)
      then {| gameState := Some gameState; message := None;
              saved := None; disabled := None |}
      else if Array_includes (guessesHistory gameState) guess
      then {| gameState := Some gameState; message := Some AlreadyGuessed;
              saved := None; disabled := None |}
      else
        (* try *)
        let '(gameState, message, saved) :=
          match getEmbedding puzzleManager guess with
          | None => (gameState, UnknownWord, None)
          | Some guessEmbedding =>
              if String.eqb guess (targetWord gameState)
              then
                let gameState :=
                  {| targetWord := targetWord gameState;
                     targetEmbedding := targetEmbedding gameState;
                     guessesHistory := guessesHistory gameState;
                     usedHints := usedHints gameState;
                     solved := Some true |} in
                (gameState, GotIt (targetWord gameState),
                 Some (saveGameState gameState))
              else
                let gameState :=
                  {| targetWord := targetWord gameState;
                     targetEmbedding := targetEmbedding gameState;
                     guessesHistory := guessesHistory gameState ++ [guess];
                     usedHints := usedHints gameState;
                     solved := solved gameState |} in
                let remainingGuesses :=
                  (10 - Z.of_nat (length (guessesHistory gameState)))%Z in
                if (remainingGuesses <=? 0)%Z
                then (gameState, OutOfGuesses (targetWord gameState),
                      Some (saveGameState gameState))
                else
                  match findHint puzzleManager guess gameState with
                  | Throw _ => (gameState, UnexpectedError, None)
                  | Ok hint =>
                      let gameState :=
                        {| targetWord := targetWord gameState;
                           targetEmbedding := targetEmbedding gameState;
                           guessesHistory := guessesHistory gameState;
                           usedHints := usedHints gameState ++ [hint];
                           solved := solved gameState |} in
                      match cosineDistance guessEmbedding
                              (targetEmbedding gameState) with
                      | Throw _ => (gameState, UnexpectedError, None)
                      | Ok distance =>
                          (gameState,
                           HintGiven guess distance hint remainingGuesses,
                           Some (saveGameState gameState))
                      end
                  end
          end in
        (* finally *)
        {| gameState := Some gameState; message := Some message;
           saved := saved;
           disabled := Some (default false (solved gameState)) |}
  | _, _ =>
      {| gameState := gameState; message := Some NotInitialized;
         saved := None; disabled := None |}
  end.

(** The guesses of a list, one call each: the outcomes and the final game
    state. *)
Fixpoint handleGuesses (puzzleManager : option (PuzzleManager num))
    (gameState : option (GameState num)) (guesses : list string)
  : list (Outcome num) * option (GameState num) :=
  match guesses with
  | [] => ([], gameState)
  | guess :: rest =>
      let outcome := handleGuess puzzleManager gameState guess in
      let '(outcomes, final) :=
        handleGuesses puzzleManager (Client.gameState outcome) rest in
      (outcome :: outcomes, final)
  end.

End Page.
End Client.

(** * The page of the served game

    [main.ts], the variant that sends every guess to [/api/puzzle/hint]
    and shows the reply. *)

Module ThinClient.
Import Server.

(** What [fetch] and [response.json()] deliver: a reply of the route, or
    a rejection of either promise. *)
Inductive Fetched : Type :=
| Failed
| Answered (response : Response).

(** [response.ok]: the status is in the range 200-299; [res.json] alone
    answers 200. *)
Definition ok (response : Response) : bool :=
  match response with
  | Status code _ => (200 <=? code) && (code <=? 299)
  | Json _ => true
  end.

(** [data.error]. *)
Definition data_error (response : Response) : option string :=
  match response with
  | Status _ error => Some error
  | Json _ => None
  end.

(** The other fields of [data]; an error body has none of them. *)
Definition data (response : Response) : Reply :=
  match response with
  | Status _ _ =>
      {| correct := None; isGameOver := None; message := None;
         hint := None; guessesRemaining := None |}
  | Json reply => reply
  end.

(** What the call leaves on the page: the text and the class of the message
    area, the text of the remaining-guesses element ([None]: untouched) and
    [disabled] of the two inputs. *)
Record Display : Type := {
  textContent : string;
  className : string;
  guessesRemainingText : option string;
  disabled : bool;
}.

(** [handleGuess], for the value [guess] of the input after
    [trim().toLowerCase()] and the outcome of the request; [None] when the
    call returns before sending anything. *)
Definition handleGuess (guess : string) (fetched : Fetched)
  : option Display :=
  if negb (truthy guess) then None
  else
    (* try / catch *)
    let '(text, class, remaining) :=
      match fetched with
      | Failed =>
          ("Failed to connect to the server.", "message error", None)
      | Answered response =>
          if negb (ok response)
          then
            (match data_error response with
             | Some error =>
                 if truthy error then error
                 else "An unknown error occurred."
             | None => "An unknown error occurred."
             end,
             "message error", None)
          else if default false (isGameOver (data response))
          then
            (* an [undefined] assigned to [textContent] reads back as the
               empty string *)
            (default "" (message (data response)),
             if default false (correct (data response))
             then "message success" else "message error",
             Some "")
          else
            ("Hint: " +:+ default "undefined" (hint (data response)),
             "message hint",
             Some ("Guesses remaining: "
                   +:+ match guessesRemaining (data response) with
                       | Some n => pretty n
                       | None => "undefined"
                       end))
      end in
    (* finally *)
    Some {| textContent := text; className := class;
            guessesRemainingText := remaining;
            disabled := String.prefix "You have already" text |}.

End ThinClient.

(** ** More worked data *)

Module Samples.
Local Open Scope float_scope.

(** The first guess of the scenario, as a request. *)
Definition dog_request : Server.Context * Server.Body :=
  (Scenario.context, {| Server.guess := Some "dog" |}).

(** The state the route stores for it. *)
Definition after_dog : Server.PlayerState :=
  {| Server.guessesHistory := ["dog"]; Server.usedHints := ["car"];
     Server.solved := None |}.

(** [Examples.cat_after_dog] with the guess recorded twice and the flag
    set to [false]. *)
Definition dog_twice : Puzzle.GameState float :=
  {| Puzzle.targetWord := "cat"; Puzzle.targetEmbedding := [1; 0];
     Puzzle.guessesHistory := ["dog"; "dog"]; Puzzle.usedHints := [];
     Puzzle.solved := Some false |}.

(** A page after nine wrong guesses. *)
Definition nine_guesses : Puzzle.GameState float :=
  {| Puzzle.targetWord := "cat"; Puzzle.targetEmbedding := [1; 0];
     Puzzle.guessesHistory :=
       ["one"; "two"; "three"; "four"; "five"; "six"; "seven"; "eight";
        "nine"];
     Puzzle.usedHints := []; Puzzle.solved := Some false |}.

(** A table with a negative zero, and a guess of its second word. *)
Definition signed_zero : Puzzle.PuzzleData float :=
  {| Puzzle.hint_vocabulary := ["up"; "right"];
     Puzzle.hint_embeddings :=
       [Puzzle.Embedding [-0; 1]; Puzzle.Embedding [1; 0]] |}.

Definition right_request : Server.Context * Server.Body :=
  (Scenario.context, {| Server.guess := Some "right" |}).

(** A store whose counter is about to select ["sun"], the word of
    [Examples.sparse] that has no embedding. *)
Definition before_sun : Server.Redis float :=
  {| Server.targets := ∅; Server.players := ∅;
     Server.globalWordIndex := 2 |}.

End Samples.

(** * Properties *)

(** ** The distance *)

Section DistanceFacts.
Context {num : Type} `{Number num}.
Local Open Scope js_scope.

(** The loop accumulates the three sums. *)
Lemma cosineDistance_loop_sums (a b : list num) :
  forall d ma mb, length a = length b ->
  cosineDistance_loop a b (d, ma, mb) =
    (fold_left (fun acc xy => acc + fst xy * snd xy) (combine a b) d,
     fold_left (fun acc xy => acc + fst xy * snd xy) (combine a a) ma,
     fold_left (fun acc xy => acc + fst xy * snd xy) (combine b b) mb).
Proof.
  revert b. induction a as [|x a IH]; intros [|y b] d ma mb Hlen;
    simpl in *; try discriminate; [reflexivity|].
  apply IH. congruence.
Qed.

Lemma cosineDistance_equal_length (vecA vecB : list num) :
  length vecA = length vecB ->
  cosineDistance vecA vecB =
    Ok (if (magnitude vecA === 0) || (magnitude vecB === 0) then 1
        else 1 - dot vecA vecB / (magnitude vecA * magnitude vecB)).
Proof.
  intros Heq. unfold cosineDistance.
  rewrite (proj2 (Nat.eqb_eq _ _) Heq). cbn [negb].
  rewrite (cosineDistance_loop_sums _ _ _ _ _ Heq).
  fold (dot vecA vecB) (dot vecA vecA) (dot vecB vecB).
  fold (magnitude vecA) (magnitude vecB).
  destruct ((magnitude vecA === 0) || (magnitude vecB === 0)); reflexivity.
Qed.

Lemma cosineDistance_unequal_length (vecA vecB : list num) :
  length vecA <> length vecB ->
  cosineDistance vecA vecB = Throw (Error "Vectors must have the same length").
Proof.
  intros Hne. unfold cosineDistance.
  rewrite (proj2 (Nat.eqb_neq _ _) Hne). reflexivity.
Qed.

Lemma cosineDistance_Ok (a b : list num) :
  length a = length b -> exists d, cosineDistance a b = Ok d.
Proof.
  intros Hlen. eexists. apply cosineDistance_equal_length, Hlen.
Qed.

(** C7: [cosineDistance] raises exactly when the lengths differ; on equal
    lengths it returns 1 when one of the two magnitudes is zero and
    [1 - a.b / (|a| |b|)] otherwise. *)
Theorem cosineDistance_contract (vecA vecB : list num) :
  (is_Throw (cosineDistance vecA vecB) <-> length vecA <> length vecB)
  /\ (length vecA = length vecB ->
      cosineDistance vecA vecB =
        Ok (if (magnitude vecA === 0) || (magnitude vecB === 0) then 1
            else 1 - dot vecA vecB / (magnitude vecA * magnitude vecB))).
Proof.
  split; [|apply cosineDistance_equal_length].
  destruct (Nat.eq_dec (length vecA) (length vecB)) as [Heq|Hne].
  - rewrite (cosineDistance_equal_length _ _ Heq). simpl. tauto.
  - rewrite (cosineDistance_unequal_length _ _ Hne). simpl. tauto.
Qed.

(** The distance is symmetric as soon as the product of two numbers is. *)
Lemma dot_comm (mul_comm : forall x y : num, x * y = y * x)
    (a b : list num) : dot a b = dot b a.
Proof.
  unfold dot. generalize (0 : num).
  revert b. induction a as [|x a IH]; intros [|y b] acc; simpl;
    try reflexivity.
  rewrite (mul_comm x y). apply IH.
Qed.

Lemma cosineDistance_sym (mul_comm : forall x y : num, x * y = y * x)
    (a b : list num) : cosineDistance a b = cosineDistance b a.
Proof.
  destruct (Nat.eq_dec (length a) (length b)) as [Heq|Hne].
  - rewrite (cosineDistance_equal_length a b Heq).
    rewrite (cosineDistance_equal_length b a (eq_sym Heq)).
    rewrite (orb_comm (magnitude b === 0)).
    rewrite (dot_comm mul_comm b a), (mul_comm (magnitude b)). reflexivity.
  - rewrite (cosineDistance_unequal_length a b Hne).
    rewrite (cosineDistance_unequal_length b a); [reflexivity|congruence].
Qed.

End DistanceFacts.

(** Binary64 multiplication is commutative. *)
Lemma binary64_mul_comm (x y : float) : (x * y = y * x)%float.
Proof.
  apply Prim2SF_inj. rewrite !mul_spec. unfold SF64mul, SFmul.
  destruct (Prim2SF x) as [sx|sx| |sx mx ex], (Prim2SF y) as [sy|sy| |sy my ey];
    try reflexivity; rewrite (xorb_comm sx sy); try reflexivity.
  rewrite (Pos.mul_comm mx my), (Z.add_comm ex ey). reflexivity.
Qed.

Section ExactDistance.
Local Open Scope R_scope.

Lemma exact_dot_acc (p : list (R * R)) (acc : R) :
  fold_left (fun acc xy => add acc (mul (fst xy) (snd xy))) p acc =
  acc + fold_left (fun acc xy => add acc (mul (fst xy) (snd xy))) p 0.
Proof.
  set (step := fun (acc : R) (xy : R * R) => add acc (mul (fst xy) (snd xy))).
  revert acc. induction p as [|[x y] p IH]; intros acc; cbn [fold_left].
  - lra.
  - rewrite (IH (step acc (x, y))), (IH (step 0 (x, y))).
    unfold step. simpl. lra.
Qed.

Lemma exact_dot_cons (x y : R) (a b : list R) :
  dot (x :: a) (y :: b) = x * y + dot a b.
Proof.
  unfold dot. cbn [combine fold_left]. rewrite exact_dot_acc. simpl. lra.
Qed.

Lemma exact_dot_nil_l (b : list R) : dot [] b = 0.
Proof. reflexivity. Qed.

Lemma exact_dot_nil_r (a : list R) : dot a [] = 0.
Proof. destruct a; reflexivity. Qed.

Lemma exact_dot_self_nonneg (a : list R) : 0 <= dot a a.
Proof.
  induction a as [|x a IH]; rewrite ?exact_dot_cons, ?exact_dot_nil_l; nra.
Qed.

Lemma cauchy_schwarz_step (x y A B D : R) :
  0 <= A -> 0 <= B -> D * D <= A * B ->
  (x * y + D) * (x * y + D) <= (x * x + A) * (y * y + B).
Proof.
  intros HA HB HD.
  assert (Hkey : 2 * x * y * D <= A * (y * y) + B * (x * x)).
  { destruct (Req_dec A 0) as [HA0|HA0].
    - subst A.
      assert (HD0 : D = 0).
      { apply Rsqr_0_uniq. pose proof (Rle_0_sqr D) as H0.
        unfold Rsqr in *. lra. }
      subst D. nra.
    - assert (HApos : 0 < A) by lra.
      assert (Hid : A * (A * (y * y) + B * (x * x) - 2 * x * y * D) =
                    (A * y - x * D) * (A * y - x * D)
                    + x * x * (A * B - D * D)) by ring.
      pose proof (Rle_0_sqr (A * y - x * D)) as Hsq1. unfold Rsqr in Hsq1.
      pose proof (Rle_0_sqr x) as Hsq2. unfold Rsqr in Hsq2.
      assert (Hsq3 : 0 <= x * x * (A * B - D * D))
        by (apply Rmult_le_pos; lra).
      assert (Hpos : 0 <= A * (A * (y * y) + B * (x * x) - 2 * x * y * D))
        by lra.
      assert (0 <= A * (y * y) + B * (x * x) - 2 * x * y * D); [|lra].
      apply (Rmult_le_reg_l A); [exact HApos|]. lra. }
  nra.
Qed.

Lemma exact_cauchy_schwarz (a b : list R) :
  dot a b * dot a b <= dot a a * dot b b.
Proof.
  revert b. induction a as [|x a IH]; intros [|y b];
    rewrite ?exact_dot_cons, ?exact_dot_nil_l, ?exact_dot_nil_r.
  - lra.
  - pose proof (exact_dot_self_nonneg b). nra.
  - pose proof (exact_dot_self_nonneg a). nra.
  - apply cauchy_schwarz_step; auto using exact_dot_self_nonneg.
Qed.

Lemma Reqb_true (x y : R) : Exact.Reqb x y = true <-> x = y.
Proof. unfold Exact.Reqb. destruct (Req_dec_T x y); split; congruence. Qed.

Lemma Reqb_false (x y : R) : Exact.Reqb x y = false <-> x <> y.
Proof. unfold Exact.Reqb. destruct (Req_dec_T x y); split; congruence. Qed.

Lemma Rltb_true (x y : R) : Exact.Rltb x y = true <-> x < y.
Proof. unfold Exact.Rltb. destruct (Rlt_dec x y); split; congruence. Qed.

Lemma exact_magnitude_nonneg (a : list R) : 0 <= magnitude a.
Proof. apply sqrt_pos. Qed.

Lemma exact_magnitude_sqr (a : list R) : magnitude a * magnitude a = dot a a.
Proof. apply sqrt_sqrt, exact_dot_self_nonneg. Qed.

(** [|a.b| <= |a| |b|]. *)
Lemma exact_dot_bound (a b : list R) :
  - (magnitude a * magnitude b) <= dot a b <= magnitude a * magnitude b.
Proof.
  pose proof (exact_cauchy_schwarz a b) as Hcs.
  rewrite <- (exact_magnitude_sqr a), <- (exact_magnitude_sqr b) in Hcs.
  pose proof (exact_magnitude_nonneg a) as Ha.
  pose proof (exact_magnitude_nonneg b) as Hb.
  set (ma := magnitude a) in *. set (mb := magnitude b) in *.
  assert (Hm : 0 <= ma * mb) by (apply Rmult_le_pos; assumption).
  assert (Habs : Rabs (dot a b) <= Rabs (ma * mb)).
  { apply Rsqr_le_abs_0. unfold Rsqr. lra. }
  rewrite (Rabs_pos_eq _ Hm) in Habs.
  unfold Rabs in Habs. destruct (Rcase_abs (dot a b)); lra.
Qed.

Lemma exact_self_distance_zero_magnitude (a : list R) :
  magnitude a = 0 -> cosineDistance a a = Ok 1.
Proof.
  intros Hz. rewrite (cosineDistance_equal_length a a eq_refl).
  cbn [strict_eq zero one exact_arithmetic Exact.number].
  rewrite (proj2 (Reqb_true _ _) Hz). reflexivity.
Qed.

(** C8, as amended: in exact arithmetic, and in binary64 for the symmetry.
    For real vectors of equal length the distance is symmetric, lies in
    [0, 2], and the distance of a vector to itself is 0 when its magnitude
    is not zero and 1 when it is; on binary64 vectors the distance is
    symmetric. *)
Theorem cosineDistance_exact (a b : list R) (fa fb : list float) :
  length a = length b ->
  cosineDistance a b = cosineDistance b a
  /\ (magnitude a <> 0 -> cosineDistance a a = Ok 0)
  /\ (magnitude a = 0 -> cosineDistance a a = Ok 1)
  /\ (exists d, cosineDistance a b = Ok d /\ 0 <= d <= 2)
  /\ cosineDistance fa fb = cosineDistance fb fa.
Proof.
  intros Hlen. split_and!.
  - apply cosineDistance_sym. intros x y. apply Rmult_comm.
  - intros Hne. rewrite (cosineDistance_equal_length a a eq_refl).
    cbn [strict_eq sub div mul zero one exact_arithmetic Exact.number].
    apply Reqb_false in Hne as Hf. rewrite Hf. cbn [orb].
    rewrite <- (exact_magnitude_sqr a). f_equal. field. exact Hne.
  - apply exact_self_distance_zero_magnitude.
  - rewrite (cosineDistance_equal_length a b Hlen).
    cbn [strict_eq sub div mul zero one exact_arithmetic Exact.number].
    destruct (Exact.Reqb (magnitude a) 0) eqn:Ea;
      [cbn [orb]; eexists; split; [reflexivity|lra]|].
    destruct (Exact.Reqb (magnitude b) 0) eqn:Eb;
      [cbn [orb]; eexists; split; [reflexivity|lra]|].
    apply Reqb_false in Ea, Eb. cbn [orb].
    eexists; split; [reflexivity|].
    pose proof (exact_dot_bound a b) as [Hlo Hhi].
    pose proof (exact_magnitude_nonneg a).
    pose proof (exact_magnitude_nonneg b).
    assert (Hpos : 0 < magnitude a * magnitude b)
      by (apply Rmult_lt_0_compat; lra).
    assert (dot a b / (magnitude a * magnitude b) <= 1).
    { apply (Rmult_le_reg_r (magnitude a * magnitude b)); [exact Hpos|].
      unfold Rdiv. rewrite Rmult_assoc, Rinv_l; lra. }
    assert (-1 <= dot a b / (magnitude a * magnitude b)).
    { apply (Rmult_le_reg_r (magnitude a * magnitude b)); [exact Hpos|].
      unfold Rdiv. rewrite Rmult_assoc, Rinv_l; lra. }
    lra.
  - apply cosineDistance_sym. exact binary64_mul_comm.
Qed.

End ExactDistance.

(** ** Strings *)

Lemma append_cons (c : Ascii.ascii) (s t : string) :
  String c s +:+ t = String c (s +:+ t).
Proof. reflexivity. Qed.

Lemma append_nil (t : string) : "" +:+ t = t.
Proof. reflexivity. Qed.

Lemma prefix_append (t s : string) :
  String.prefix t s = true <-> exists post, s = t +:+ post.
Proof.
  revert s. induction t as [|c t IH]; intros s.
  - destruct s; simpl; (split; [intros _; eexists; reflexivity|reflexivity]).
  - destruct s as [|d s]; simpl.
    + split; [discriminate|].
      intros [post Hp]. rewrite append_cons in Hp. discriminate.
    + destruct (Ascii.ascii_dec c d) as [->|Hne].
      * rewrite IH. split; intros [post Hp]; exists post;
          rewrite append_cons in *; congruence.
      * split; [discriminate|].
        intros [post Hp]. rewrite append_cons in Hp. congruence.
Qed.

Lemma String_includes_unfold (s t : string) :
  String_includes s t =
  if String.prefix t s then true
  else match s with
       | EmptyString => false
       | String _ s' => String_includes s' t
       end.
Proof. destruct s; reflexivity. Qed.

(** [s.includes(t)] decides that [t] is a substring of [s]. *)
Lemma String_includes_spec (s t : string) :
  String_includes s t = true <-> is_substring t s.
Proof.
  unfold is_substring.
  induction s as [|c s IH]; rewrite String_includes_unfold.
  - destruct (String.prefix t "") eqn:Hp.
    + split; [intros _|reflexivity].
      apply prefix_append in Hp as [post Hp]. exists "", post. exact Hp.
    + split; [discriminate|].
      intros ([|d pre] & post & Hs);
        rewrite ?append_cons, ?append_nil in Hs.
      * assert (String.prefix t "" = true)
          by (apply prefix_append; exists post; exact Hs).
        congruence.
      * discriminate.
  - destruct (String.prefix t (String c s)) eqn:Hp.
    + split; [intros _|reflexivity].
      apply prefix_append in Hp as [post Hp]. exists "", post. exact Hp.
    + rewrite IH. split.
      * intros (pre & post & ->). exists (String c pre), post. reflexivity.
      * intros ([|d pre] & post & Hs);
          rewrite ?append_cons, ?append_nil in Hs.
        -- assert (String.prefix t (String c s) = true)
             by (apply prefix_append; exists post; exact Hs).
           congruence.
        -- exists pre, post. congruence.
Qed.

Lemma length_append (s t : string) :
  String.length (s +:+ t) = (String.length s + String.length t)%nat.
Proof.
  induction s as [|c s IH]; rewrite ?append_cons, ?append_nil; simpl;
    congruence.
Qed.

Lemma is_substring_length (t s : string) :
  is_substring t s -> (String.length t <= String.length s)%nat.
Proof. intros (pre & post & ->). rewrite !length_append. lia. Qed.

Lemma is_substring_middle (pre w post : string) :
  is_substring w (pre +:+ w +:+ post).
Proof. exists pre, post. reflexivity. Qed.

Lemma truthy_true (w : string) : truthy w = true <-> w <> "".
Proof.
  unfold truthy. destruct (String.eqb_spec w ""); simpl; split; congruence.
Qed.

(** ** The two loops of [findHint] *)

(** Two runs of one computation agree. *)
Ltac same_run H1 H2 := rewrite H1 in H2; simplify_eq.

Section Exclusions.
Context {num : Type} `{Number num}.
Import Puzzle.

(** The two exclusion tests of the loops, in the words of the
    specification. *)
Lemma repeats_false (gameState : GameState num) (w : string) :
  repeats gameState w = false <->
  w <> targetWord gameState /\ (w ∉ guessesHistory gameState)
  /\ (w ∉ usedHints gameState).
Proof.
  unfold repeats, Array_includes.
  rewrite !orb_false_iff, !bool_decide_eq_false.
  destruct (String.eqb_spec w (targetWord gameState)); split;
    intros H'; destruct_and?; split_and?; congruence.
Qed.

Lemma collides_false (gameState : GameState num) (w : string) :
  collides gameState w = false <->
  forall v, v ∈ wordsToCheck gameState -> ~ substring_collision w v.
Proof.
  unfold collides. rewrite <- not_true_iff_false, existsb_exists.
  split.
  - intros Hno v Hv [Hsub Hlen]. apply Hno. exists v.
    split; [apply list_elem_of_In; exact Hv|].
    apply orb_true_iff. destruct Hsub as [Hsub|Hsub].
    + left. apply andb_true_iff. split.
      * apply Nat.leb_le. lia.
      * apply String_includes_spec. exact Hsub.
    + right. apply andb_true_iff. split.
      * apply Nat.leb_le. lia.
      * apply String_includes_spec. exact Hsub.
  - intros Hno (v & Hv & Hc). apply (Hno v).
    { apply list_elem_of_In. exact Hv. }
    apply orb_true_iff in Hc.
    destruct Hc as [Hc|Hc]; apply andb_true_iff in Hc as [Hl Hi];
      apply Nat.leb_le in Hl; apply String_includes_spec in Hi;
      pose proof (is_substring_length _ _ Hi); split; auto; lia.
Qed.

Lemma valid_hint_checks (gameState : GameState num) (w : string) :
  valid_hint gameState w <->
  repeats gameState w = false /\ collides gameState w = false.
Proof.
  unfold valid_hint. rewrite repeats_false, collides_false. tauto.
Qed.

Lemma admissible_dec (this : PuzzleManager num) (gameState : GameState num)
    (idx : nat) (w : string) :
  hint_vocabulary (puzzleData this) !! idx = Some w ->
  (admissible this gameState idx w <->
   negb (truthy w) = false /\ repeats gameState w = false
   /\ collides gameState w = false).
Proof.
  intros Hw. unfold admissible. rewrite valid_hint_checks.
  rewrite negb_false_iff, truthy_true. tauto.
Qed.

Lemma admissible_inj (this : PuzzleManager num) (gameState : GameState num)
    (idx : nat) (w w' : string) :
  admissible this gameState idx w ->
  hint_vocabulary (puzzleData this) !! idx = Some w' -> w' = w.
Proof. intros [Hw _] Hw'. congruence. Qed.

Lemma admissible_valid (this : PuzzleManager num)
    (gameState : GameState num) (idx : nat) (w : string) :
  admissible this gameState idx w ->
  valid_hint gameState w /\ w ∈ hint_vocabulary (puzzleData this).
Proof.
  intros (Hw & _ & Hv). split; [exact Hv|].
  eapply list_elem_of_lookup_2. exact Hw.
Qed.

(** The fallback loop returns the first admissible entry of the list. *)
Lemma fallbackPass_Some (this : PuzzleManager num)
    (gameState : GameState num) (indices : list nat) (w : string) :
  fallbackPass this gameState indices = Some w <->
  exists pre idx post,
    indices = pre ++ idx :: post
    /\ admissible this gameState idx w
    /\ forall j w', j ∈ pre -> ~ admissible this gameState j w'.
Proof.
  induction indices as [|i rest IH]; simpl.
  - split; [discriminate|]. intros (pre & idx & post & Hl & _).
    destruct pre; discriminate.
  - destruct (hint_vocabulary (puzzleData this) !! i) as [hintWord|] eqn:Hi.
    + pose proof (admissible_dec this gameState i hintWord Hi) as Hdec.
      destruct (negb (truthy hintWord)) eqn:Ht;
        [|destruct (repeats gameState hintWord) eqn:Hr;
          [|destruct (collides gameState hintWord) eqn:Hc]].
      4:{ split.
          - intros [= <-]. exists [], i, rest. split_and!; [done|tauto|].
            intros j w' Hj. inversion Hj.
          - intros ([|j pre] & idx & post & Hl & Hadm & Hpre);
              simplify_eq/=.
            + f_equal. eapply admissible_inj; eauto.
            + exfalso. apply (Hpre j hintWord); [left|tauto]. }
      all: rewrite IH; split;
        [ intros (pre & idx & post & -> & Hadm & Hpre);
          exists (i :: pre), idx, post; split_and!; [done|done|];
          intros j w' Hj; apply elem_of_cons in Hj as [->|Hj];
          [ intros Hadm'; pose proof (admissible_inj _ _ _ _ _ Hadm' Hi);
            subst w'; apply Hdec in Hadm'; destruct_and!; congruence
          | eauto ]
        | intros ([|j pre] & idx & post & Hl & Hadm & Hpre); simplify_eq/=;
          [ pose proof (admissible_inj _ _ _ _ _ Hadm Hi); subst;
            apply Hdec in Hadm; destruct_and!; congruence
          | exists pre, idx, post; split_and!; [done|done|];
            intros j' w' Hj'; apply Hpre; right; done ] ].
    + rewrite IH; split.
      * intros (pre & idx & post & -> & Hadm & Hpre).
        exists (i :: pre), idx, post; split_and!; [done|done|].
        intros j w' Hj; apply elem_of_cons in Hj as [->|Hj]; [|eauto].
        intros [Hw' _]. congruence.
      * intros ([|j pre] & idx & post & Hl & Hadm & Hpre); simplify_eq/=.
        -- destruct Hadm as [Hw' _]. congruence.
        -- exists pre, idx, post; split_and!; [done|done|].
           intros j' w' Hj'; apply Hpre; right; done.
Qed.

Lemma fallbackPass_None (this : PuzzleManager num)
    (gameState : GameState num) (indices : list nat) :
  fallbackPass this gameState indices = None <->
  forall j w', j ∈ indices -> ~ admissible this gameState j w'.
Proof.
  induction indices as [|i rest IH]; simpl.
  - split; [|done]. intros _ j w' Hj. inversion Hj.
  - destruct (hint_vocabulary (puzzleData this) !! i) as [hintWord|] eqn:Hi.
    + pose proof (admissible_dec this gameState i hintWord Hi) as Hdec.
      destruct (negb (truthy hintWord)) eqn:Ht;
        [|destruct (repeats gameState hintWord) eqn:Hr;
          [|destruct (collides gameState hintWord) eqn:Hc]].
      4:{ split; [discriminate|]. intros Hno. exfalso.
          apply (Hno i hintWord); [left|tauto]. }
      all: rewrite IH; split;
        [ intros Hno j w' Hj; apply elem_of_cons in Hj as [->|Hj];
          [ intros Hadm'; pose proof (admissible_inj _ _ _ _ _ Hadm' Hi);
            subst w'; apply Hdec in Hadm'; destruct_and!; congruence
          | eauto ]
        | intros Hno j w' Hj; apply Hno; right; done ].
    + rewrite IH; split.
      * intros Hno j w' Hj; apply elem_of_cons in Hj as [->|Hj]; [|eauto].
        intros [Hw' _]. congruence.
      * intros Hno j w' Hj; apply Hno; right; done.
Qed.

(** The fallback loop never reads the table of embeddings. *)
Lemma fallbackPass_ignores_embeddings (this this' : PuzzleManager num)
    (gameState : GameState num) (indices : list nat) :
  hint_vocabulary (puzzleData this) = hint_vocabulary (puzzleData this') ->
  fallbackPass this gameState indices = fallbackPass this' gameState indices.
Proof.
  intros Hv. induction indices as [|i rest IH]; simpl; [reflexivity|].
  rewrite Hv, IH. reflexivity.
Qed.

End Exclusions.

Section FirstPass.
Context {num : Type} `{Number num}.
Local Open Scope js_scope.
Import Puzzle.

Variables (this : PuzzleManager num) (gameState : GameState num).
Variables (min_dist_from_target min_dist_from_guesses : num).
Variable allGuessesEmbeddings : list (list num).

Abbreviation turn :=
  (firstPass_turn this gameState min_dist_from_target min_dist_from_guesses
     allGuessesEmbeddings).
Abbreviation pass :=
  (firstPass this gameState min_dist_from_target min_dist_from_guesses
     allGuessesEmbeddings).
Abbreviation constrained_at :=
  (constrained this gameState min_dist_from_target min_dist_from_guesses
     allGuessesEmbeddings).

Lemma firstPass_cons (idx : nat) (rest : list nat) :
  pass (idx :: rest) =
  (found <- turn idx ;;
   match found with
   | Some hintWord => Ok (Some hintWord)
   | None => pass rest
   end).
Proof.
  unfold firstPass_turn. cbn [firstPass].
  destruct (hint_vocabulary (puzzleData this) !! idx) as [hintWord|];
    [|reflexivity].
  destruct (embedding_at (hint_embeddings (puzzleData this)) idx)
    as [hintEmbedding|]; [|reflexivity].
  destruct (negb (truthy hintWord)); [reflexivity|].
  destruct (repeats gameState hintWord); [reflexivity|].
  destruct (collides gameState hintWord); [reflexivity|].
  cbn [orb].
  destruct (cosineDistance (targetEmbedding gameState) hintEmbedding)
    as [distanceFromTarget|]; [|reflexivity].
  cbn [bind].
  destruct (mapM _ allGuessesEmbeddings) as [distancesFromGuesses|];
    [|reflexivity].
  cbn [bind].
  destruct (_ && _); reflexivity.
Qed.

Lemma firstPass_turn_Some (idx : nat) (w : string) :
  turn idx = Ok (Some w) <-> constrained_at idx w.
Proof.
  unfold firstPass_turn, constrained.
  destruct (hint_vocabulary (puzzleData this) !! idx) as [hintWord|] eqn:Hw.
  2:{ split; [discriminate|]. intros [[Hv _] _]. congruence. }
  destruct (embedding_at (hint_embeddings (puzzleData this)) idx)
    as [hintEmbedding|] eqn:He.
  2:{ split; [discriminate|]. intros [_ (? & ? & ? & ? & _)]. congruence. }
  pose proof (admissible_dec this gameState idx hintWord Hw) as Hdec.
  destruct (negb (truthy hintWord)) eqn:Ht;
    [|destruct (repeats gameState hintWord) eqn:Hr;
      [|destruct (collides gameState hintWord) eqn:Hc]]; cbn [orb].
  1-3: split; [discriminate|]; intros [Hadm _];
    pose proof (admissible_inj _ _ _ _ _ Hadm Hw); subst;
    apply Hdec in Hadm; destruct_and!; congruence.
  destruct (cosineDistance (targetEmbedding gameState) hintEmbedding)
    as [dT|] eqn:HdT; cbn [bind].
  2:{ split; [discriminate|].
      intros [_ (? & ? & ? & ? & HdT' & _)]. simplify_eq.
      same_run HdT HdT'. }
  destruct (mapM _ allGuessesEmbeddings) as [ds|] eqn:Hds; cbn [bind].
  2:{ split; [discriminate|].
      intros [_ (? & ? & ? & ? & ? & Hds' & _)]. simplify_eq.
      same_run Hds Hds'. }
  destruct (dT >= min_dist_from_target) eqn:HgeT; cbn [andb].
  2:{ split; [discriminate|].
      intros [_ (? & ? & ? & ? & HdT' & ? & HgeT' & _)]. simplify_eq.
      same_run HdT HdT'. same_run HgeT HgeT'. }
  destruct (forallb _ ds) eqn:Hall.
  - split.
    + intros [= <-]. split; [apply Hdec; done|].
      exists hintEmbedding, dT, ds. split_and!; try done.
      apply Forall_forall. intros d Hd.
      rewrite forallb_forall in Hall. apply Hall.
      apply list_elem_of_In. exact Hd.
    + intros [Hadm _]. f_equal. f_equal. eapply admissible_inj; eauto.
  - split; [discriminate|].
    intros [_ (he' & d' & ds' & ? & ? & Hds' & ? & Hall')].
    simplify_eq. same_run Hds Hds'.
    rewrite <- not_true_iff_false in Hall. exfalso. apply Hall.
    apply forallb_forall. intros x Hx.
    rewrite Forall_forall in Hall'. apply Hall'.
    apply list_elem_of_In. exact Hx.
Qed.

(** The first loop returns the first entry of the list that is admissible
    and keeps the distances. *)
Lemma firstPass_Some (indices : list nat) (w : string) :
  pass indices = Ok (Some w) ->
  exists pre idx post,
    indices = pre ++ idx :: post
    /\ constrained_at idx w
    /\ forall j w', j ∈ pre -> ~ constrained_at j w'.
Proof.
  induction indices as [|i rest IH]; [discriminate|].
  rewrite firstPass_cons.
  destruct (turn i) as [[w0|]|] eqn:Hturn; cbn [bind];
    [| |discriminate].
  - intros [= <-]. exists [], i, rest. split_and!; [done| |].
    + apply firstPass_turn_Some. exact Hturn.
    + intros j w' Hj. inversion Hj.
  - intros Hrest. destruct (IH Hrest) as (pre & idx & post & -> & Hc & Hpre).
    exists (i :: pre), idx, post. split_and!; [done|done|].
    intros j w' Hj. apply elem_of_cons in Hj as [->|Hj]; [|eauto].
    intros Hc'. apply firstPass_turn_Some in Hc'. congruence.
Qed.

Lemma firstPass_None (indices : list nat) :
  pass indices = Ok None ->
  forall j w', j ∈ indices -> ~ constrained_at j w'.
Proof.
  induction indices as [|i rest IH]; [intros _ j w' Hj; inversion Hj|].
  rewrite firstPass_cons.
  destruct (turn i) as [[w0|]|] eqn:Hturn; cbn [bind];
    [discriminate| |discriminate].
  intros Hrest j w' Hj. apply elem_of_cons in Hj as [->|Hj]; [|eauto].
  intros Hc'. apply firstPass_turn_Some in Hc'. congruence.
Qed.

(** With vectors of one dimension no distance raises, and the loop ends
    normally. *)
Lemma mapM_cosineDistance_Ok (e : list num) (embs : list (list num)) :
  Forall (fun emb => length emb = length e) embs ->
  exists ds, mapM (fun emb => cosineDistance emb e) embs = Ok ds.
Proof.
  induction 1 as [|emb embs Hemb _ [ds IH]]; simpl; [eauto|].
  destruct (cosineDistance_Ok emb e Hemb) as [d ->]. simpl.
  rewrite IH. simpl. eauto.
Qed.

Lemma firstPass_total (dim : nat) (indices : list nat) :
  (forall idx e,
      embedding_at (hint_embeddings (puzzleData this)) idx = Some e ->
      length e = dim) ->
  length (targetEmbedding gameState) = dim ->
  Forall (fun emb => length emb = dim) allGuessesEmbeddings ->
  exists found, pass indices = Ok found.
Proof.
  intros Hslots Htarget Hguesses.
  induction indices as [|i rest [found IH]]; [simpl; eauto|].
  rewrite firstPass_cons, IH.
  assert (Hturn : exists r, turn i = Ok r).
  { unfold firstPass_turn.
    destruct (hint_vocabulary (puzzleData this) !! i); [|eauto].
    destruct (embedding_at (hint_embeddings (puzzleData this)) i)
      as [e|] eqn:He; [|eauto].
    destruct (_ || _); [eauto|].
    apply Hslots in He.
    destruct (cosineDistance_Ok (targetEmbedding gameState) e) as [d ->];
      [congruence|].
    destruct (mapM_cosineDistance_Ok e allGuessesEmbeddings) as [ds ->].
    { eapply Forall_impl; [exact Hguesses|]. simpl. congruence. }
    simpl. eauto. }
  destruct Hturn as [[w|] ->]; simpl; eauto.
Qed.

End FirstPass.

(** ** The sort *)

Section Sorting.
Context {num : Type} `{Number num}.
Variable comparefn : nat -> nat -> option num.

Abbreviation after := (sorts_after comparefn).

Lemma consistent_asym (l : list nat) (i j : nat) :
  consistent_on comparefn l -> i ∈ l -> j ∈ l ->
  after i j = true -> after j i = false.
Proof.
  unfold consistent_on, consistentb. rewrite forallb_forall.
  intros Hc Hi Hj Hij. apply list_elem_of_In in Hi, Hj.
  specialize (Hc i Hi). rewrite forallb_forall in Hc.
  specialize (Hc j Hj). apply andb_true_iff in Hc as [Hc _].
  rewrite Hij in Hc. simpl in Hc. apply negb_true_iff in Hc. exact Hc.
Qed.

Lemma consistent_trans (l : list nat) (i j k : nat) :
  consistent_on comparefn l -> i ∈ l -> j ∈ l -> k ∈ l ->
  after i j = false -> after j k = false -> after i k = false.
Proof.
  unfold consistent_on, consistentb. rewrite forallb_forall.
  intros Hc Hi Hj Hk Hij Hjk. apply list_elem_of_In in Hi, Hj, Hk.
  specialize (Hc i Hi). rewrite forallb_forall in Hc.
  specialize (Hc j Hj). apply andb_true_iff in Hc as [_ Hc].
  rewrite forallb_forall in Hc. specialize (Hc k Hk).
  rewrite Hij, Hjk in Hc. simpl in Hc. apply negb_true_iff in Hc. exact Hc.
Qed.

Lemma sort_insert_perm (a : nat) (l : list nat) :
  sort_insert comparefn a l ≡ₚ a :: l.
Proof.
  induction l as [|b l IH]; simpl; [reflexivity|].
  destruct (after a b); [|reflexivity].
  rewrite IH. apply Permutation_swap.
Qed.

(** Whatever the comparator, the sort permutes its input. *)
Lemma Array_sort_perm (l : list nat) : Array_sort comparefn l ≡ₚ l.
Proof.
  unfold Array_sort. induction l as [|a l IH]; simpl; [reflexivity|].
  rewrite sort_insert_perm, IH. reflexivity.
Qed.

Lemma sort_insert_sorted (universe : list nat) (a : nat) (l : list nat) :
  consistent_on comparefn universe -> a ∈ universe -> l ⊆ universe ->
  Forall (fun x => a < x) l ->
  StronglySorted (ranked comparefn) l ->
  StronglySorted (ranked comparefn) (sort_insert comparefn a l).
Proof.
  intros Hc Ha. induction l as [|b l IH]; intros Hsub Hlt Hs; simpl.
  - constructor; constructor.
  - apply StronglySorted_inv in Hs as [Hs Hb].
    apply Forall_cons in Hlt as [Hab Hlt].
    assert (Hbu : b ∈ universe) by (apply Hsub; left).
    assert (Hlu : l ⊆ universe) by (intros x Hx; apply Hsub; right; exact Hx).
    rewrite Forall_forall in Hb.
    destruct (after a b) eqn:Hafter.
    + constructor; [apply IH; assumption|].
      apply Forall_forall. intros x Hx.
      rewrite sort_insert_perm in Hx.
      apply elem_of_cons in Hx as [->|Hx]; [|auto].
      split; [eapply consistent_asym; eauto|].
      intros Hba. congruence.
    + constructor; [constructor; [assumption|apply Forall_forall; assumption]|].
      constructor; [split; [exact Hafter|intros _; exact Hab]|].
      apply Forall_forall. intros x Hx.
      rewrite Forall_forall in Hlt. specialize (Hlt x Hx).
      destruct (Hb x Hx) as [Hbx _].
      split; [|intros _; exact Hlt].
      eapply (consistent_trans universe a b x); eauto.
Qed.

(** On increasing indices and a consistent comparator the sort returns the
    indices by ascending score, ties in index order. *)
Lemma Array_sort_sorted (l : list nat) :
  consistent_on comparefn l -> StronglySorted Nat.lt l ->
  StronglySorted (ranked comparefn) (Array_sort comparefn l).
Proof.
  intros Hc. unfold Array_sort.
  assert (Hgen : forall l', l' ⊆ l -> StronglySorted Nat.lt l' ->
            StronglySorted (ranked comparefn)
              (foldr (sort_insert comparefn) [] l')).
  { induction l' as [|a l' IH]; intros Hsub Hs; simpl; [constructor|].
    apply StronglySorted_inv in Hs as [Hs Ha].
    assert (Hl'u : l' ⊆ l) by (intros x Hx; apply Hsub; right; exact Hx).
    rewrite Forall_forall in Ha.
    apply (sort_insert_sorted l); auto.
    - apply Hsub. left.
    - intros x Hx. apply Hl'u.
      fold (Array_sort comparefn l') in Hx.
      rewrite Array_sort_perm in Hx. exact Hx.
    - apply Forall_forall. intros x Hx. apply Ha.
      fold (Array_sort comparefn l') in Hx.
      rewrite Array_sort_perm in Hx. exact Hx. }
  apply Hgen. done.
Qed.

Lemma StronglySorted_seq (start len : nat) :
  StronglySorted Nat.lt (seq start len).
Proof.
  revert start. induction len as [|len IH]; intros start; simpl;
    constructor; [apply IH|].
  apply Forall_forall. intros x Hx. apply elem_of_seq in Hx. lia.
Qed.

(** In a sorted list, an element is ranked before every later element. *)
Lemma StronglySorted_app_ranked (pre post : list nat) (idx j : nat) :
  StronglySorted (ranked comparefn) (pre ++ idx :: post) ->
  j ∈ post -> ranked comparefn idx j.
Proof.
  intros Hs Hj. induction pre as [|p pre IH]; simpl in Hs.
  - apply StronglySorted_inv in Hs as [_ Hall].
    rewrite Forall_forall in Hall. apply Hall. exact Hj.
  - apply StronglySorted_inv in Hs as [Hs _]. auto.
Qed.

(** An element found first in a sorted list comes before (or is) every
    element of the list that passes the same test. *)
Lemma first_is_least (P : nat -> Prop) (pre post : list nat) (idx j : nat) :
  StronglySorted (ranked comparefn) (pre ++ idx :: post) ->
  (forall i, i ∈ pre -> ~ P i) ->
  j ∈ pre ++ idx :: post -> P j ->
  j = idx \/ ranked comparefn idx j.
Proof.
  intros Hs Hpre Hj HP.
  apply elem_of_app in Hj as [Hj|Hj]; [exfalso; eapply Hpre; eauto|].
  apply elem_of_cons in Hj as [->|Hj]; [left; reflexivity|right].
  eapply StronglySorted_app_ranked; eauto.
Qed.

End Sorting.

(** ** [findHint] *)

Section HintFacts.
Context {num : Type} `{Number num}.
Local Open Scope js_scope.
Import Puzzle.

Lemma embedding_at_Some (slots : list (slot num)) (i : nat) (e : list num) :
  embedding_at slots i = Some e <-> slots !! i = Some (Embedding e).
Proof.
  unfold embedding_at. destruct (slots !! i) as [[| |e']|]; split; congruence.
Qed.

Lemma embedding_at_dim (dim : nat) (table : PuzzleData num)
    (gameState : GameState num) (i : nat) (e : list num) :
  uniform_dimension dim table gameState ->
  embedding_at (hint_embeddings table) i = Some e -> length e = dim.
Proof.
  intros [Hall _] He. apply embedding_at_Some in He.
  rewrite Forall_forall in Hall.
  apply (Hall (Embedding e)). eapply list_elem_of_lookup_2. exact He.
Qed.

(** The map built by the constructor holds only vectors of the table, under
    non-empty words. *)
Lemma constructor_loop_lookup (table : PuzzleData num) (w : string)
    (e : list num) :
  constructor_loop table !! w = Some e ->
  exists i, hint_vocabulary table !! i = Some w
            /\ embedding_at (hint_embeddings table) i = Some e
            /\ w <> "".
Proof.
  unfold constructor_loop.
  generalize (seq 0 (length (hint_vocabulary table))).
  intros l.
  assert (Hgen : forall (m : gmap string (list num)),
    (forall w e, m !! w = Some e ->
       exists i, hint_vocabulary table !! i = Some w
            /\ embedding_at (hint_embeddings table) i = Some e
            /\ w <> "") ->
    forall w e,
      fold_left
        (fun wordToEmbedding i =>
           match hint_vocabulary table !! i,
                 embedding_at (hint_embeddings table) i with
           | Some word, Some embedding =>
               if truthy word
               then <[word := embedding]> wordToEmbedding
               else wordToEmbedding
           | _, _ => wordToEmbedding
           end) l m !! w = Some e ->
      exists i, hint_vocabulary table !! i = Some w
            /\ embedding_at (hint_embeddings table) i = Some e
            /\ w <> "").
  { induction l as [|i l IH]; intros m Hm w' e'; simpl; [apply Hm|].
    apply IH. clear w' e'. intros w' e'.
    destruct (hint_vocabulary table !! i) as [word|] eqn:Hw;
      [|apply Hm].
    destruct (embedding_at (hint_embeddings table) i)
      as [embedding|] eqn:He; [|apply Hm].
    destruct (truthy word) eqn:Ht; [|apply Hm].
    rewrite lookup_insert. case_decide as Heq; [|apply Hm].
    intros [= <-]. subst w'. exists i. split_and!; try done.
    apply truthy_true. exact Ht. }
  apply Hgen. intros w' e'. rewrite lookup_empty. discriminate.
Qed.

Lemma getEmbedding_dim (dim : nat) (table : PuzzleData num)
    (gameState : GameState num) (w : string) (e : list num) :
  uniform_dimension dim table gameState ->
  getEmbedding (new_PuzzleManager table) w = Some e -> length e = dim.
Proof.
  intros Hu Hw. apply constructor_loop_lookup in Hw as (i & _ & He & _).
  eapply embedding_at_dim; eauto.
Qed.

(** The scores: one per slot, the sum of the two distances. *)
Lemma map_slots_scores (guessEmbedding targetEmbedding : list num)
    (slots : list (slot num)) (scores : list (option num)) :
  map_slots (collinearityScore guessEmbedding targetEmbedding) slots
    = Ok scores ->
  Forall2 (score_of guessEmbedding targetEmbedding) slots scores.
Proof.
  revert scores. induction slots as [|s slots IH]; intros scores; simpl.
  - intros [= <-]. constructor.
  - destruct s as [| |e]; simpl; [|discriminate|].
    + destruct (map_slots _ slots) as [scores'|]; simpl; [|discriminate].
      intros [= <-]. constructor; [reflexivity|auto].
    + unfold collinearityScore at 1.
      destruct (cosineDistance guessEmbedding e) as [d1|] eqn:H1;
        simpl; [|discriminate].
      destruct (cosineDistance targetEmbedding e) as [d2|] eqn:H2;
        simpl; [|discriminate].
      destruct (map_slots _ slots) as [scores'|]; simpl; [|discriminate].
      intros [= <-]. constructor; [|auto].
      simpl. eauto.
Qed.

Lemma map_slots_total (dim : nat) (guessEmbedding targetEmbedding : list num)
    (slots : list (slot num)) :
  Forall (fun s => match s with
                   | Embedding e => length e = dim
                   | Hole => True
                   | Null => False
                   end) slots ->
  length guessEmbedding = dim -> length targetEmbedding = dim ->
  exists scores,
    map_slots (collinearityScore guessEmbedding targetEmbedding) slots
      = Ok scores.
Proof.
  intros Hall Hg Ht. induction Hall as [|s slots Hs _ [scores IH]]; simpl.
  - eauto.
  - rewrite IH. destruct s as [| |e]; simpl; [eauto|contradiction|].
    unfold collinearityScore.
    destruct (cosineDistance_Ok guessEmbedding e) as [d1 ->]; [congruence|].
    destruct (cosineDistance_Ok targetEmbedding e) as [d2 ->]; [congruence|].
    simpl. eauto.
Qed.

(** The ranking holds every index of the table once. *)
Lemma rankIndices_perm (this : PuzzleManager num) (guessEmbedding : list num)
    (gameState : GameState num) (ranking : list nat) :
  rankIndices this guessEmbedding gameState = Ok ranking ->
  ranking ≡ₚ seq 0 (length (hint_embeddings (puzzleData this))).
Proof.
  unfold rankIndices.
  destruct (map_slots _ _) as [scores|] eqn:Hs; simpl; [|discriminate].
  intros [= <-]. unfold sortedIndices. rewrite Array_sort_perm.
  apply map_slots_scores in Hs. apply Forall2_length in Hs.
  rewrite Hs. reflexivity.
Qed.

(** The ways [findHint] returns. *)
Lemma findHint_cases (this : PuzzleManager num) (guess : string)
    (gameState : GameState num) (guessEmbedding : list num) (w : string) :
  getEmbedding this guess = Some guessEmbedding ->
  findHint this guess gameState = Ok w ->
  exists ranking,
    rankIndices this guessEmbedding gameState = Ok ranking
    /\ (firstLoop this guessEmbedding gameState ranking = Ok (Some w)
        \/ (firstLoop this guessEmbedding gameState ranking = Ok None
            /\ fallbackPass this gameState ranking = Some w)
        \/ (firstLoop this guessEmbedding gameState ranking = Ok None
            /\ fallbackPass this gameState ranking = None
            /\ w = "unknown")).
Proof.
  intros Hg. unfold findHint. rewrite Hg.
  destruct (rankIndices this guessEmbedding gameState) as [ranking|];
    simpl; [|discriminate].
  destruct (firstLoop this guessEmbedding gameState ranking)
    as [[w'|]|] eqn:Hfl; simpl; [| |discriminate].
  - intros [= <-]. exists ranking. split; [reflexivity|]. left. exact Hfl.
  - destruct (fallbackPass this gameState ranking) as [w'|] eqn:Hf.
    + intros [= <-]. exists ranking. split; [reflexivity|].
      right. left. split; [exact Hfl|exact Hf].
    + intros [= <-]. exists ranking. split; [reflexivity|].
      right. right. split_and!; [exact Hfl|exact Hf|reflexivity].
Qed.

Lemma firstLoop_Some (this : PuzzleManager num) (guessEmbedding : list num)
    (gameState : GameState num) (ranking : list nat) (w : string) :
  firstLoop this guessEmbedding gameState ranking = Ok (Some w) ->
  exists pre idx post,
    ranking = pre ++ idx :: post
    /\ constrained_candidate this guessEmbedding gameState idx w
    /\ forall j w', j ∈ pre ->
         ~ constrained_candidate this guessEmbedding gameState j w'.
Proof.
  unfold firstLoop, constrained_candidate.
  destruct (cosineDistance guessEmbedding (targetEmbedding gameState))
    as [D|]; simpl; [|discriminate].
  intros Hp. apply firstPass_Some in Hp as (pre & idx & post & -> & Hc & Hn).
  exists pre, idx, post. split_and!; [done|eauto|].
  intros j w' Hj (D' & [= <-] & Hc'). eapply Hn; eauto.
Qed.

Lemma firstLoop_None (this : PuzzleManager num) (guessEmbedding : list num)
    (gameState : GameState num) (ranking : list nat) :
  firstLoop this guessEmbedding gameState ranking = Ok None ->
  forall j w', j ∈ ranking ->
    ~ constrained_candidate this guessEmbedding gameState j w'.
Proof.
  unfold firstLoop, constrained_candidate.
  destruct (cosineDistance guessEmbedding (targetEmbedding gameState))
    as [D|]; simpl; [|discriminate].
  intros Hp j w' Hj (D' & [= <-] & Hc').
  eapply firstPass_None; eauto.
Qed.

Lemma constrained_candidate_in_range (this : PuzzleManager num)
    (guessEmbedding : list num) (gameState : GameState num)
    (idx : nat) (w : string) :
  constrained_candidate this guessEmbedding gameState idx w ->
  (idx < length (hint_embeddings (puzzleData this)))%nat.
Proof.
  intros (D & _ & _ & e & _ & _ & He & _).
  apply embedding_at_Some in He. eapply lookup_lt_Some. exact He.
Qed.

(** Under [uniform_dimension] nothing raises: the ranking exists and the
    first loop ends normally. *)
Lemma findHint_runs (table : PuzzleData num) (guess : string)
    (gameState : GameState num) (dim : nat) (guessEmbedding : list num) :
  let this := new_PuzzleManager table in
  uniform_dimension dim table gameState ->
  getEmbedding this guess = Some guessEmbedding ->
  exists scores found,
    map_slots (collinearityScore guessEmbedding (targetEmbedding gameState))
      (hint_embeddings table) = Ok scores
    /\ rankIndices this guessEmbedding gameState
       = Ok (sortedIndices scores)
    /\ firstLoop this guessEmbedding gameState (sortedIndices scores)
       = Ok found.
Proof.
  intros this Hu Hg.
  pose proof (getEmbedding_dim _ _ _ _ _ Hu Hg) as Hgd.
  destruct Hu as [Hslots Htarget].
  destruct (map_slots_total dim guessEmbedding (targetEmbedding gameState)
              (hint_embeddings table) Hslots Hgd Htarget)
    as [scores Hscores].
  exists scores.
  assert (Hrank : rankIndices this guessEmbedding gameState
                  = Ok (sortedIndices scores)).
  { unfold rankIndices. simpl. rewrite Hscores. reflexivity. }
  unfold firstLoop.
  destruct (cosineDistance_Ok guessEmbedding (targetEmbedding gameState))
    as [D HD]; [congruence|].
  rewrite HD. simpl.
  destruct (firstPass_total this gameState (lit_0_33 * D) (lit_0_5 * D)
              (omap (getEmbedding this) (guessesHistory gameState))
              dim (sortedIndices scores)) as [found Hfound].
  - intros idx e He. eapply embedding_at_dim; [split; eauto|exact He].
  - exact Htarget.
  - apply Forall_forall. intros emb Hemb.
    apply list_elem_of_omap in Hemb as (g & _ & Hge).
    eapply getEmbedding_dim; [split; eauto|exact Hge].
  - exists found. split_and!; [exact Hscores|exact Hrank|exact Hfound].
Qed.

(** C2, as amended: the word [findHint] returns is the last resort
    ["unknown"], or a word of the vocabulary that is not the target, not a
    past guess, not a past hint, and has no substring collision with any of
    those. *)
Theorem findHint_valid_or_sentinel (this : PuzzleManager num)
    (guess : string) (gameState : GameState num) (w : string) :
  findHint this guess gameState = Ok w ->
  w = "unknown"
  \/ (w ∈ hint_vocabulary (puzzleData this)
      /\ w <> targetWord gameState
      /\ (w ∉ guessesHistory gameState)
      /\ (w ∉ usedHints gameState)
      /\ forall v,
           v = targetWord gameState \/ v ∈ guessesHistory gameState
           \/ v ∈ usedHints gameState ->
           ~ substring_collision w v).
Proof.
  intros Hf.
  assert (Hgoal : w = "unknown"
            \/ (valid_hint gameState w
                /\ w ∈ hint_vocabulary (puzzleData this))).
  { destruct (getEmbedding this guess) as [guessEmbedding|] eqn:Hg.
    - destruct (findHint_cases _ _ _ _ _ Hg Hf)
        as (ranking & _ & [Hfirst|[[_ Hfb]|(_ & _ & ->)]]).
      + apply firstLoop_Some in Hfirst
          as (pre & idx & post & _ & (D & _ & Hc) & _).
        right. destruct Hc as [Ha _]. eapply admissible_valid, Ha.
      + apply fallbackPass_Some in Hfb as (pre & idx & post & _ & Ha & _).
        right. eapply admissible_valid, Ha.
      + left. reflexivity.
    - unfold findHint in Hf. rewrite Hg in Hf. left. congruence. }
  destruct Hgoal as [->|[(Ht & Hh & Hu & Hs) Hin]]; [left; reflexivity|].
  right. split_and!; try done.
  intros v Hv. apply Hs. unfold wordsToCheck.
  rewrite elem_of_cons, elem_of_app. exact Hv.
Qed.

(** C3: when some word of the vocabulary passes the identity, history and
    substring checks and its embedding keeps the distance [0.33 * D] from
    the target and [0.5 * D] from every past guess, the first loop returns a
    word of that kind and [findHint] answers it: the fallback loop is not
    entered. *)
Theorem findHint_prefers_constrained (table : PuzzleData num)
    (guess : string) (gameState : GameState num) (dim : nat)
    (guessEmbedding : list num) :
  let this := new_PuzzleManager table in
  uniform_dimension dim table gameState ->
  getEmbedding this guess = Some guessEmbedding ->
  (exists idx w,
      constrained_candidate this guessEmbedding gameState idx w) ->
  exists ranking idx' w',
    rankIndices this guessEmbedding gameState = Ok ranking
    /\ firstLoop this guessEmbedding gameState ranking = Ok (Some w')
    /\ findHint this guess gameState = Ok w'
    /\ constrained_candidate this guessEmbedding gameState idx' w'.
Proof.
  intros this Hu Hg (idx & w & Hcand).
  destruct (findHint_runs table guess gameState dim guessEmbedding
              Hu Hg) as (scores & found & Hscores & Hrank & Hloop).
  fold this in Hrank, Hloop.
  destruct found as [w'|].
  - destruct (firstLoop_Some _ _ _ _ _ Hloop)
      as (pre & idx' & post & _ & Hc' & _).
    exists (sortedIndices scores), idx', w'. split_and!; try done.
    unfold findHint. rewrite Hg, Hrank. simpl. rewrite Hloop. reflexivity.
  - exfalso. eapply (firstLoop_None _ _ _ _ Hloop idx w); [|exact Hcand].
    rewrite (rankIndices_perm _ _ _ _ Hrank).
    apply elem_of_seq.
    pose proof (constrained_candidate_in_range _ _ _ _ _ Hcand). lia.
Qed.

(** The ranking and the answer in terms of the comparator: the ranking is
    sorted by "does not sort after", and [findHint] answers the first entry
    that passes the checks of the loop that returns it. *)
Lemma findHint_ranking_by_comparator (table : PuzzleData num)
    (guess : string)
    (gameState : GameState num) (dim : nat) (guessEmbedding : list num) :
  let this := new_PuzzleManager table in
  let n := length (hint_embeddings table) in
  uniform_dimension dim table gameState ->
  getEmbedding this guess = Some guessEmbedding ->
  (forall scores,
      map_slots (collinearityScore guessEmbedding (targetEmbedding gameState))
        (hint_embeddings table) = Ok scores ->
      consistent_on (comparefn scores) (seq 0 (length scores))) ->
  exists scores ranking w,
    map_slots (collinearityScore guessEmbedding (targetEmbedding gameState))
      (hint_embeddings table) = Ok scores
    /\ Forall2 (score_of guessEmbedding (targetEmbedding gameState))
         (hint_embeddings table) scores
    /\ rankIndices this guessEmbedding gameState = Ok ranking
    /\ ranking ≡ₚ seq 0 n
    /\ StronglySorted (ranked (comparefn scores)) ranking
    /\ findHint this guess gameState = Ok w
    /\ ((exists pre idx post,
            ranking = pre ++ idx :: post
            /\ constrained_candidate this guessEmbedding gameState idx w
            /\ (forall j w', j ∈ pre ->
                  ~ constrained_candidate this guessEmbedding gameState j w')
            /\ (forall j w',
                  constrained_candidate this guessEmbedding gameState j w' ->
                  j = idx \/ ranked (comparefn scores) idx j))
        \/ ((forall j w',
                ~ constrained_candidate this guessEmbedding gameState j w')
            /\ exists pre idx post,
                ranking = pre ++ idx :: post
                /\ admissible this gameState idx w
                /\ (forall j w', j ∈ pre -> ~ admissible this gameState j w')
                /\ (forall j w',
                      (j < n)%nat -> admissible this gameState j w' ->
                      j = idx \/ ranked (comparefn scores) idx j))
        \/ ((forall j w', (j < n)%nat -> ~ admissible this gameState j w')
            /\ w = "unknown")).
Proof.
  intros this n Hu Hg Hcons.
  destruct (findHint_runs table guess gameState dim guessEmbedding
              Hu Hg) as (scores & found & Hscores & Hrank & Hloop).
  fold this in Hrank, Hloop.
  specialize (Hcons scores Hscores).
  pose proof (rankIndices_perm _ _ _ _ Hrank) as Hperm.
  change (length (hint_embeddings (puzzleData this))) with n in Hperm.
  assert (Hsorted : StronglySorted (ranked (comparefn scores))
                      (sortedIndices scores)).
  { apply Array_sort_sorted; [exact Hcons|apply StronglySorted_seq]. }
  assert (Hin : forall j, (j < n)%nat -> j ∈ sortedIndices scores).
  { intros j Hj. rewrite Hperm. apply elem_of_seq. lia. }
  assert (Hnone : found = None -> forall j w',
            ~ constrained_candidate this guessEmbedding gameState j w').
  { intros -> j w' Hc.
    eapply (firstLoop_None _ _ _ _ Hloop j w'); [|exact Hc].
    apply Hin. exact (constrained_candidate_in_range _ _ _ _ _ Hc). }
  exists scores, (sortedIndices scores).
  destruct found as [w|].
  - exists w. split_and!; try done.
    { apply map_slots_scores. exact Hscores. }
    { unfold findHint. rewrite Hg, Hrank. simpl. rewrite Hloop. reflexivity. }
    left.
    destruct (firstLoop_Some _ _ _ _ _ Hloop)
      as (pre & idx & post & Heq & Hc & Hpre).
    exists pre, idx, post. split_and!; try done.
    intros j w' Hc'.
    eapply (first_is_least (comparefn scores)
              (fun j => exists w', constrained_candidate this guessEmbedding
                                     gameState j w')).
    + rewrite <- Heq. exact Hsorted.
    + intros i Hi [w'' Hw'']. eapply Hpre; eauto.
    + rewrite <- Heq. apply Hin.
      exact (constrained_candidate_in_range _ _ _ _ _ Hc').
    + eauto.
  - specialize (Hnone eq_refl).
    destruct (fallbackPass this gameState (sortedIndices scores))
      as [w|] eqn:Hfb.
    + exists w. split_and!; try done.
      { apply map_slots_scores. exact Hscores. }
      { unfold findHint. rewrite Hg, Hrank. simpl. rewrite Hloop, Hfb.
        reflexivity. }
      right. left. split; [exact Hnone|].
      apply fallbackPass_Some in Hfb as (pre & idx & post & Heq & Ha & Hpre).
      exists pre, idx, post. split_and!; try done.
      intros j w' Hj Ha'.
      eapply (first_is_least (comparefn scores)
                (fun j => exists w', admissible this gameState j w')).
      * rewrite <- Heq. exact Hsorted.
      * intros i Hi [w'' Hw'']. eapply Hpre; eauto.
      * rewrite <- Heq. apply Hin. exact Hj.
      * eauto.
    + exists "unknown". split_and!; try done.
      { apply map_slots_scores. exact Hscores. }
      { unfold findHint. rewrite Hg, Hrank. simpl. rewrite Hloop, Hfb.
        reflexivity. }
      right. right. split; [|reflexivity].
      intros j w' Hj. eapply fallbackPass_None; [exact Hfb|].
      apply Hin. exact Hj.
Qed.

(** With scores that the differences order, "ranked by the comparator" is
    "ascending by the scores". *)
Lemma ranked_ascending (scores : list (option num)) (i j : nat) :
  differences_tell_order scores ->
  (i < length scores)%nat -> (j < length scores)%nat ->
  ranked (comparefn scores) i j -> ascending scores i j.
Proof.
  intros Hd Hi Hj [Hij Htie].
  destruct (lookup_lt_is_Some_2 scores i Hi) as [s Hs].
  destruct (lookup_lt_is_Some_2 scores j Hj) as [t Ht].
  unfold differences_tell_order, differences_tell_orderb in Hd.
  rewrite forallb_forall in Hd.
  pose proof (Hd s (proj1 (list_elem_of_In _ _)
                      (list_elem_of_lookup_2 _ _ _ Hs))) as Hds.
  pose proof (Hd t (proj1 (list_elem_of_In _ _)
                      (list_elem_of_lookup_2 _ _ _ Ht))) as Hdt.
  rewrite forallb_forall in Hds, Hdt.
  pose proof (Hds t (proj1 (list_elem_of_In _ _)
                       (list_elem_of_lookup_2 _ _ _ Ht))) as Hst.
  pose proof (Hdt s (proj1 (list_elem_of_In _ _)
                       (list_elem_of_lookup_2 _ _ _ Hs))) as Hts.
  destruct s as [x|]; [|discriminate]. destruct t as [y|]; [|discriminate].
  apply Bool.eqb_prop in Hst, Hts.
  unfold sorts_after, comparefn in Hij, Htie.
  rewrite Hs, Ht in Hij, Htie. cbn [mjoin option_join] in Hij, Htie.
  rewrite Hst in Hij. rewrite Hts in Htie.
  exists x, y. split_and!; [exact Hs|exact Ht| |].
  - apply negb_false_iff. exact Hij.
  - intros Hxy. apply Htie. rewrite Hxy. reflexivity.
Qed.

Lemma StronglySorted_ascending (scores : list (option num))
    (ranking : list nat) :
  differences_tell_order scores ->
  (forall i, i ∈ ranking -> (i < length scores)%nat) ->
  StronglySorted (ranked (comparefn scores)) ranking ->
  StronglySorted (ascending scores) ranking.
Proof.
  intros Hd Hin Hs.
  induction Hs as [|i ranking Hs IH Hall]; constructor.
  - apply IH. intros j Hj. apply Hin. right. exact Hj.
  - rewrite Forall_forall in Hall |- *. intros j Hj.
    apply ranked_ascending; [exact Hd| | |exact (Hall j Hj)].
    + apply Hin. left.
    + apply Hin. right. exact Hj.
Qed.

(** C4: the indices of the table are ranked by ascending collinearity score
    (the sum of the distances to the guess and to the target), equal scores
    in index order, and [findHint] answers the first entry of the ranking
    that passes the checks of the loop that returns it; that entry has the
    least score among the entries passing those checks, the least index on
    a tie.  The scores are compared as numbers, by [>=]. *)
Theorem findHint_ranking (table : PuzzleData num) (guess : string)
    (gameState : GameState num) (dim : nat) (guessEmbedding : list num) :
  let this := new_PuzzleManager table in
  let n := length (hint_embeddings table) in
  uniform_dimension dim table gameState ->
  getEmbedding this guess = Some guessEmbedding ->
  (forall scores,
      map_slots (collinearityScore guessEmbedding (targetEmbedding gameState))
        (hint_embeddings table) = Ok scores ->
      consistent_on (comparefn scores) (seq 0 (length scores))
      /\ differences_tell_order scores) ->
  exists scores ranking w,
    map_slots (collinearityScore guessEmbedding (targetEmbedding gameState))
      (hint_embeddings table) = Ok scores
    /\ Forall2 (score_of guessEmbedding (targetEmbedding gameState))
         (hint_embeddings table) scores
    /\ rankIndices this guessEmbedding gameState = Ok ranking
    /\ ranking ≡ₚ seq 0 n
    /\ StronglySorted (ascending scores) ranking
    /\ findHint this guess gameState = Ok w
    /\ ((exists pre idx post,
            ranking = pre ++ idx :: post
            /\ constrained_candidate this guessEmbedding gameState idx w
            /\ (forall j w', j ∈ pre ->
                  ~ constrained_candidate this guessEmbedding gameState j w')
            /\ (forall j w',
                  constrained_candidate this guessEmbedding gameState j w' ->
                  j = idx \/ ascending scores idx j))
        \/ ((forall j w',
                ~ constrained_candidate this guessEmbedding gameState j w')
            /\ exists pre idx post,
                ranking = pre ++ idx :: post
                /\ admissible this gameState idx w
                /\ (forall j w', j ∈ pre -> ~ admissible this gameState j w')
                /\ (forall j w',
                      (j < n)%nat -> admissible this gameState j w' ->
                      j = idx \/ ascending scores idx j))
        \/ ((forall j w', (j < n)%nat -> ~ admissible this gameState j w')
            /\ w = "unknown")).
Proof.
  intros this n Hu Hg Hnum.
  destruct (findHint_ranking_by_comparator table guess gameState dim
              guessEmbedding Hu Hg (fun scores Hs => proj1 (Hnum scores Hs)))
    as (scores & ranking & w & Hscores & Hof & Hrank & Hperm & Hsorted
        & Hw & Hfirst).
  fold this in Hrank, Hw, Hfirst. fold n in Hperm, Hfirst.
  destruct (Hnum scores Hscores) as [_ Hd].
  assert (Hlen : length scores = n).
  { symmetry. exact (Forall2_length _ _ _ Hof). }
  assert (Hin : forall i, i ∈ ranking -> (i < length scores)%nat).
  { intros i Hi. rewrite Hperm in Hi. apply elem_of_seq in Hi. lia. }
  assert (Hleast : forall idx j,
             idx ∈ ranking -> (j < n)%nat ->
             j = idx \/ ranked (comparefn scores) idx j ->
             j = idx \/ ascending scores idx j).
  { intros idx j Hidx Hj [->|Hr]; [left; reflexivity|right].
    apply ranked_ascending; [exact Hd|exact (Hin idx Hidx)|lia|exact Hr]. }
  exists scores, ranking, w. split_and!; try done.
  { apply StronglySorted_ascending; assumption. }
  destruct Hfirst as [(pre & idx & post & Heq & Hc & Hpre & Hmin)
                     |[(Hnone & pre & idx & post & Heq & Ha & Hpre & Hmin)
                      |Hlast]].
  - left. exists pre, idx, post. split_and!; try done.
    intros j w' Hc'. apply Hleast; [| |exact (Hmin j w' Hc')].
    + rewrite Heq. apply elem_of_app. right. left.
    + exact (constrained_candidate_in_range _ _ _ _ _ Hc').
  - right. left. split; [exact Hnone|].
    exists pre, idx, post. split_and!; try done.
    intros j w' Hj Ha'. apply Hleast; [|exact Hj|exact (Hmin j w' Hj Ha')].
    rewrite Heq. apply elem_of_app. right. left.
  - right. right. exact Hlast.
Qed.

End HintFacts.

(** In exact arithmetic the ranking is by [<=] on the scores. *)
Section ExactRanking.
Local Open Scope R_scope.
Import Puzzle.

Lemma exact_sorts_after (scores : list (option R)) (i j : nat) (x y : R) :
  scores !! i = Some (Some x) -> scores !! j = Some (Some y) ->
  (sorts_after (comparefn scores) i j = true <-> y < x).
Proof.
  intros Hi Hj. unfold sorts_after, comparefn. rewrite Hi, Hj. simpl.
  rewrite Rltb_true. lra.
Qed.

Lemma exact_ranked (scores : list (option R)) (i j : nat) (x y : R) :
  scores !! i = Some (Some x) -> scores !! j = Some (Some y) ->
  (ranked (comparefn scores) i j <-> x <= y /\ (x = y -> (i < j)%nat)).
Proof.
  intros Hi Hj. unfold ranked.
  rewrite <- !not_true_iff_false.
  rewrite (exact_sorts_after scores i j x y Hi Hj).
  rewrite (exact_sorts_after scores j i y x Hj Hi).
  split.
  - intros [Hle Htie]. split; [lra|]. intros ->. apply Htie. lra.
  - intros [Hle Htie]. split; [lra|]. intros Hge. apply Htie. lra.
Qed.

(** ... and the comparator is consistent on a table without holes. *)
Lemma exact_consistent (scores : list (option R)) :
  Forall is_Some scores ->
  consistent_on (comparefn scores) (seq 0 (length scores)).
Proof.
  intros Hall. unfold consistent_on, consistentb.
  assert (Hget : forall i, In i (seq 0 (length scores)) ->
                   exists x, scores !! i = Some (Some x)).
  { intros i Hi. apply in_seq in Hi.
    destruct (lookup_lt_is_Some_2 scores i) as [s Hs]; [lia|].
    rewrite Forall_forall in Hall.
    destruct (Hall s (list_elem_of_lookup_2 _ _ _ Hs)) as [x ->]. eauto. }
  apply forallb_forall. intros i Hi. destruct (Hget i Hi) as [x Hx].
  apply forallb_forall. intros j Hj. destruct (Hget j Hj) as [y Hy].
  apply andb_true_iff. split.
  - destruct (sorts_after (comparefn scores) i j) eqn:Hij; [|reflexivity].
    simpl. apply negb_true_iff, not_true_iff_false.
    rewrite (exact_sorts_after scores i j x y Hx Hy) in Hij.
    rewrite (exact_sorts_after scores j i y x Hy Hx). lra.
  - apply forallb_forall. intros k Hk. destruct (Hget k Hk) as [z Hz].
    destruct (sorts_after (comparefn scores) i j) eqn:Hij; [reflexivity|].
    destruct (sorts_after (comparefn scores) j k) eqn:Hjk; [reflexivity|].
    simpl. apply negb_true_iff, not_true_iff_false.
    apply not_true_iff_false in Hij, Hjk.
    rewrite (exact_sorts_after scores i j x y Hx Hy) in Hij.
    rewrite (exact_sorts_after scores j k y z Hy Hz) in Hjk.
    rewrite (exact_sorts_after scores i k x z Hx Hz). lra.
Qed.

(** ... and the differences tell the order of the scores. *)
Lemma exact_differences_tell_order (scores : list (option R)) :
  Forall is_Some scores -> differences_tell_order scores.
Proof.
  intros Hall. unfold differences_tell_order, differences_tell_orderb.
  rewrite Forall_forall in Hall.
  apply forallb_forall. intros s Hs. apply list_elem_of_In in Hs.
  destruct (Hall s Hs) as [x ->].
  apply forallb_forall. intros t Ht. apply list_elem_of_In in Ht.
  destruct (Hall t Ht) as [y ->].
  cbn [lt ge sub zero exact_arithmetic Exact.number].
  unfold Exact.Rltb, Exact.Rgeb.
  destruct (Rlt_dec 0 (x - y)), (Rge_dec y x); simpl; try reflexivity; lra.
Qed.

End ExactRanking.

(** ** The shuffle and the singleton *)

Section ManagerFacts.
Context {num : Type} `{Number num}.
Import Puzzle.

Lemma swap_elements_length {A} (array : list A) (m : nat) (j : num) :
  length (swap_elements array m j) = length array.
Proof.
  unfold swap_elements. destruct (to_index j) as [j'|]; [|reflexivity].
  destruct (array !! m), (array !! j'); try reflexivity.
  rewrite !length_insert. reflexivity.
Qed.

Lemma shuffle_loop_length {A} (m i : nat) (array : list A) :
  length (shuffle_loop m i array) = length array.
Proof.
  revert i array. induction m as [|m IH]; intros i array; simpl;
    [reflexivity|].
  rewrite IH. apply swap_elements_length.
Qed.

Lemma shuffleWithSeed_length {A} (array : list A) (seed : string) :
  length (shuffleWithSeed array seed) = length array.
Proof. apply shuffle_loop_length. Qed.

Lemma swap_elements_perm {A} (array : list A) (m : nat) (j : num) :
  swap_elements array m j ≡ₚ array.
Proof.
  unfold swap_elements. destruct (to_index j) as [j'|]; [|reflexivity].
  destruct (array !! m) as [t|] eqn:Hm; [|reflexivity].
  destruct (array !! j') as [u|] eqn:Hj; [|reflexivity].
  apply Permutation_insert_swap; assumption.
Qed.

(** The shuffled array is a permutation of the array. *)
Lemma shuffleWithSeed_perm {A} (array : list A) (seed : string) :
  shuffleWithSeed array seed ≡ₚ array.
Proof.
  unfold shuffleWithSeed. generalize (length array) at 1. intros m.
  generalize 0%nat. revert array.
  induction m as [|m IH]; intros array i; simpl; [reflexivity|].
  rewrite IH. apply swap_elements_perm.
Qed.

Lemma getPuzzleManager_calls_Some (payloads : list (PuzzleData num))
    (manager : PuzzleManager num) :
  getPuzzleManager_calls payloads (Some manager)
  = (replicate (length payloads) manager, Some manager).
Proof.
  induction payloads as [|p rest IH]; simpl; [reflexivity|].
  rewrite IH. reflexivity.
Qed.

(** C9: after a first call [getPuzzleManager(first)], every call, whatever
    its payload, returns the manager built from [first], and the static
    field keeps holding it: the vocabulary and the embeddings of every
    manager returned are those of [first]. *)
Theorem getPuzzleManager_singleton (first : PuzzleData num)
    (later : list (PuzzleData num)) :
  getPuzzleManager_calls (first :: later) None
  = (replicate (S (length later)) (new_PuzzleManager first),
     Some (new_PuzzleManager first))
  /\ Forall (fun manager =>
               puzzleData manager = first
               /\ getVocabulary manager = hint_vocabulary first)
       (getPuzzleManager_calls (first :: later) None).1.
Proof.
  assert (Hcalls : getPuzzleManager_calls (first :: later) None
                   = (replicate (S (length later)) (new_PuzzleManager first),
                      Some (new_PuzzleManager first))).
  { simpl. rewrite getPuzzleManager_calls_Some. reflexivity. }
  split; [exact Hcalls|].
  rewrite Hcalls. cbn [fst]. apply Forall_forall. intros manager Hin.
  apply elem_of_replicate in Hin as [-> _]. split; reflexivity.
Qed.

End ManagerFacts.

(** In exact arithmetic every subscript of the shuffle is an index of the
    part of the array still to be shuffled. *)
Section ExactShuffle.
Local Open Scope R_scope.
Import Puzzle.

Lemma exact_random_range (i : nat) : 0 <= random (num := R) i < 1.
Proof.
  unfold random. simpl. unfold Exact.floor.
  destruct (base_Int_part (Rtrigo_def.sin (INR i) * 10000)). lra.
Qed.

Lemma Int_part_IZR (z : Z) : Int_part (IZR z) = z.
Proof. symmetry. apply Int_part_spec. lra. Qed.

Lemma random_index_lt (i m : nat) :
  exists j : nat,
    to_index (Math_floor (mul (random (num := R) i) (of_nat (S m))))
      = Some j
    /\ (j <= m)%nat.
Proof.
  pose proof (exact_random_range i) as Hr.
  set (r := random i) in *.
  cbn [Math_floor mul of_nat JS.to_index exact_arithmetic Exact.number].
  unfold Exact.floor, Exact.to_index.
  set (y := r * INR (S m)).
  assert (Hy : 0 <= y < INR (S m)).
  { unfold y. pose proof (pos_INR (S m)).
    assert (0 < INR (S m)) by (apply lt_0_INR; lia). nra. }
  destruct (base_Int_part y) as [Hlo Hhi].
  set (z := Int_part y) in *.
  rewrite Int_part_IZR.
  destruct (Req_dec_T (IZR z) (IZR z)) as [_|Hne]; [|contradiction].
  assert (Hz0 : (0 <= z)%Z).
  { assert (Hlt : -1 < IZR z) by lra.
    apply lt_IZR in Hlt. lia. }
  assert (HzS : (z < Z.of_nat (S m))%Z).
  { apply lt_IZR. rewrite <- INR_IZR_INZ. lra. }
  apply Z.leb_le in Hz0 as Hb. rewrite Hb.
  exists (Z.to_nat z). split; [reflexivity|lia].
Qed.

End ExactShuffle.

(** ** The route *)

Section ServerFacts.
Context {num : Type} `{Number num}.
Import Puzzle Server.

(** A valid request reaches the two lazy initialisations and the game. *)
Lemma post_hint_valid (puzzleManager : PuzzleManager num) (context : Context)
    (body : Body) (redis : Redis num) (post g : string) :
  valid_request puzzleManager context body post g ->
  post_hint puzzleManager context body redis =
  match lazy_target puzzleManager post redis with
  | (redis, inl response) => (redis, Ok response)
  | (redis, inr targetState) =>
      let key := player_key post (userId context) in
      let '(redis, playerState) := lazy_player key redis in
      play puzzleManager key g targetState playerState redis
  end.
Proof.
  intros (Hp & Hpne & Hg & Hne & Hin). unfold post_hint. rewrite Hp, Hg.
  apply truthy_true in Hne, Hpne. rewrite Hne, Hpne. simpl.
  unfold Array_includes. rewrite bool_decide_eq_true_2 by exact Hin.
  reflexivity.
Qed.

(** C6: a guess on a session whose [solved] flag is set leaves the player
    states as they are; when the post has its target nothing at all is
    written, and the answer is the already-completed reply, whose message
    holds the target word. *)
Theorem post_hint_terminal (puzzleManager : PuzzleManager num)
    (context : Context) (body : Body) (redis : Redis num) (post g : string)
    (playerState : PlayerState) :
  valid_request puzzleManager context body post g ->
  players redis !! player_key post (userId context) = Some playerState ->
  terminal playerState ->
  players (post_hint puzzleManager context body redis).1 = players redis
  /\ forall targetState,
       targets redis !! target_key post = Some targetState ->
       exists message,
         post_hint puzzleManager context body redis
         = (redis, Ok (AlreadyCompleted message))
         /\ is_substring (targetWord targetState) message.
Proof.
  intros Hvalid Hplayer Hterm. rewrite (post_hint_valid _ _ _ _ _ _ Hvalid).
  assert (Hplay : forall r ts,
            players r = players redis ->
            let key := player_key post (userId context) in
            (let '(r', ps) := lazy_player key r in
             play puzzleManager key g ts ps r')
            = (r, Ok (AlreadyCompleted
                        ("You have already completed this puzzle! The word was '"
                         +:+ targetWord ts +:+ "'.")))).
  { intros r ts Hr key. unfold lazy_player. rewrite Hr. fold key.
    unfold key at 1. rewrite Hplayer. unfold play.
    unfold terminal in Hterm. rewrite Hterm. reflexivity. }
  split.
  - unfold lazy_target.
    destruct (targets redis !! target_key post) as [ts|].
    + rewrite Hplay by reflexivity. reflexivity.
    + simpl.
      destruct (getShuffledVocabulary puzzleManager !! _) as [w|];
        [|reflexivity].
      destruct (negb (truthy w)); [reflexivity|].
      destruct (getEmbedding puzzleManager w) as [e|]; [|reflexivity].
      rewrite Hplay by reflexivity. reflexivity.
  - intros ts Hts. unfold lazy_target. rewrite Hts.
    rewrite Hplay by reflexivity. eexists. split; [reflexivity|].
    apply is_substring_middle.
Qed.

(** C1: a guess on an active session is appended to the history; then a
    guess equal to the target wins, at any count; otherwise a history of 10
    or more guesses loses and the reply reveals the target; otherwise the
    hint of [findHint], computed on the extended history, is appended to the
    used hints and returned with [10 - length history] guesses remaining. *)
Theorem post_hint_active (puzzleManager : PuzzleManager num)
    (context : Context) (body : Body) (redis : Redis num) (post g : string)
    (targetState : TargetState num) (playerState : PlayerState)
    (redis1 : Redis num) :
  let key := player_key post (userId context) in
  let history := guessesHistory playerState ++ [g] in
  let finished :=
    {| guessesHistory := history; usedHints := usedHints playerState;
       solved := Some true |} in
  valid_request puzzleManager context body post g ->
  targets redis !! target_key post = Some targetState ->
  lazy_player key redis = (redis1, playerState) ->
  ~ terminal playerState ->
  (g = targetWord targetState ->
   post_hint puzzleManager context body redis
   = (set_player key finished redis1,
      Ok (Won ("Congratulations! You guessed the word in "
               +:+ pretty (length history) +:+ " tries!"))))
  /\ (g <> targetWord targetState -> (10 <= length history)%nat ->
      exists message,
        post_hint puzzleManager context body redis
        = (set_player key finished redis1, Ok (Lost message))
        /\ is_substring (targetWord targetState) message)
  /\ (g <> targetWord targetState -> (length history < 10)%nat ->
      match findHint puzzleManager g
              (gameState_of targetState
                 {| guessesHistory := history;
                    usedHints := usedHints playerState;
                    solved := solved playerState |}) with
      | Ok h =>
          post_hint puzzleManager context body redis
          = (set_player key
               {| guessesHistory := history;
                  usedHints := usedHints playerState ++ [h];
                  solved := solved playerState |} redis1,
             Ok (Hinted h (10 - Z.of_nat (length history))))
      | Throw e =>
          post_hint puzzleManager context body redis = (redis1, Throw e)
      end).
Proof.
  intros key history finished Hvalid Htarget Hplayer Hactive.
  rewrite (post_hint_valid _ _ _ _ _ _ Hvalid).
  unfold lazy_target. rewrite Htarget. fold key. rewrite Hplayer.
  unfold play.
  assert (Hsolved : default false (solved playerState) = false).
  { unfold terminal in Hactive.
    destruct (solved playerState) as [[|]|]; simpl; congruence. }
  rewrite Hsolved. fold history. split_and!.
  - intros ->. rewrite String.eqb_refl. reflexivity.
  - intros Hne Hlen. apply String.eqb_neq in Hne. rewrite Hne.
    apply Nat.leb_le in Hlen. rewrite Hlen.
    eexists. split; [reflexivity|]. apply is_substring_middle.
  - intros Hne Hlen. apply String.eqb_neq in Hne. rewrite Hne.
    apply Nat.leb_gt in Hlen. rewrite Hlen.
    unfold gameState_of. simpl.
    destruct (findHint puzzleManager g _); reflexivity.
Qed.

(** A target that is created is the word of the shuffled vocabulary at the
    new value of the counter, modulo the length. *)
Lemma lazy_target_new (puzzleManager : PuzzleManager num) (post : string)
    (redis redis' : Redis num) (targetState : TargetState num) :
  targets redis !! target_key post = None ->
  lazy_target puzzleManager post redis = (redis', inr targetState) ->
  let wordIndex := S (globalWordIndex redis) in
  let shuffledVocab := getShuffledVocabulary puzzleManager in
  shuffledVocab !! (wordIndex mod length shuffledVocab)%nat
    = Some (targetWord targetState)
  /\ stored_embedding puzzleManager targetState
  /\ globalWordIndex redis' = wordIndex
  /\ targets redis' !! target_key post = Some targetState.
Proof.
  intros Hnone. unfold lazy_target. rewrite Hnone. simpl.
  destruct (getShuffledVocabulary puzzleManager !! _) as [w|] eqn:Hw;
    [|discriminate].
  destruct (negb (truthy w)); [discriminate|].
  destruct (getEmbedding puzzleManager w) as [e|] eqn:He; [|discriminate].
  intros [= <- <-]. simpl. split_and!; try done.
  - exists e. split; [exact He|reflexivity].
  - apply lookup_insert_eq.
Qed.

(** C5: the shuffle does not read its seed, so the shuffled vocabulary of a
    manager is a function of the vocabulary alone; the pseudo-random stream
    is [frac (sin i * 10000)] for [i = 0, 1, 2, ...]; the target given to a
    post when the counter reaches [k] is the shuffled vocabulary at index
    [k mod length]; two managers over the same vocabulary give the same
    target at the same counter. *)
Theorem target_rotation (seed1 seed2 : string)
    (table1 table2 : PuzzleData num)
    (post1 post2 : string) (redis1 redis2 redis1' redis2' : Redis num)
    (targetState1 targetState2 : TargetState num) :
  (forall (A : Type) (array : list A),
      shuffleWithSeed array seed1 = shuffleWithSeed array seed2)
  /\ (forall i : nat,
        random i
        = (let x := Math_sin (of_nat i) * lit_10000 in x - Math_floor x)%js)
  /\ shuffledVocabulary (new_PuzzleManager table1)
     = shuffleWithSeed (hint_vocabulary table1) seed1
  /\ (targets redis1 !! target_key post1 = None ->
      lazy_target (new_PuzzleManager table1) post1 redis1
      = (redis1', inr targetState1) ->
      shuffleWithSeed (hint_vocabulary table1) seed1
        !! (S (globalWordIndex redis1)
            mod length (hint_vocabulary table1))%nat
      = Some (targetWord targetState1)
      /\ globalWordIndex redis1' = S (globalWordIndex redis1))
  /\ (hint_vocabulary table1 = hint_vocabulary table2 ->
      globalWordIndex redis1 = globalWordIndex redis2 ->
      targets redis1 !! target_key post1 = None ->
      targets redis2 !! target_key post2 = None ->
      lazy_target (new_PuzzleManager table1) post1 redis1
      = (redis1', inr targetState1) ->
      lazy_target (new_PuzzleManager table2) post2 redis2
      = (redis2', inr targetState2) ->
      targetWord targetState1 = targetWord targetState2).
Proof.
  split_and!.
  - reflexivity.
  - reflexivity.
  - reflexivity.
  - intros Hnone Hlazy.
    destruct (lazy_target_new _ _ _ _ _ Hnone Hlazy) as (Hw & _ & Hk & _).
    unfold getShuffledVocabulary in Hw. simpl in Hw.
    rewrite shuffleWithSeed_length in Hw. split; [exact Hw|exact Hk].
  - intros Hvocab Hindex Hnone1 Hnone2 Hlazy1 Hlazy2.
    destruct (lazy_target_new _ _ _ _ _ Hnone1 Hlazy1) as (Hw1 & _).
    destruct (lazy_target_new _ _ _ _ _ Hnone2 Hlazy2) as (Hw2 & _).
    unfold getShuffledVocabulary in Hw1, Hw2. simpl in Hw1, Hw2.
    rewrite Hvocab, Hindex in Hw1. congruence.
Qed.

End ServerFacts.

(** ** Worked cases on binary64 *)

Section WorkedCases.
Import Puzzle Server Examples Scenario.
Local Open Scope float_scope.

(** *** A word without an embedding *)

Lemma sparse_first_turn (t g : float) (embs : list (list float)) (i : nat) :
  firstPass_turn sparse_manager cat_after_dog t g embs i = Ok None.
Proof. destruct i as [|[|[|i]]]; reflexivity. Qed.

Lemma sparse_firstPass (t g : float) (embs : list (list float))
    (indices : list nat) :
  firstPass sparse_manager cat_after_dog t g embs indices = Ok None.
Proof.
  induction indices as [|i rest IH]; [reflexivity|].
  rewrite firstPass_cons, sparse_first_turn. exact IH.
Qed.

Lemma sparse_fallbackPass (pre post : list nat) :
  fallbackPass sparse_manager cat_after_dog (pre ++ 2%nat :: post)
  = Some "sun".
Proof.
  induction pre as [|i pre IH]; [reflexivity|].
  destruct i as [|[|[|i]]]; try exact IH. reflexivity.
Qed.

(** C10: the fallback loop does not ask for an embedding.  In the table
    [sparse] the slot of "sun" is a hole: the constructor skipped the word,
    [getEmbedding] does not find it, the first loop passes it by, and the
    fallback loop returns it as the hint, in whatever order the indices are
    walked. *)
Theorem fallback_returns_word_without_embedding :
  hint_vocabulary sparse !! 2%nat = Some "sun"
  /\ hint_embeddings sparse !! 2%nat = Some Hole
  /\ getEmbedding sparse_manager "sun" = None
  /\ getEmbedding sparse_manager "dog" = Some [0; 1]
  /\ rankIndices sparse_manager [0; 1] cat_after_dog = Ok [0; 1; 2]%nat
  /\ findHint sparse_manager "dog" cat_after_dog = Ok "sun"
  /\ forall pre post : list nat,
       firstLoop sparse_manager [0; 1] cat_after_dog (pre ++ 2%nat :: post)
       = Ok None
       /\ fallbackPass sparse_manager cat_after_dog (pre ++ 2%nat :: post)
          = Some "sun".
Proof.
  split_and!; try (vm_compute; reflexivity).
  intros pre post. split; [|apply sparse_fallbackPass].
  unfold firstLoop.
  replace (cosineDistance [0; 1] (Puzzle.targetEmbedding cat_after_dog))
    with (Ok 1 : result float) by (vm_compute; reflexivity).
  apply sparse_firstPass.
Qed.

(** The other ways a slot can be missing: on a [null] the scoring raises,
    and past a short table the word is never ranked. *)
Example null_slot_raises :
  findHint (new_PuzzleManager with_null) "dog" cat_after_dog = Throw TypeError.
Proof. vm_compute. reflexivity. Qed.

Example short_table_skips :
  findHint (new_PuzzleManager cut_short) "dog" cat_after_dog = Ok "unknown".
Proof. vm_compute. reflexivity. Qed.

(** *** The last resort *)

(** Against C2 as stated: on an exhausted vocabulary [findHint] answers
    ["unknown"], a word that the used hints already hold. *)
Lemma sentinel_is_a_used_hint :
  findHint (new_PuzzleManager two_words) "dog" exhausted = Ok "unknown"
  /\ "unknown" ∈ Puzzle.usedHints exhausted.
Proof.
  split; [vm_compute; reflexivity|]. apply list_elem_of_In. simpl. auto.
Qed.

Lemma findHint_valid_or_sentinel_witness :
  "car" = "unknown"
  \/ ("car" ∈ hint_vocabulary pets
      /\ "car" <> "cat"
      /\ ("car" ∉ ["dog"])
      /\ ("car" ∉ @nil string)
      /\ forall v,
           v = "cat" \/ v ∈ ["dog"] \/ v ∈ @nil string ->
           ~ substring_collision "car" v).
Proof.
  apply (findHint_valid_or_sentinel manager "dog" cat_after_dog "car").
  vm_compute. reflexivity.
Defined.

(** The route reaches that state: on two words with the target "cat", the
    guess "dog" sent twice is answered by "unknown" twice. *)
Example sentinel_twice_through_the_route :
  let puzzleManager := new_PuzzleManager two_words in
  let body := {| guess := Some "dog" |} in
  let empty := {| targets := ∅; players := ∅; globalWordIndex := 0 |} in
  let first := post_hint puzzleManager context body empty in
  let second := post_hint puzzleManager context body first.1 in
  targets first.1 !! target_key "t3_abc" = Some cat
  /\ first.2 = Ok (Hinted "unknown" 9)
  /\ second.2 = Ok (Hinted "unknown" 8)
  /\ players second.1 !! player_key "t3_abc" (Some "t2_player")
     = Some {| guessesHistory := ["dog"; "dog"];
               usedHints := ["unknown"; "unknown"]; solved := None |}.
Proof. vm_compute. split_and!; reflexivity. Qed.

(** *** The distance *)

(** Against C8 as stated: the distance of the zero vector to itself is 1,
    in exact arithmetic and in binary64; and in binary64 the distance of
    [1, 1, 1] to itself is [-2^-52], below 0. *)
Lemma zero_vector_self_distance :
  cosineDistance [0; 0]%R [0; 0]%R = Ok 1%R
  /\ cosineDistance [0; 0] [0; 0] = Ok 1
  /\ cosineDistance [1; 1; 1] [1; 1; 1] = Ok (-0x1p-52)
  /\ PrimFloat.ltb (-0x1p-52) 0 = true.
Proof.
  split_and!; try (vm_compute; reflexivity).
  apply exact_self_distance_zero_magnitude.
  unfold magnitude, dot. simpl.
  replace (0 + 0 * 0 + 0 * 0)%R with 0%R by ring. apply sqrt_0.
Qed.

Lemma cosineDistance_contract_witness :
  cosineDistance [3; 4] [4; 3]
  = Ok (if strict_eq (magnitude [3; 4]) 0 || strict_eq (magnitude [4; 3]) 0
        then 1
        else 1 - dot [3; 4] [4; 3] / (magnitude [3; 4] * magnitude [4; 3])).
Proof.
  exact (proj2 (cosineDistance_contract [3; 4] [4; 3]) eq_refl).
Defined.

Lemma cosineDistance_exact_witness :
  cosineDistance [3; 4]%R [4; 3]%R = cosineDistance [4; 3]%R [3; 4]%R
  /\ exists d, cosineDistance [3; 4]%R [4; 3]%R = Ok d /\ (0 <= d <= 2)%R.
Proof.
  destruct (cosineDistance_exact [3; 4]%R [4; 3]%R [3; 4] [4; 3] eq_refl)
    as (Hsym & _ & _ & Hrange & _).
  split; [exact Hsym|exact Hrange].
Defined.

(** *** The pets *)

Lemma pets_uniform : uniform_dimension 2 pets cat_after_dog.
Proof. split; [repeat constructor|reflexivity]. Defined.

Lemma car_is_constrained :
  constrained_candidate manager [0; 1] cat_after_dog 4 "car".
Proof.
  exists 1. split; [vm_compute; reflexivity|].
  split.
  - split; [reflexivity|]. split; [discriminate|].
    apply valid_hint_checks. split; vm_compute; reflexivity.
  - eexists _, _, _. split_and!; try (vm_compute; reflexivity).
    repeat constructor.
Defined.

Lemma findHint_prefers_constrained_witness :
  exists ranking idx' w',
    rankIndices manager [0; 1] cat_after_dog = Ok ranking
    /\ firstLoop manager [0; 1] cat_after_dog ranking = Ok (Some w')
    /\ findHint manager "dog" cat_after_dog = Ok w'
    /\ constrained_candidate manager [0; 1] cat_after_dog idx' w'.
Proof.
  apply (findHint_prefers_constrained pets "dog" cat_after_dog 2 [0; 1]).
  - exact pets_uniform.
  - vm_compute. reflexivity.
  - exists 4%nat, "car". exact car_is_constrained.
Defined.

Lemma findHint_ranking_witness :
  exists scores ranking w,
    map_slots (collinearityScore [0; 1] [1; 0]) (hint_embeddings pets)
    = Ok scores
    /\ differences_tell_order scores
    /\ ranking ≡ₚ seq 0 5
    /\ StronglySorted (ascending scores) ranking
    /\ findHint manager "dog" cat_after_dog = Ok w.
Proof.
  assert (Hnum : forall scores,
             map_slots (collinearityScore [0; 1] [1; 0])
               (hint_embeddings pets) = Ok scores ->
             consistent_on (comparefn scores) (seq 0 (length scores))
             /\ differences_tell_order scores).
  { intros scores Hscores. vm_compute in Hscores.
    injection Hscores as <-. split; vm_compute; reflexivity. }
  destruct (findHint_ranking pets "dog" cat_after_dog 2 [0; 1])
    as (scores & ranking & w & Hs & _ & _ & Hp & Hsorted & Hw & _).
  - exact pets_uniform.
  - vm_compute. reflexivity.
  - exact Hnum.
  - exists scores, ranking, w. split_and!; try assumption.
    exact (proj2 (Hnum scores Hs)).
Defined.

(** The hint of the scenario and its ranking: kitten and puppy tie ahead of
    cat and dog, car is last and is the only word that keeps the
    distances. *)
Example pets_hint :
  rankIndices manager [0; 1] cat_after_dog = Ok [2; 3; 0; 1; 4]%nat
  /\ findHint manager "dog" cat_after_dog = Ok "car"
  /\ shuffledVocabulary manager = ["dog"; "car"; "puppy"; "kitten"; "cat"].
Proof. vm_compute. split_and!; reflexivity. Qed.

(** *** The route *)

Lemma scenario_valid (g : string) :
  g ∈ hint_vocabulary pets -> g <> "" ->
  valid_request manager context {| guess := Some g |} "t3_abc" g.
Proof. intros Hin Hne. repeat split; try assumption. discriminate. Defined.

Lemma dog_in_pets : "dog" ∈ hint_vocabulary pets.
Proof. apply list_elem_of_In. simpl. auto. Defined.

Lemma post_hint_active_witness :
  exists redis',
    post_hint manager context {| guess := Some "dog" |} fresh
    = (redis', Ok (Hinted "car" 9)).
Proof.
  destruct (post_hint_active manager context {| guess := Some "dog" |} fresh
              "t3_abc" "dog" cat new_player
              (set_player (player_key "t3_abc" (Some "t2_player"))
                 new_player fresh))
    as (_ & _ & Hhint).
  - apply scenario_valid; [exact dog_in_pets|discriminate].
  - vm_compute. reflexivity.
  - vm_compute. reflexivity.
  - unfold terminal. discriminate.
  - eexists. apply Hhint; [discriminate|vm_compute; lia].
Defined.

Lemma post_hint_terminal_witness :
  exists message,
    post_hint manager context {| guess := Some "dog" |} finished
    = (finished, Ok (AlreadyCompleted message))
    /\ is_substring "cat" message.
Proof.
  destruct (post_hint_terminal manager context {| guess := Some "dog" |}
              finished "t3_abc" "dog" winner) as [_ Hreply].
  - apply scenario_valid; [exact dog_in_pets|discriminate].
  - vm_compute. reflexivity.
  - reflexivity.
  - apply (Hreply cat). vm_compute. reflexivity.
Defined.

Lemma target_rotation_witness :
  shuffleWithSeed (num := float) (hint_vocabulary pets) "another seed"
    !! (5 mod 5)%nat
  = Some "dog".
Proof.
  destruct (target_rotation "another seed" "devvit-rocks" pets pets
              "t3_abc" "t3_abc" untouched untouched
              (set_target (target_key "t3_abc") dog
                 (incr_globalWordIndex untouched).2)
              (set_target (target_key "t3_abc") dog
                 (incr_globalWordIndex untouched).2)
              dog dog) as (_ & _ & _ & Hword & _).
  apply Hword; vm_compute; reflexivity.
Defined.

End WorkedCases.

(** * Further properties *)

(** ** The constructor and [getEmbedding] *)

Section ConstructorMore.
Context {num : Type} `{Number num}.
Import Puzzle.

Lemma wordToEmbedding_upto_S (table : PuzzleData num) (n : nat) :
  wordToEmbedding_upto table (S n) =
  match hint_vocabulary table !! n,
        embedding_at (hint_embeddings table) n with
  | Some word, Some embedding =>
      if truthy word
      then <[word := embedding]> (wordToEmbedding_upto table n)
      else wordToEmbedding_upto table n
  | _, _ => wordToEmbedding_upto table n
  end.
Proof.
  unfold wordToEmbedding_upto. rewrite seq_S, fold_left_app. reflexivity.
Qed.

Lemma last_entry_S_keep (table : PuzzleData num) (n : nat) (w : string)
    (i : nat) (e : list num) :
  (forall e', hint_vocabulary table !! n = Some w ->
              embedding_at (hint_embeddings table) n = Some e' -> False) ->
  (last_entry table (S n) w i e <-> last_entry table n w i e).
Proof.
  intros Hn. unfold last_entry. split.
  - intros (Hi & Hw & He & Hlast). split_and!; try done.
    + destruct (decide (i = n)) as [->|]; [exfalso; eauto|lia].
    + intros j e' Hj. apply Hlast. lia.
  - intros (Hi & Hw & He & Hlast). split_and!; try done; [lia|].
    intros j e' Hj Hjw Hje. destruct (decide (j = n)) as [->|].
    + eauto.
    + eapply (Hlast j e'); [lia|done|done].
Qed.

Lemma wordToEmbedding_upto_lookup (table : PuzzleData num) (n : nat)
    (w : string) (e : list num) :
  wordToEmbedding_upto table n !! w = Some e <->
  w <> "" /\ exists i, last_entry table n w i e.
Proof.
  induction n as [|n IH].
  - unfold wordToEmbedding_upto. simpl. rewrite lookup_empty.
    split; [discriminate|]. intros (_ & i & Hi & _). lia.
  - rewrite wordToEmbedding_upto_S.
    destruct (hint_vocabulary table !! n) as [word|] eqn:Hw.
    2:{ rewrite IH. apply and_iff_compat_l.
        apply exist_proper. intros i. symmetry. apply last_entry_S_keep.
        intros e' Hw'. congruence. }
    destruct (embedding_at (hint_embeddings table) n) as [embedding|] eqn:He.
    2:{ rewrite IH. apply and_iff_compat_l.
        apply exist_proper. intros i. symmetry. apply last_entry_S_keep.
        intros e' _ He'. congruence. }
    destruct (truthy word) eqn:Ht.
    2:{ rewrite IH. split.
        - intros (Hne & i & Hl). split; [done|]. exists i.
          apply last_entry_S_keep; [|done].
          intros e' Hw' _. simplify_eq. apply truthy_true in Hne. congruence.
        - intros (Hne & i & Hl). split; [done|]. exists i.
          refine (proj1 (last_entry_S_keep table n w i e _) Hl).
          intros e' Hw' _. simplify_eq. apply truthy_true in Hne. congruence. }
    apply truthy_true in Ht.
    destruct (decide (word = w)) as [->|Hne].
    + rewrite lookup_insert_eq. split.
      * intros [= <-]. split; [done|]. exists n.
        unfold last_entry. split_and!; try done; [lia|]. intros j e' Hj. lia.
      * intros (_ & i & Hi & Hiw & Hie & Hlast).
        destruct (decide (i = n)) as [->|Hin]; [congruence|].
        exfalso. eapply (Hlast n embedding); [lia|done|done].
    + rewrite lookup_insert_ne by done. rewrite IH.
      apply and_iff_compat_l. apply exist_proper. intros i. symmetry.
      apply last_entry_S_keep. intros e' Hw' _. congruence.
Qed.

Lemma wordToEmbedding_upto_is_Some (table : PuzzleData num) (n : nat)
    (w : string) :
  w <> "" ->
  (exists i, i < n /\ hint_vocabulary table !! i = Some w
             /\ is_Some (embedding_at (hint_embeddings table) i)) ->
  is_Some (wordToEmbedding_upto table n !! w).
Proof.
  intros Hne. induction n as [|n IH]; intros (i & Hi & Hw & He); [lia|].
  rewrite wordToEmbedding_upto_S.
  destruct (decide (i = n)) as [->|Hin].
  - rewrite Hw. destruct He as [e ->].
    rewrite (proj2 (truthy_true w) Hne). rewrite lookup_insert_eq. eauto.
  - assert (Hprev : is_Some (wordToEmbedding_upto table n !! w)).
    { apply IH. exists i. split_and!; try done. lia. }
    destruct (hint_vocabulary table !! n) as [word|]; [|exact Hprev].
    destruct (embedding_at (hint_embeddings table) n) as [e|]; [|exact Hprev].
    destruct (truthy word); [|exact Hprev].
    destruct (decide (word = w)) as [->|Hw'].
    + rewrite lookup_insert_eq. eauto.
    + rewrite lookup_insert_ne by done. exact Hprev.
Qed.

(** The map the constructor builds holds, for a word, the embedding of the
    last slot where the word stands with one. *)
Lemma constructor_loop_last_entry (table : PuzzleData num) (w : string)
    (e : list num) :
  constructor_loop table !! w = Some e <->
  w <> ""
  /\ exists i,
      hint_vocabulary table !! i = Some w
      /\ embedding_at (hint_embeddings table) i = Some e
      /\ forall j e', i < j -> hint_vocabulary table !! j = Some w ->
           embedding_at (hint_embeddings table) j = Some e' -> False.
Proof.
  change (constructor_loop table)
    with (wordToEmbedding_upto table (length (hint_vocabulary table))).
  rewrite wordToEmbedding_upto_lookup. apply and_iff_compat_l.
  apply exist_proper. intros i. unfold last_entry. split.
  - intros (Hi & Hw & He & Hlast). split_and!; try done.
    intros j e' Hj Hjw Hje. eapply (Hlast j e'); try done.
    split; [done|]. eapply lookup_lt_Some. exact Hjw.
  - intros (Hw & He & Hlast). split_and!; try done.
    + eapply lookup_lt_Some. exact Hw.
    + intros j e' Hj. apply Hlast. lia.
Qed.

Lemma constructor_loop_is_Some (table : PuzzleData num) (i : nat)
    (w : string) :
  w <> "" -> hint_vocabulary table !! i = Some w ->
  is_Some (embedding_at (hint_embeddings table) i) ->
  is_Some (constructor_loop table !! w).
Proof.
  intros Hne Hi He.
  change (constructor_loop table)
    with (wordToEmbedding_upto table (length (hint_vocabulary table))).
  apply wordToEmbedding_upto_is_Some; [exact Hne|].
  exists i. split_and!; try done. eapply lookup_lt_Some. exact Hi.
Qed.

(** X1: [getEmbedding] knows exactly the non-empty words that stand in the
    vocabulary with an embedding in the same slot; it answers the embedding
    of the last such slot, and [undefined] for every other word. *)
Theorem getEmbedding_last_entry (table : PuzzleData num) (w : string)
    (e : list num) :
  (getEmbedding (new_PuzzleManager table) w = Some e <->
   w <> ""
   /\ exists i,
       hint_vocabulary table !! i = Some w
       /\ embedding_at (hint_embeddings table) i = Some e
       /\ forall j e', i < j -> hint_vocabulary table !! j = Some w ->
            embedding_at (hint_embeddings table) j = Some e' -> False)
  /\ (getEmbedding (new_PuzzleManager table) w = None <->
      w = ""
      \/ forall i, hint_vocabulary table !! i = Some w ->
           embedding_at (hint_embeddings table) i = None).
Proof.
  split; [apply constructor_loop_last_entry|].
  change (getEmbedding (new_PuzzleManager table) w)
    with (constructor_loop table !! w).
  split.
  - intros Hnone. destruct (decide (w = "")) as [->|Hne]; [left; done|].
    right. intros i Hi.
    destruct (embedding_at (hint_embeddings table) i) as [e'|] eqn:He;
      [|reflexivity].
    destruct (constructor_loop_is_Some table i w Hne Hi) as [e'' He''];
      [eauto|congruence].
  - intros Hw. destruct (constructor_loop table !! w) as [e'|] eqn:He';
      [|reflexivity].
    apply constructor_loop_last_entry in He' as (Hne & i & Hi & He'' & _).
    destruct Hw as [->|Hw]; [done|]. rewrite (Hw i Hi) in He''. done.
Qed.

(** X2: when the words of the vocabulary are distinct, every non-empty word
    gets the embedding of its own slot. *)
Theorem getEmbedding_aligned (table : PuzzleData num) (i : nat) (w : string)
    (e : list num) :
  NoDup (hint_vocabulary table) ->
  hint_vocabulary table !! i = Some w -> w <> "" ->
  embedding_at (hint_embeddings table) i = Some e ->
  getEmbedding (new_PuzzleManager table) w = Some e.
Proof.
  intros Hnd Hw Hne He. apply constructor_loop_last_entry. split; [done|].
  exists i. split_and!; try done.
  intros j e' Hj Hjw _.
  pose proof (NoDup_lookup _ _ _ _ Hnd Hw Hjw). lia.
Qed.

End ConstructorMore.

(** ** The shuffle, in exact arithmetic *)

Section ExactShuffleMore.
Import Puzzle.

(** X3: in exact arithmetic the shuffle is a Fisher-Yates shuffle: every
    turn exchanges the element at the bound with one at or below it, and
    the positions at and above the bound are not touched again. *)
Theorem exact_shuffle_fisher_yates {A} (m i : nat) (array : list A) :
  (m <= length array)%nat ->
  shuffle_in_bounds (num := R) m i array
  /\ forall p, (m <= p)%nat ->
       shuffle_loop (num := R) m i array !! p = array !! p.
Proof.
  revert i array. induction m as [|m IH]; intros i array Hm.
  - split; [exact I|]. intros p _. reflexivity.
  - destruct (random_index_lt i m) as (k & Hk & Hkm).
    destruct (lookup_lt_is_Some_2 array m) as [t Ht]; [lia|].
    destruct (lookup_lt_is_Some_2 array k) as [u Hu]; [lia|].
    assert (Hswap : swap_elements (num := R) array m
                      (Math_floor (mul (random i) (of_nat (S m))))
                    = <[k := t]> (<[m := u]> array)).
    { unfold swap_elements. rewrite Hk, Ht, Hu. reflexivity. }
    destruct (IH (S i) (<[k := t]> (<[m := u]> array))) as [Hin Hfix].
    { rewrite !length_insert. lia. }
    cbn [shuffle_in_bounds shuffle_loop]. rewrite Hswap. split.
    + split; [|exact Hin]. exists k, t, u. done.
    + intros p Hp. rewrite Hfix by lia.
      rewrite !list_lookup_insert_ne by lia. reflexivity.
Qed.

End ExactShuffleMore.

(** ** [findHint] *)

Section FindHintMore.
Context {num : Type} `{Number num}.
Local Open Scope js_scope.
Import Puzzle.

Lemma cosineDistance_Ok_length (a b : list num) (d : num) :
  cosineDistance a b = Ok d -> length a = length b.
Proof.
  intros Hd. destruct (decide (length a = length b)) as [|Hne]; [done|].
  rewrite (cosineDistance_unequal_length a b Hne) in Hd. discriminate.
Qed.

Lemma map_slots_Ok_dim (guessEmbedding targetEmbedding : list num)
    (slots : list (slot num)) (scores : list (option num)) :
  map_slots (collinearityScore guessEmbedding targetEmbedding) slots
    = Ok scores ->
  Forall (fun s => match s with
                   | Embedding e =>
                       length e = length guessEmbedding
                       /\ length e = length targetEmbedding
                   | Hole => True
                   | Null => False
                   end) slots.
Proof.
  intros Hs. apply map_slots_scores in Hs.
  induction Hs as [|s score slots scores Hscore _ IH]; constructor; [|exact IH].
  destruct s as [| |e]; [exact I|exact Hscore|].
  destruct Hscore as (gd & td & Hg & Ht & _).
  apply cosineDistance_Ok_length in Hg, Ht. split; congruence.
Qed.

(** On a well-formed table [findHint] returns. *)
Lemma findHint_returns (table : PuzzleData num) (guess : string)
    (gameState : GameState num) (dim : nat) :
  uniform_dimension dim table gameState ->
  exists w, findHint (new_PuzzleManager table) guess gameState = Ok w.
Proof.
  intros Hu.
  destruct (getEmbedding (new_PuzzleManager table) guess) as [ge|] eqn:Hg.
  - destruct (findHint_runs table guess gameState _ _ Hu Hg)
      as (scores & found & _ & Hrank & Hloop).
    unfold findHint. rewrite Hg, Hrank. cbn [bind]. rewrite Hloop.
    cbn [bind]. destruct found as [w|]; [eauto|].
    destruct (fallbackPass _ _ _); eauto.
  - exists "unknown". unfold findHint. rewrite Hg. reflexivity.
Qed.

(** When [findHint] returns for a guess with an embedding, the distance of
    the guess to the target is defined. *)
Lemma findHint_distance (this : PuzzleManager num) (guess : string)
    (gameState : GameState num) (guessEmbedding : list num) (w : string) :
  getEmbedding this guess = Some guessEmbedding ->
  findHint this guess gameState = Ok w ->
  exists D, cosineDistance guessEmbedding (targetEmbedding gameState) = Ok D.
Proof.
  intros Hg Hw.
  destruct (findHint_cases _ _ _ _ _ Hg Hw) as (ranking & _ & Hloop).
  assert (HD : exists found,
             firstLoop this guessEmbedding gameState ranking = Ok found).
  { destruct Hloop as [Hl|[[Hl _]|[Hl _]]]; eauto. }
  destruct HD as [found HD]. unfold firstLoop in HD.
  destruct (cosineDistance guessEmbedding (targetEmbedding gameState))
    as [D|]; [eauto|discriminate].
Qed.

(** The word [findHint] returns is the last resort or not a past hint. *)
Lemma findHint_fresh (this : PuzzleManager num) (guess : string)
    (gameState : GameState num) (h : string) :
  findHint this guess gameState = Ok h ->
  h = "unknown" \/ h ∉ usedHints gameState.
Proof.
  intros Hh. destruct (getEmbedding this guess) as [ge|] eqn:Hg.
  2:{ unfold findHint in Hh. rewrite Hg in Hh. left. congruence. }
  destruct (findHint_cases _ _ _ _ _ Hg Hh)
    as (ranking & _ & [Hl|[[_ Hf]|(_ & _ & ->)]]).
  - apply firstLoop_Some in Hl as (_ & idx & _ & _ & (D & _ & Hadm & _) & _).
    right. apply admissible_valid in Hadm as [(_ & _ & Hu & _) _]. exact Hu.
  - apply fallbackPass_Some in Hf as (_ & idx & _ & _ & Hadm & _).
    right. apply admissible_valid in Hadm as [(_ & _ & Hu & _) _]. exact Hu.
  - left. reflexivity.
Qed.

(** X4: for a guess that has an embedding, [findHint] returns (rather than
    raises) exactly when no slot of the table is [null] and every vector of
    the table, and the target vector, have the dimension of the guess. *)
Theorem findHint_returns_iff (table : PuzzleData num) (guess : string)
    (gameState : GameState num) (guessEmbedding : list num) :
  getEmbedding (new_PuzzleManager table) guess = Some guessEmbedding ->
  (exists w, findHint (new_PuzzleManager table) guess gameState = Ok w)
  <-> uniform_dimension (length guessEmbedding) table gameState.
Proof.
  intros Hg. split.
  - intros [w Hw].
    destruct (findHint_distance _ _ _ _ _ Hg Hw) as [D HDist].
    apply cosineDistance_Ok_length in HDist.
    destruct (findHint_cases _ _ _ _ _ Hg Hw) as (ranking & Hrank & _).
    unfold rankIndices in Hrank.
    destruct (map_slots _ _) as [scores|] eqn:Hscores; [|discriminate].
    apply map_slots_Ok_dim in Hscores. split; [|congruence].
    eapply Forall_impl; [exact Hscores|].
    intros [| |e]; simpl; tauto.
  - intros Hu. eapply findHint_returns. exact Hu.
Qed.

(** X5: on a well-formed table the last resort is returned only when no
    entry within the length of the embeddings passes the checks; otherwise
    the result is an entry that passes them, whatever the scores are. *)
Theorem findHint_fallback_guarantee (table : PuzzleData num) (guess : string)
    (gameState : GameState num) (dim : nat) (guessEmbedding : list num) :
  let this := new_PuzzleManager table in
  let n := length (hint_embeddings table) in
  uniform_dimension dim table gameState ->
  getEmbedding this guess = Some guessEmbedding ->
  exists w,
    findHint this guess gameState = Ok w
    /\ ((exists idx w', (idx < n)%nat /\ admissible this gameState idx w') ->
        exists idx, (idx < n)%nat /\ admissible this gameState idx w)
    /\ ((forall idx w', (idx < n)%nat -> ~ admissible this gameState idx w') ->
        w = "unknown").
Proof.
  intros this n Hu Hg.
  destruct (findHint_runs table guess gameState _ _ Hu Hg)
    as (scores & found & _ & Hrank & Hloop). fold this in Hrank, Hloop.
  pose proof (rankIndices_perm _ _ _ _ Hrank) as Hperm.
  assert (Hin : forall idx, idx ∈ sortedIndices scores <-> (idx < n)%nat).
  { intros idx. rewrite Hperm, elem_of_seq. unfold n, this. simpl. lia. }
  unfold findHint. rewrite Hg, Hrank. cbn [bind]. rewrite Hloop. cbn [bind].
  destruct found as [w|].
  - exists w. split; [reflexivity|].
    apply firstLoop_Some in Hloop as (pre & idx & post & Heq & Hc & _).
    destruct Hc as (D & _ & Hadm & _).
    assert (Hidx : (idx < n)%nat).
    { apply Hin. rewrite Heq. apply elem_of_app. right.
      apply elem_of_cons. left. reflexivity. }
    split.
    + intros _. exists idx. split; assumption.
    + intros Hnone. exfalso. exact (Hnone idx w Hidx Hadm).
  - destruct (fallbackPass this gameState (sortedIndices scores)) as [w|] eqn:Hf.
    + exists w. split; [reflexivity|].
      apply fallbackPass_Some in Hf as (pre & idx & post & Heq & Hadm & _).
      assert (Hidx : (idx < n)%nat).
      { apply Hin. rewrite Heq. apply elem_of_app. right.
      apply elem_of_cons. left. reflexivity. }
      split.
      * intros _. exists idx. split; assumption.
      * intros Hnone. exfalso. exact (Hnone idx w Hidx Hadm).
    + exists "unknown". split; [reflexivity|].
      split; [|reflexivity].
      intros (idx & w' & Hidx & Hadm). exfalso.
      eapply (proj1 (fallbackPass_None _ _ _) Hf idx w'); [|exact Hadm].
      apply Hin. exact Hidx.
Qed.

Lemma forallb_same_elements {A} (q : A -> bool) (l l' : list A) :
  (forall x, x ∈ l <-> x ∈ l') -> forallb q l = forallb q l'.
Proof.
  intros Hs. apply eq_true_iff_eq. rewrite !forallb_forall.
  split; intros Hq x Hx; apply Hq; apply list_elem_of_In;
    apply list_elem_of_In in Hx; apply Hs; exact Hx.
Qed.

Lemma existsb_same_elements {A} (q : A -> bool) (l l' : list A) :
  (forall x, x ∈ l <-> x ∈ l') -> existsb q l = existsb q l'.
Proof.
  intros Hs. apply eq_true_iff_eq. rewrite !existsb_exists.
  split; intros (x & Hx & Hq); exists x; (split; [|exact Hq]);
    apply list_elem_of_In; apply list_elem_of_In in Hx; apply Hs; exact Hx.
Qed.

(** The distances of the past guesses to a candidate, followed by a test of
    all of them: either a length differs and the call raises, or the test
    is the conjunction of the tests. *)
Lemma mapM_distances_normal {X} (e : list num) (p : num -> bool)
    (K : bool -> result X) (embs : list (list num)) :
  bind (mapM (fun emb => cosineDistance emb e) embs)
    (fun ds => K (forallb p ds))
  = if forallb (fun emb => length emb =? length e)%nat embs
    then K (forallb (fun emb => match cosineDistance emb e with
                                | Ok d => p d
                                | Throw _ => true
                                end) embs)
    else Throw (Error "Vectors must have the same length").
Proof.
  revert K. induction embs as [|emb embs IH]; intros K; [reflexivity|].
  cbn [mapM forallb].
  destruct (Nat.eqb_spec (length emb) (length e)) as [Hlen|Hne].
  - destruct (cosineDistance_Ok emb e Hlen) as [d Hd]. rewrite Hd.
    cbn [bind andb].
    specialize (IH (fun b => K (p d && b))). cbn beta in IH.
    rewrite <- IH.
    destruct (mapM _ embs); reflexivity.
  - rewrite (cosineDistance_unequal_length emb e Hne). reflexivity.
Qed.

Lemma mapM_distances_same_elements {X} (e : list num) (p : num -> bool)
    (K : bool -> result X) (embs embs' : list (list num)) :
  (forall x, x ∈ embs <-> x ∈ embs') ->
  bind (mapM (fun emb => cosineDistance emb e) embs)
    (fun ds => K (forallb p ds))
  = bind (mapM (fun emb => cosineDistance emb e) embs')
      (fun ds => K (forallb p ds)).
Proof.
  intros Hs. rewrite !mapM_distances_normal.
  rewrite (forallb_same_elements _ embs embs' Hs).
  rewrite (forallb_same_elements
             (fun emb => match cosineDistance emb e with
                         | Ok d => p d
                         | Throw _ => true
                         end) embs embs' Hs).
  reflexivity.
Qed.

Lemma repeats_same_history (gameState gameState' : GameState num)
    (w : string) :
  same_history gameState gameState' ->
  repeats gameState w = repeats gameState' w.
Proof.
  intros (Ht & _ & Hg & Hu). unfold repeats, Array_includes. rewrite Ht.
  rewrite (bool_decide_ext _ _ (Hg w)), (bool_decide_ext _ _ (Hu w)).
  reflexivity.
Qed.

Lemma collides_same_history (gameState gameState' : GameState num)
    (w : string) :
  same_history gameState gameState' ->
  collides gameState w = collides gameState' w.
Proof.
  intros (Ht & _ & Hg & Hu). unfold collides.
  apply existsb_same_elements. intros v. unfold wordsToCheck.
  rewrite Ht, !elem_of_cons, !elem_of_app, Hg, Hu. reflexivity.
Qed.

Lemma fallbackPass_same_history (this : PuzzleManager num)
    (gameState gameState' : GameState num) (indices : list nat) :
  same_history gameState gameState' ->
  fallbackPass this gameState indices = fallbackPass this gameState' indices.
Proof.
  intros Hs. induction indices as [|idx rest IH]; [reflexivity|].
  cbn [fallbackPass].
  destruct (hint_vocabulary (puzzleData this) !! idx) as [w|]; [|exact IH].
  rewrite (repeats_same_history _ _ w Hs), (collides_same_history _ _ w Hs).
  rewrite IH. reflexivity.
Qed.

Lemma firstPass_same_history (this : PuzzleManager num)
    (gameState gameState' : GameState num) (t1 t2 : num)
    (embs embs' : list (list num)) (indices : list nat) :
  same_history gameState gameState' ->
  (forall x, x ∈ embs <-> x ∈ embs') ->
  firstPass this gameState t1 t2 embs indices
  = firstPass this gameState' t1 t2 embs' indices.
Proof.
  intros Hs He. induction indices as [|idx rest IH]; [reflexivity|].
  cbn [firstPass].
  destruct (hint_vocabulary (puzzleData this) !! idx) as [w|]; [|exact IH].
  destruct (embedding_at (hint_embeddings (puzzleData this)) idx) as [e|];
    [|exact IH].
  rewrite (repeats_same_history _ _ w Hs), (collides_same_history _ _ w Hs).
  destruct (negb (truthy w)); [exact IH|].
  destruct (repeats gameState' w); [exact IH|].
  destruct (collides gameState' w); [exact IH|].
  destruct Hs as (_ & Ht & _). rewrite Ht.
  destruct (cosineDistance (targetEmbedding gameState') e) as [d|];
    [|reflexivity].
  cbn [bind]. rewrite IH.
  exact (mapM_distances_same_elements e (fun d' => d' >= t2)
           (fun b => if (d >= t1) && b then Ok (Some w)
                     else firstPass this gameState' t1 t2 embs' rest)
           embs embs' He).
Qed.

(** X6: the hint depends on the past guesses and the past hints as sets:
    their order and repetitions, and the flag [solved], do not change the
    result, be it a word or an exception. *)
Theorem findHint_same_history (this : PuzzleManager num) (guess : string)
    (gameState gameState' : GameState num) :
  same_history gameState gameState' ->
  findHint this guess gameState = findHint this guess gameState'.
Proof.
  intros Hs. unfold findHint.
  destruct (getEmbedding this guess) as [ge|]; [|reflexivity].
  assert (Hrank : rankIndices this ge gameState
                  = rankIndices this ge gameState').
  { unfold rankIndices. destruct Hs as (_ & -> & _). reflexivity. }
  rewrite Hrank.
  destruct (rankIndices this ge gameState') as [ranking|]; [|reflexivity].
  cbn [bind].
  assert (Hloop : firstLoop this ge gameState ranking
                  = firstLoop this ge gameState' ranking).
  { unfold firstLoop. pose proof Hs as (_ & Ht & Hg & _). rewrite Ht.
    destruct (cosineDistance ge (targetEmbedding gameState')) as [D|];
      [|reflexivity].
    cbn [bind]. apply firstPass_same_history; [exact Hs|].
    intros x. rewrite !list_elem_of_omap.
    split; intros (w & Hw & Hx); exists w; (split; [|exact Hx]);
      apply Hg; exact Hw. }
  rewrite Hloop, (fallbackPass_same_history this _ _ ranking Hs).
  reflexivity.
Qed.

End FindHintMore.

(** ** The distance *)

Section ExactDistanceMore.
Local Open Scope R_scope.

(** X7: in exact arithmetic the distance is 1 exactly for orthogonal
    vectors of one length, a zero vector being orthogonal to every
    vector. *)
Theorem cosineDistance_one_iff_orthogonal (a b : list R) :
  cosineDistance a b = Ok 1 <-> length a = length b /\ dot a b = 0.
Proof.
  split.
  - intros Hd. pose proof (cosineDistance_Ok_length _ _ _ Hd) as Hlen.
    split; [exact Hlen|].
    rewrite (cosineDistance_equal_length a b Hlen) in Hd.
    cbn [strict_eq zero one sub div mul exact_arithmetic Exact.number] in Hd.
    pose proof (exact_dot_bound a b) as Hb.
    destruct (Exact.Reqb (magnitude a) 0) eqn:Ha.
    { apply Reqb_true in Ha. rewrite Ha in Hb. lra. }
    destruct (Exact.Reqb (magnitude b) 0) eqn:Hmb.
    { apply Reqb_true in Hmb. rewrite Hmb in Hb. lra. }
    apply Reqb_false in Ha, Hmb. cbn [orb] in Hd.
    assert (Hd' : 1 - dot a b / (magnitude a * magnitude b) = 1)
      by (injection Hd as Hd; exact Hd).
    assert (Hq : dot a b / (magnitude a * magnitude b) = 0) by lra.
    assert (Hm : magnitude a * magnitude b <> 0) by nra.
    unfold Rdiv in Hq. apply Rmult_integral in Hq as [Hq|Hq]; [exact Hq|].
    exfalso. exact (Rinv_neq_0_compat _ Hm Hq).
  - intros [Hlen Hdot].
    rewrite (cosineDistance_equal_length a b Hlen).
    cbn [strict_eq zero one sub div mul exact_arithmetic Exact.number].
    destruct (Exact.Reqb (magnitude a) 0 || Exact.Reqb (magnitude b) 0);
      [reflexivity|].
    rewrite Hdot. f_equal. unfold Rdiv. ring.
Qed.

Lemma exact_dot_scale_l (k : R) (a b : list R) :
  dot (map (Rmult k) a) b = k * dot a b.
Proof.
  revert b. induction a as [|x a IH]; intros b.
  - simpl. rewrite !exact_dot_nil_l. ring.
  - destruct b as [|y b].
    + rewrite !exact_dot_nil_r. ring.
    + cbn [map]. rewrite !exact_dot_cons, IH. ring.
Qed.

Lemma exact_dot_scale_r (k : R) (a b : list R) :
  dot a (map (Rmult k) b) = k * dot a b.
Proof.
  revert b. induction a as [|x a IH]; intros b.
  - rewrite !exact_dot_nil_l. ring.
  - destruct b as [|y b].
    + cbn [map]. rewrite !exact_dot_nil_r. ring.
    + cbn [map]. rewrite !exact_dot_cons, IH. ring.
Qed.

Lemma exact_magnitude_scale (k : R) (a : list R) :
  0 <= k -> magnitude (map (Rmult k) a) = k * magnitude a.
Proof.
  intros Hk. unfold magnitude.
  cbn [Math_sqrt exact_arithmetic Exact.number].
  rewrite exact_dot_scale_l, exact_dot_scale_r.
  replace (k * (k * dot a a)) with (k * k * dot a a) by ring.
  rewrite sqrt_mult_alt by nra.
  rewrite sqrt_square by exact Hk. reflexivity.
Qed.

(** X8: in exact arithmetic the distance does not change when a vector is
    stretched by a positive factor: it depends on directions only. *)
Theorem cosineDistance_scale_invariant (k : R) (a b : list R) :
  0 < k ->
  cosineDistance (map (Rmult k) a) b = cosineDistance a b
  /\ cosineDistance a (map (Rmult k) b) = cosineDistance a b.
Proof.
  intros Hk.
  assert (Hl : cosineDistance (map (Rmult k) a) b = cosineDistance a b).
  { destruct (decide (length a = length b)) as [Hlen|Hne].
    - rewrite (cosineDistance_equal_length a b Hlen).
      rewrite (cosineDistance_equal_length (map (Rmult k) a) b)
        by (rewrite length_map; exact Hlen).
      rewrite exact_magnitude_scale by lra. rewrite exact_dot_scale_l.
      cbn [strict_eq zero one sub div mul exact_arithmetic Exact.number].
      destruct (Exact.Reqb (magnitude a) 0) eqn:Ha.
      + apply Reqb_true in Ha. rewrite Ha.
        replace (k * 0) with 0 by ring.
        rewrite (proj2 (Reqb_true 0 0) eq_refl). reflexivity.
      + apply Reqb_false in Ha.
        assert (Hka : k * magnitude a <> 0) by nra.
        rewrite (proj2 (Reqb_false _ _) Hka). cbn [orb].
        destruct (Exact.Reqb (magnitude b) 0) eqn:Hb; [reflexivity|].
        apply Reqb_false in Hb. do 2 f_equal. field. split; [exact Hb|].
        split; [exact Ha|lra].
    - rewrite (cosineDistance_unequal_length a b Hne).
      apply cosineDistance_unequal_length. rewrite length_map. exact Hne. }
  split; [exact Hl|].
  rewrite (cosineDistance_sym (H := exact_arithmetic) Rmult_comm a (map (Rmult k) b)).
  rewrite (cosineDistance_sym (H := exact_arithmetic) Rmult_comm a b).
  destruct (decide (length b = length a)) as [Hlen|Hne].
  - rewrite (cosineDistance_equal_length b a Hlen).
    rewrite (cosineDistance_equal_length (map (Rmult k) b) a)
      by (rewrite length_map; exact Hlen).
    rewrite exact_magnitude_scale by lra. rewrite exact_dot_scale_l.
    cbn [strict_eq zero one sub div mul exact_arithmetic Exact.number].
    destruct (Exact.Reqb (magnitude b) 0) eqn:Hb.
    + apply Reqb_true in Hb. rewrite Hb.
      replace (k * 0) with 0 by ring.
      rewrite (proj2 (Reqb_true 0 0) eq_refl). reflexivity.
    + apply Reqb_false in Hb.
      assert (Hkb : k * magnitude b <> 0) by nra.
      rewrite (proj2 (Reqb_false _ _) Hkb). cbn [orb].
      destruct (Exact.Reqb (magnitude a) 0) eqn:Ha; [reflexivity|].
      apply Reqb_false in Ha. do 2 f_equal. field. split; [exact Ha|].
      split; [exact Hb|lra].
  - rewrite (cosineDistance_unequal_length b a Hne).
    apply cosineDistance_unequal_length. rewrite length_map. exact Hne.
Qed.

End ExactDistanceMore.

Section Binary64Distance.
Local Open Scope float_scope.

Lemma binary64_zero_magnitude (a : list float) :
  Forall (fun x => x = 0 \/ x = -0) a -> magnitude a = 0.
Proof.
  intros Ha. unfold magnitude.
  replace (dot a a) with 0; [reflexivity|].
  symmetry. unfold dot. change (@zero float binary64) with 0.
  induction Ha as [|x a Hx _ IH]; [reflexivity|].
  cbn [combine fold_left fst snd].
  destruct Hx as [->| ->]; exact IH.
Qed.

(** X9: in binary64 a vector of zeros (of either sign) is at distance 1
    from every vector of its length, whatever that one holds. *)
Theorem binary64_zero_vector (a b : list float) :
  Forall (fun x => x = 0 \/ x = -0) a ->
  length a = length b ->
  cosineDistance a b = Ok 1 /\ cosineDistance b a = Ok 1.
Proof.
  intros Ha Hlen. pose proof (binary64_zero_magnitude a Ha) as Hm.
  split.
  - rewrite (cosineDistance_equal_length a b Hlen), Hm. reflexivity.
  - rewrite (cosineDistance_equal_length b a (eq_sym Hlen)), Hm.
    replace (strict_eq (0 : float) 0) with true by reflexivity.
    rewrite orb_true_r. reflexivity.
Qed.

End Binary64Distance.

(** ** The route, request after request *)

Section RouteMore.
Context {num : Type} `{Number num}.
Import Puzzle Server.

Variable puzzleManager : PuzzleManager num.

Lemma post_hint_cases (context : Context) (body : Body) (redis : Redis num) :
  (post_hint puzzleManager context body redis).1 = redis
  /\ (exists error,
        (post_hint puzzleManager context body redis).2
        = Ok (Status 400 error))
  /\ (forall post g, ~ valid_request puzzleManager context body post g)
  \/ exists post g, valid_request puzzleManager context body post g.
Proof.
  unfold post_hint, valid_request.
  destruct (postId context) as [post|] eqn:Hp.
  2:{ left. split_and!; [done|eauto|]. intros post g (? & _). done. }
  destruct (truthy post) eqn:Hpt; simpl.
  2:{ left. split_and!; [done|eauto|]. intros post' g ([= <-] & Hne & _).
      apply truthy_true in Hne. congruence. }
  destruct (guess body) as [g|] eqn:Hg.
  2:{ left. split_and!; [done|eauto|]. intros post' g (_ & _ & ? & _). done. }
  destruct (truthy g) eqn:Hgt; simpl.
  2:{ left. split_and!; [done|eauto|]. intros post' g' (_ & _ & [= <-] & Hne & _).
      apply truthy_true in Hne. congruence. }
  unfold Array_includes. case_bool_decide as Hin; simpl.
  2:{ left. split_and!; [done|eauto|].
      intros post' g' (_ & _ & [= <-] & _ & Hin'). done. }
  right. exists post, g. apply truthy_true in Hpt, Hgt. done.
Qed.

Lemma lazy_target_cases (post : string) (redis : Redis num) :
  (exists targetState,
      targets redis !! target_key post = Some targetState
      /\ lazy_target puzzleManager post redis = (redis, inr targetState))
  \/ (targets redis !! target_key post = None
      /\ exists error,
          lazy_target puzzleManager post redis
          = ((incr_globalWordIndex redis).2, inl (Status 500 error)))
  \/ (targets redis !! target_key post = None
      /\ exists targetState,
          lazy_target puzzleManager post redis
          = (set_target (target_key post) targetState
               (incr_globalWordIndex redis).2, inr targetState)
          /\ targetWord targetState ∈ getShuffledVocabulary puzzleManager
          /\ targetWord targetState <> ""
          /\ stored_embedding puzzleManager targetState).
Proof.
  unfold lazy_target.
  destruct (targets redis !! target_key post) as [ts|] eqn:Ht.
  { left. eauto. }
  right. simpl.
  destruct (getShuffledVocabulary puzzleManager !! _) as [w|] eqn:Hw.
  2:{ left. eauto. }
  destruct (truthy w) eqn:Hwt; simpl.
  2:{ left. eauto. }
  destruct (getEmbedding puzzleManager w) as [e|] eqn:He.
  2:{ left. eauto. }
  right. split; [done|]. eexists. split; [reflexivity|]. simpl.
  split_and!; [|by apply truthy_true|].
  - eapply list_elem_of_lookup_2. exact Hw.
  - exists e. split; [exact He|reflexivity].
Qed.

Lemma lazy_player_cases (key : string) (redis : Redis num) :
  (exists playerState,
      players redis !! key = Some playerState
      /\ lazy_player key redis = (redis, playerState))
  \/ (players redis !! key = None
      /\ lazy_player key redis
         = (set_player key new_player_state redis, new_player_state)).
Proof.
  unfold lazy_player. destruct (players redis !! key) as [ps|]; eauto.
Qed.

Lemma play_cases (key g : string) (targetState : TargetState num)
    (playerState : PlayerState) (redis : Redis num) :
  (play puzzleManager key g targetState playerState redis).1 = redis
  \/ exists playerState',
      (play puzzleManager key g targetState playerState redis).1
      = set_player key playerState' redis
      /\ play_step puzzleManager g targetState playerState playerState'.
Proof.
  unfold play, play_step.
  destruct (default false (solved playerState)) eqn:Hs; [left; done|].
  destruct (String.eqb_spec g (targetWord targetState)) as [Heq|Hne].
  { right. eexists. split; [reflexivity|]. split; [done|]. left. eauto. }
  destruct (Nat.leb_spec 10 (length (guessesHistory playerState ++ [g])))
    as [Hle|Hlt].
  { right. eexists. split; [reflexivity|]. split; [done|]. left. eauto. }
  destruct (findHint _ _ _) as [h|e] eqn:Hh; [|left; done].
  right. eexists. split; [reflexivity|]. split; [done|]. right.
  split_and!; [done|done|]. exists h. split; reflexivity.
Qed.

(** The store a request leaves differs from the one it found at most in the
    counter, the target of the post and the state of the player. *)
Lemma post_hint_store (context : Context) (body : Body) (redis : Redis num) :
  let redis' := (post_hint puzzleManager context body redis).1 in
  redis' = redis
  \/ exists post g,
      valid_request puzzleManager context body post g
      /\ exists redis0,
          (redis0 = redis
           \/ targets redis !! target_key post = None
              /\ (redis0 = (incr_globalWordIndex redis).2
                  \/ exists targetState,
                      redis0 = set_target (target_key post) targetState
                                 (incr_globalWordIndex redis).2
                      /\ targetWord targetState
                           ∈ getShuffledVocabulary puzzleManager
                      /\ targetWord targetState <> ""
                      /\ stored_embedding puzzleManager targetState))
          /\ (redis' = redis0
              \/ redis' = set_player (player_key post (userId context))
                            new_player_state redis0
                 /\ players redis !! player_key post (userId context) = None
              \/ exists targetState playerState playerState',
                  targets redis0 !! target_key post = Some targetState
                  /\ redis' = set_player (player_key post (userId context))
                                playerState' redis0
                  /\ (players redis !! player_key post (userId context)
                      = Some playerState
                      \/ players redis !! player_key post (userId context)
                         = None
                         /\ playerState = new_player_state)
                  /\ play_step puzzleManager g targetState playerState playerState').
Proof.
  intros redis'. unfold redis'.
  destruct (post_hint_cases context body redis)
    as [(Hsame & _)|(post & g & Hvalid)]; [left; exact Hsame|].
  right. exists post, g. split; [exact Hvalid|].
  rewrite (post_hint_valid _ _ _ redis _ _ Hvalid).
  destruct (lazy_target_cases post redis)
    as [(ts & Hts & ->)|[(Hnone & error & ->)|(Hnone & ts & -> & Hts)]].
  - exists redis. split; [left; done|].
    cbn zeta.
    destruct (lazy_player_cases (player_key post (userId context)) redis)
      as [(ps & Hps & ->)|(Hps & ->)].
    + destruct (play_cases (player_key post (userId context)) g ts ps redis)
        as [->|(ps' & -> & Hstep)]; [left; done|].
      right. right. exists ts, ps, ps'. split_and!; eauto.
    + destruct (play_cases (player_key post (userId context)) g ts
                  new_player_state
                  (set_player (player_key post (userId context))
                     new_player_state redis))
        as [->|(ps' & -> & Hstep)]; [right; left; done|].
      right. right. exists ts, new_player_state, ps'.
      split_and!; eauto.
      unfold set_player. simpl. rewrite insert_insert_eq. reflexivity.
  - exists (incr_globalWordIndex redis).2. split; [right; eauto|].
    left. reflexivity.
  - set (redis0 := set_target (target_key post) ts
                     (incr_globalWordIndex redis).2).
    exists redis0. split; [right; split; [done|]; right; exists ts; done|].
    assert (Ht0 : targets redis0 !! target_key post = Some ts)
      by apply lookup_insert_eq.
    cbn zeta.
    destruct (lazy_player_cases (player_key post (userId context)) redis0)
      as [(ps & Hps & ->)|(Hps & ->)].
    + destruct (play_cases (player_key post (userId context)) g ts ps redis0)
        as [->|(ps' & -> & Hstep)]; [left; done|].
      right. right. exists ts, ps, ps'. split_and!; eauto.
    + destruct (play_cases (player_key post (userId context)) g ts
                  new_player_state
                  (set_player (player_key post (userId context))
                     new_player_state redis0))
        as [->|(ps' & -> & Hstep)]; [right; left; done|].
      right. right. exists ts, new_player_state, ps'.
      split_and!; eauto.
      unfold set_player. simpl. rewrite insert_insert_eq. reflexivity.
Qed.

End RouteMore.

Section RouteTheorems.
Context {num : Type} `{Number num}.
Import Puzzle Server.

Lemma post_hint_player_invariant (P : PlayerState -> Prop)
    (puzzleManager : PuzzleManager num) :
  P new_player_state ->
  (forall g targetState playerState playerState',
      P playerState ->
      play_step puzzleManager g targetState playerState playerState' ->
      P playerState') ->
  forall context body redis,
    (forall key playerState,
        players redis !! key = Some playerState -> P playerState) ->
    forall key playerState,
      players (post_hint puzzleManager context body redis).1 !! key
        = Some playerState ->
      P playerState.
Proof.
  intros Hnew Hstep context body redis Hinv key ps'.
  destruct (post_hint_store puzzleManager context body redis)
    as [->|(post & g & _ & redis0 & Hredis0 & Hredis')]; [apply Hinv|].
  assert (Hp0 : players redis0 = players redis).
  { destruct Hredis0 as [->|(_ & [->|(ts & -> & _)])]; reflexivity. }
  destruct Hredis' as [->|[(-> & _)|(ts & ps & ps1 & _ & -> & Hps & Hplay)]].
  - rewrite Hp0. apply Hinv.
  - unfold set_player. simpl. rewrite Hp0.
    destruct (decide (key = player_key post (userId context))) as [->|Hne].
    + rewrite lookup_insert_eq. intros [= <-]. exact Hnew.
    + rewrite lookup_insert_ne by done. apply Hinv.
  - unfold set_player. simpl. rewrite Hp0.
    destruct (decide (key = player_key post (userId context))) as [->|Hne].
    + rewrite lookup_insert_eq. intros [= <-].
      apply (Hstep g ts ps ps1); [|exact Hplay].
      destruct Hps as [Hps|[_ ->]]; [eapply Hinv; exact Hps|exact Hnew].
    + rewrite lookup_insert_ne by done. apply Hinv.
Qed.

Lemma serve_cons (puzzleManager : PuzzleManager num) (context : Context)
    (body : Body) (rest : list (Context * Body)) (redis : Redis num) :
  serve puzzleManager ((context, body) :: rest) redis
  = ((serve puzzleManager rest
        (post_hint puzzleManager context body redis).1).1,
     (post_hint puzzleManager context body redis).2
     :: (serve puzzleManager rest
           (post_hint puzzleManager context body redis).1).2).
Proof.
  simpl. destruct (post_hint puzzleManager context body redis) as [r1 x].
  simpl. destruct (serve puzzleManager rest r1). reflexivity.
Qed.

Lemma serve_player_invariant (P : PlayerState -> Prop)
    (puzzleManager : PuzzleManager num) :
  P new_player_state ->
  (forall g targetState playerState playerState',
      P playerState ->
      play_step puzzleManager g targetState playerState playerState' ->
      P playerState') ->
  forall requests redis,
    (forall key playerState,
        players redis !! key = Some playerState -> P playerState) ->
    forall key playerState,
      players (serve puzzleManager requests redis).1 !! key
        = Some playerState ->
      P playerState.
Proof.
  intros Hnew Hstep requests.
  induction requests as [|[context body] rest IH]; intros redis Hinv.
  - exact Hinv.
  - rewrite serve_cons. cbn [fst]. apply IH.
    apply post_hint_player_invariant; assumption.
Qed.

(** X10: the counts of the sessions are an invariant of the route: if every
    stored session has a hint for each guess and fewer than 10 guesses while
    it runs, and at most 10 guesses and one hint less once it is over, then
    so has every session after any sequence of requests. *)
Theorem serve_session_counts (puzzleManager : PuzzleManager num)
    (requests : list (Context * Body)) (redis : Redis num)
    (key : string) (playerState : PlayerState) :
  (forall key' playerState',
      players redis !! key' = Some playerState' ->
      session_counts playerState') ->
  players (serve puzzleManager requests redis).1 !! key = Some playerState ->
  session_counts playerState.
Proof.
  intros Hinv. revert key playerState.
  apply serve_player_invariant; [| |exact Hinv].
  - unfold session_counts. simpl. lia.
  - intros g ts ps ps' Hps (Hs & [(-> & _)|(Hlt & _ & h & _ & ->)]);
      unfold session_counts in *; rewrite Hs in Hps;
      cbn [solved guessesHistory usedHints default option_rect from_option] in *;
      try rewrite Hs; rewrite ?length_app in *; simpl in *; lia.
Qed.

(** X11: no hint but the last resort is given twice in a session: stores
    whose sessions have distinct hints keep that through any sequence of
    requests. *)
Theorem serve_distinct_hints (puzzleManager : PuzzleManager num)
    (requests : list (Context * Body)) (redis : Redis num)
    (key : string) (playerState : PlayerState) :
  (forall key' playerState',
      players redis !! key' = Some playerState' ->
      distinct_hints playerState') ->
  players (serve puzzleManager requests redis).1 !! key = Some playerState ->
  distinct_hints playerState.
Proof.
  intros Hinv. revert key playerState.
  apply serve_player_invariant; [| |exact Hinv].
  - unfold distinct_hints. simpl. constructor.
  - intros g ts ps ps' Hps (Hs & [(-> & _)|(Hlt & _ & h & Hh & ->)]);
      unfold distinct_hints in *; cbn [usedHints] in *; [exact Hps|].
    rewrite filter_app. apply NoDup_app. split; [exact Hps|].
    apply findHint_fresh in Hh. cbn [gameState_of Puzzle.usedHints] in Hh.
    split.
    + intros x Hx Hx'. apply list_elem_of_filter in Hx as [Hxu Hx].
      rewrite filter_cons, filter_nil in Hx'.
      case_decide as Hhu; [|inversion Hx'].
      apply list_elem_of_singleton in Hx' as ->.
      destruct Hh as [Hh|Hh]; [done|]. exact (Hh Hx).
    + rewrite filter_cons, filter_nil. case_decide; [|constructor].
      apply NoDup_singleton.
Qed.

Lemma post_hint_targets (puzzleManager : PuzzleManager num)
    (context : Context) (body : Body) (redis : Redis num) :
  let redis' := (post_hint puzzleManager context body redis).1 in
  targets redis ⊆ targets redis'
  /\ globalWordIndex redis <= globalWordIndex redis'
     <= S (globalWordIndex redis)
  /\ size (targets redis') + globalWordIndex redis
     <= size (targets redis) + globalWordIndex redis'
  /\ forall key targetState,
       targets redis' !! key = Some targetState ->
       targets redis !! key = Some targetState
       \/ targetWord targetState ∈ getShuffledVocabulary puzzleManager
          /\ targetWord targetState <> ""
          /\ stored_embedding puzzleManager targetState.
Proof.
  intros redis'. unfold redis'.
  destruct (post_hint_store puzzleManager context body redis)
    as [->|(post & g & _ & redis0 & Hredis0 & Hredis')].
  { split_and!; try done; try lia. eauto. }
  assert (Ht : targets (post_hint puzzleManager context body redis).1
               = targets redis0
               /\ globalWordIndex
                    (post_hint puzzleManager context body redis).1
                  = globalWordIndex redis0).
  { destruct Hredis' as [->|[(-> & _)|(ts & ps & ps1 & _ & -> & _)]];
      split; reflexivity. }
  destruct Ht as [-> ->].
  destruct Hredis0 as [->|(Hnone & [->|(ts & -> & Hts)])].
  - split_and!; try done; try lia. eauto.
  - simpl. split_and!; try done; try lia. eauto.
  - simpl. split_and!; try lia.
    + apply insert_subseteq. exact Hnone.
    + rewrite map_size_insert_None by exact Hnone. lia.
    + intros key ts'.
      destruct (decide (key = target_key post)) as [->|Hne].
      * rewrite lookup_insert_eq. intros [= <-]. right. exact Hts.
      * rewrite lookup_insert_ne by done. eauto.
Qed.

(** X12: a target, once stored, is never changed or removed; the counter
    never decreases and grows by at most one for each request, and by at
    least one for each target created. *)
Theorem serve_targets (puzzleManager : PuzzleManager num)
    (requests : list (Context * Body)) (redis : Redis num) :
  let redis' := (serve puzzleManager requests redis).1 in
  targets redis ⊆ targets redis'
  /\ globalWordIndex redis <= globalWordIndex redis'
     <= globalWordIndex redis + length requests
  /\ size (targets redis') + globalWordIndex redis
     <= size (targets redis) + globalWordIndex redis'.
Proof.
  revert redis. induction requests as [|[context body] rest IH]; intros redis.
  - simpl. split_and!; try done; lia.
  - cbn zeta. rewrite serve_cons. cbn [fst length].
    destruct (post_hint_targets puzzleManager context body redis)
      as (Hsub & Hidx & Hsize & _).
    destruct (IH (post_hint puzzleManager context body redis).1)
      as (Hsub' & Hidx' & Hsize').
    split_and!; try lia. etrans; eassumption.
Qed.

Lemma findHint_total (table : PuzzleData num) (guess : string)
    (gameState : GameState num) (dim : nat) :
  uniform_table dim table ->
  length (Puzzle.targetEmbedding gameState) = dim ->
  exists w, findHint (new_PuzzleManager table) guess gameState = Ok w.
Proof.
  intros Hu Ht. apply (findHint_returns table guess gameState dim).
  split; assumption.
Qed.

Lemma uniform_table_getEmbedding (table : PuzzleData num) (dim : nat)
    (w : string) (e : list num) :
  uniform_table dim table ->
  getEmbedding (new_PuzzleManager table) w = Some e -> length e = dim.
Proof.
  intros Hu Hw. apply constructor_loop_lookup in Hw as (i & _ & He & _).
  apply embedding_at_Some in He.
  unfold uniform_table in Hu. rewrite Forall_lookup in Hu.
  exact (Hu i _ He).
Qed.

Lemma post_hint_no_exception (table : PuzzleData num) (dim : nat)
    (context : Context) (body : Body) (redis : Redis num) :
  let puzzleManager := new_PuzzleManager table in
  uniform_table dim table ->
  targets_from puzzleManager redis ->
  (exists response,
      (post_hint puzzleManager context body redis).2 = Ok response)
  /\ targets_from puzzleManager
       (post_hint puzzleManager context body redis).1.
Proof.
  intros puzzleManager Hu Hfrom. split.
  2:{ intros key ts Hts.
      destruct (post_hint_targets puzzleManager context body redis)
        as (_ & _ & _ & Hnew).
      destruct (Hnew key ts Hts) as [Hold|(Hin & Hne & He)];
        [exact (Hfrom key ts Hold)|].
      split_and!; [|done|done].
      unfold puzzleManager in Hin. simpl in Hin.
      rewrite shuffleWithSeed_perm in Hin. exact Hin. }
  destruct (post_hint_cases puzzleManager context body redis)
    as [(_ & (error & ->) & _)|(post & g & Hvalid)]; [eauto|].
  rewrite (post_hint_valid _ _ _ redis _ _ Hvalid).
  assert (Hplay : forall key ts ps redis1,
             stored_embedding puzzleManager ts ->
             exists response,
               (play puzzleManager key g ts ps redis1).2 = Ok response).
  { intros key ts ps redis1 (e & He & Hstored). unfold play.
    destruct (default false (solved ps)); [eauto|].
    destruct (String.eqb g (targetWord ts)); [eauto|].
    destruct (10 <=? _); [eauto|].
    match goal with
    | |- context [findHint ?m ?g ?gs] =>
        destruct (findHint_total table g gs dim Hu) as [w Hw]
    end.
    { simpl. rewrite Hstored, length_map.
      eapply uniform_table_getEmbedding; eassumption. }
    fold puzzleManager in Hw. rewrite Hw. simpl. eauto. }
  destruct (lazy_target_cases puzzleManager post redis)
    as [(ts & Hts & ->)|[(Hnone & error & ->)|(Hnone & ts & -> & Hts)]].
  - cbn zeta.
    destruct (lazy_player _ _) as [redis1 ps]. apply Hplay.
    apply (Hfrom _ _ Hts).
  - eauto.
  - cbn zeta. destruct (lazy_player _ _) as [redis1 ps]. apply Hplay.
    apply Hts.
Qed.

(** X13: on a table without [null] and with vectors of one dimension, no
    request makes the handler raise, from any store whose targets the
    handler created: vocabulary words with the embedding of the manager as
    it reads back from its JSON text ([-0] as [0]).  The store keeps
    that. *)
Theorem serve_no_exception (table : PuzzleData num) (dim : nat)
    (requests : list (Context * Body)) (redis : Redis num) :
  let puzzleManager := new_PuzzleManager table in
  uniform_table dim table ->
  targets_from puzzleManager redis ->
  Forall (fun outcome => exists response, outcome = Ok response)
    (serve puzzleManager requests redis).2
  /\ targets_from puzzleManager (serve puzzleManager requests redis).1.
Proof.
  intros puzzleManager Hu. revert redis.
  induction requests as [|[context body] rest IH]; intros redis Hfrom.
  - simpl. split; [constructor|exact Hfrom].
  - rewrite serve_cons. cbn [fst snd].
    destruct (post_hint_no_exception table dim context body redis Hu Hfrom)
      as [Hok Hfrom'].
    destruct (IH _ Hfrom') as [Hall Hfrom''].
    split; [constructor; assumption|assumption].
Qed.

Lemma play_response (puzzleManager : PuzzleManager num) (key g : string)
    (targetState : TargetState num) (playerState : PlayerState)
    (redis : Redis num) (code : nat) (error : string) :
  (play puzzleManager key g targetState playerState redis).2
  <> Ok (Status code error).
Proof.
  unfold play.
  destruct (default false (solved playerState)); [discriminate|].
  destruct (String.eqb g (targetWord targetState)); [discriminate|].
  destruct (10 <=? _); [discriminate|].
  destruct (findHint _ _ _); discriminate.
Qed.

(** X14: an error reply leaves every target and every player state as it
    was.  A 400 is the answer to the requests that fail the validation, and
    then the store is untouched; a 500 is the answer to a valid request on
    a post without a target, and it uses up one value of the counter. *)
Theorem post_hint_status (puzzleManager : PuzzleManager num)
    (context : Context) (body : Body) (redis redis' : Redis num)
    (code : nat) (error : string) :
  post_hint puzzleManager context body redis
    = (redis', Ok (Status code error)) ->
  players redis' = players redis
  /\ targets redis' = targets redis
  /\ (code = 400 /\ redis' = redis
      /\ (forall post g, ~ valid_request puzzleManager context body post g)
      \/ code = 500
         /\ globalWordIndex redis' = S (globalWordIndex redis)
         /\ exists post g,
             valid_request puzzleManager context body post g
             /\ targets redis !! target_key post = None).
Proof.
  intros Hpost.
  destruct (post_hint_cases puzzleManager context body redis)
    as [(Hsame & (error' & Herr) & Hinvalid)|(post & g & Hvalid)].
  - rewrite Hpost in Hsame, Herr. simpl in Hsame, Herr. subst redis'.
    injection Herr as -> _. split_and!; try done. left. done.
  - rewrite (post_hint_valid _ _ _ redis _ _ Hvalid) in Hpost.
    destruct (lazy_target_cases puzzleManager post redis)
      as [(ts & Hts & Hl)|[(Hnone & error' & Hl)|(Hnone & ts & Hl & _)]];
      rewrite Hl in Hpost.
    + cbn zeta in Hpost. destruct (lazy_player _ _) as [redis1 ps].
      exfalso. eapply play_response. rewrite Hpost. reflexivity.
    + injection Hpost as <- <- <-. split_and!; try done.
      right. split_and!; try done. eauto.
    + cbn zeta in Hpost. destruct (lazy_player _ _) as [redis1 ps].
      exfalso. eapply play_response. rewrite Hpost. reflexivity.
Qed.

(** X15: a request touches no other key than the target of its post and the
    state of its player. *)
Theorem post_hint_frame (puzzleManager : PuzzleManager num)
    (context : Context) (body : Body) (redis : Redis num) (post : string) :
  postId context = Some post ->
  let redis' := (post_hint puzzleManager context body redis).1 in
  (forall key, key <> target_key post ->
     targets redis' !! key = targets redis !! key)
  /\ (forall key, key <> player_key post (userId context) ->
        players redis' !! key = players redis !! key).
Proof.
  intros Hpost redis'. unfold redis'.
  destruct (post_hint_store puzzleManager context body redis)
    as [->|(post' & g & Hvalid & redis0 & Hredis0 & Hredis')]; [done|].
  assert (post' = post) as ->.
  { destruct Hvalid as [Hp _]. congruence. }
  assert (H0 : (forall key, key <> target_key post ->
                  targets redis0 !! key = targets redis !! key)
               /\ players redis0 = players redis).
  { destruct Hredis0 as [->|(_ & [->|(ts & -> & _)])]; split; try done.
    intros key Hne. simpl. rewrite lookup_insert_ne by done. reflexivity. }
  destruct H0 as [Ht0 Hp0].
  destruct Hredis' as [->|[(-> & _)|(ts & ps & ps1 & _ & -> & _)]].
  - split; [exact Ht0|]. intros key _. rewrite Hp0. reflexivity.
  - split; [exact Ht0|]. intros key Hne. simpl.
    rewrite lookup_insert_ne by done. rewrite Hp0. reflexivity.
  - split; [exact Ht0|]. intros key Hne. simpl.
    rewrite lookup_insert_ne by done. rewrite Hp0. reflexivity.
Qed.

Lemma complete_table_getEmbedding (table : PuzzleData num) (w : string) :
  complete_table table -> w ∈ hint_vocabulary table ->
  w <> "" /\ is_Some (getEmbedding (new_PuzzleManager table) w).
Proof.
  intros Hc Hin. apply list_elem_of_lookup_1 in Hin as [i Hi].
  destruct (Hc i w Hi) as [Hne He]. split; [exact Hne|].
  exact (constructor_loop_is_Some table i w Hne Hi He).
Qed.

Lemma lazy_target_complete (table : PuzzleData num) (post : string)
    (redis : Redis num) :
  complete_table table -> hint_vocabulary table <> [] ->
  targets redis !! target_key post = None ->
  exists targetState,
    lazy_target (new_PuzzleManager table) post redis
    = (set_target (target_key post) targetState
         (incr_globalWordIndex redis).2, inr targetState).
Proof.
  intros Hc Hne Hnone. unfold lazy_target. rewrite Hnone. simpl.
  set (shuffled := shuffleWithSeed (hint_vocabulary table) "devvit-rocks").
  assert (Hlen : length shuffled = length (hint_vocabulary table))
    by apply shuffleWithSeed_length.
  assert (Hpos : 0 < length shuffled).
  { rewrite Hlen. destruct (hint_vocabulary table); [done|simpl; lia]. }
  destruct (lookup_lt_is_Some_2 shuffled
              (S (globalWordIndex redis) mod length shuffled)) as [w Hw].
  { apply Nat.mod_upper_bound. lia. }
  rewrite Hw.
  assert (Hin : w ∈ hint_vocabulary table).
  { rewrite <- (shuffleWithSeed_perm (hint_vocabulary table) "devvit-rocks").
    eapply list_elem_of_lookup_2. exact Hw. }
  destruct (complete_table_getEmbedding table w Hc Hin) as [Hwne [e He]].
  rewrite (proj2 (truthy_true w) Hwne). simpl.
  rewrite He. eauto.
Qed.

Lemma post_hint_complete (table : PuzzleData num) (context : Context)
    (body : Body) (redis : Redis num) :
  let puzzleManager := new_PuzzleManager table in
  let redis' := (post_hint puzzleManager context body redis).1 in
  complete_table table ->
  (forall error,
      (post_hint puzzleManager context body redis).2
      <> Ok (Status 500 error))
  /\ size (targets redis') + globalWordIndex redis
     = size (targets redis) + globalWordIndex redis'.
Proof.
  intros puzzleManager redis' Hc. unfold redis'.
  destruct (post_hint_cases puzzleManager context body redis)
    as [(-> & (error' & ->) & _)|(post & g & Hvalid)].
  { split; [intros error; discriminate|reflexivity]. }
  rewrite (post_hint_valid _ _ _ redis _ _ Hvalid).
  assert (Hne : hint_vocabulary table <> []).
  { destruct Hvalid as (_ & _ & _ & _ & Hin). intros Hnil.
    change (g ∈ hint_vocabulary table) in Hin. rewrite Hnil in Hin.
    inversion Hin. }
  assert (Hplay : forall key ts ps redis1,
             (forall error,
                 (play puzzleManager key g ts ps redis1).2
                 <> Ok (Status 500 error))
             /\ targets (play puzzleManager key g ts ps redis1).1
                = targets redis1
             /\ globalWordIndex (play puzzleManager key g ts ps redis1).1
                = globalWordIndex redis1).
  { intros key ts ps redis1. split; [intros error; apply play_response|].
    destruct (play_cases puzzleManager key g ts ps redis1)
      as [->|(ps' & -> & _)]; done. }
  assert (Hlp : forall key (redis0 : Redis num),
             targets (lazy_player key redis0).1 = targets redis0
             /\ globalWordIndex (lazy_player key redis0).1
                = globalWordIndex redis0).
  { intros key redis0.
    destruct (lazy_player_cases key redis0) as [(ps & _ & ->)|(_ & ->)];
      done. }
  destruct (targets redis !! target_key post) as [ts|] eqn:Hts.
  - unfold lazy_target. rewrite Hts. cbn zeta.
    specialize (Hlp (player_key post (userId context)) redis).
    destruct (lazy_player _ _) as [redis1 ps]. simpl in Hlp.
    destruct (Hplay (player_key post (userId context)) ts ps redis1)
      as (Hr & -> & ->).
    destruct Hlp as [-> ->]. done.
  - destruct (lazy_target_complete table post redis Hc Hne Hts) as [ts Hl].
    fold puzzleManager in Hl. rewrite Hl. cbn zeta.
    specialize (Hlp (player_key post (userId context))
                  (set_target (target_key post) ts
                     (incr_globalWordIndex redis).2)).
    destruct (lazy_player _ _) as [redis1 ps]. simpl in Hlp.
    destruct (Hplay (player_key post (userId context)) ts ps redis1)
      as (Hr & -> & ->).
    destruct Hlp as [-> ->]. split; [exact Hr|].
    rewrite map_size_insert_None by exact Hts. lia.
Qed.

(** X16: when every vocabulary entry is a word with an embedding in its slot,
    the handler never answers 500, and the counter counts the targets:
    every post gets the next word of the rotation. *)
Theorem serve_complete_table (table : PuzzleData num)
    (requests : list (Context * Body)) (redis : Redis num) :
  let puzzleManager := new_PuzzleManager table in
  let redis' := (serve puzzleManager requests redis).1 in
  complete_table table ->
  Forall (fun outcome => forall error, outcome <> Ok (Status 500 error))
    (serve puzzleManager requests redis).2
  /\ size (targets redis') + globalWordIndex redis
     = size (targets redis) + globalWordIndex redis'.
Proof.
  intros puzzleManager redis' Hc. unfold redis'. clear redis'. revert redis.
  induction requests as [|[context body] rest IH]; intros redis.
  - simpl. split; [constructor|reflexivity].
  - rewrite serve_cons. cbn [fst snd].
    destruct (post_hint_complete table context body redis Hc) as [Hr Hs].
    destruct (IH (post_hint puzzleManager context body redis).1)
      as [Hall Hs'].
    split; [constructor; assumption|].
    fold puzzleManager in Hs. lia.
Qed.

End RouteTheorems.

(** ** The keys *)

Section KeyFacts.
Import Server.

Lemma no_colon_tail (c : Ascii.ascii) (s : string) :
  ~ is_substring ":" (String c s) -> ~ is_substring ":" s.
Proof.
  intros Hs (pre & post & ->). apply Hs.
  exists (String c pre), post. rewrite append_cons. reflexivity.
Qed.

Lemma colon_split_inj (p p' r r' : string) :
  ~ is_substring ":" p -> ~ is_substring ":" p' ->
  p +:+ ":" +:+ r = p' +:+ ":" +:+ r' -> p = p' /\ r = r'.
Proof.
  revert p'. induction p as [|c p IH]; intros [|c' p'] Hp Hp' Heq.
  - rewrite !append_nil in Heq. apply String.app_inj in Heq. done.
  - exfalso. apply Hp'. rewrite append_nil, !append_cons in Heq.
    rewrite append_nil in Heq.
    injection Heq as <- _. exists "", p'. rewrite append_nil, append_cons.
    rewrite append_nil. reflexivity.
  - exfalso. apply Hp. rewrite append_nil, !append_cons in Heq.
    rewrite append_nil in Heq.
    injection Heq as -> _. exists "", p. rewrite append_nil, append_cons.
    rewrite append_nil. reflexivity.
  - rewrite !append_cons in Heq. injection Heq as -> Heq.
    apply no_colon_tail in Hp, Hp'.
    destruct (IH p' Hp Hp' Heq) as [-> ->]. done.
Qed.

(** X17: the keys of the targets tell the posts apart, and the keys of the
    players tell the sessions apart when post ids hold no colon; with a
    colon in a post id, or a user called [undefined], two sessions can share
    a key. *)
Theorem session_keys :
  (forall post post', target_key post = target_key post' -> post = post')
  /\ (forall post user post' user',
        ~ is_substring ":" post -> ~ is_substring ":" post' ->
        player_key post user = player_key post' user' ->
        post = post'
        /\ default "undefined" user = default "undefined" user')
  /\ player_key "a:b" (Some "c") = player_key "a" (Some "b:c")
  /\ player_key "a" None = player_key "a" (Some "undefined").
Proof.
  split_and!; [| |reflexivity|reflexivity].
  - intros post post' Heq. unfold target_key in Heq.
    apply String.app_inj in Heq. exact Heq.
  - intros post user post' user' Hp Hp' Heq. unfold player_key in Heq.
    apply String.app_inj in Heq.
    apply colon_split_inj; assumption.
Qed.

End KeyFacts.

(** ** The page *)

Section ClientFacts.
Context {num : Type} `{Number num}.
Import Puzzle Client.

(** One call of [handleGuess] on an initialised page. *)
Lemma handleGuess_step (puzzleManager : PuzzleManager num)
    (gameState : GameState num) (guess : string) :
  exists gameState',
    Client.gameState
      (handleGuess (Some puzzleManager) (Some gameState) guess)
    = Some gameState'
    /\ targetWord gameState' = targetWord gameState
    /\ targetEmbedding gameState' = targetEmbedding gameState
    /\ (guessesHistory gameState' = guessesHistory gameState
        \/ guessesHistory gameState' = guessesHistory gameState ++ [guess]
           /\ (guess ∉ guessesHistory gameState)
           /\ guess <> targetWord gameState
           /\ solved gameState' = solved gameState).
Proof.
  unfold handleGuess.
  destruct (negb (truthy guess)); [eexists; split_and!; eauto|].
  unfold Array_includes. case_bool_decide as Hin;
    [eexists; split_and!; eauto|].
  destruct (getEmbedding puzzleManager guess) as [ge|];
    [|eexists; split_and!; eauto].
  destruct (String.eqb_spec guess (targetWord gameState)) as [Heq|Hne];
    [eexists; split_and!; eauto|].
  cbn [guessesHistory targetWord targetEmbedding usedHints solved].
  destruct (_ <=? 0)%Z.
  { eexists. split_and!; [reflexivity|reflexivity|reflexivity|].
    right. done. }
  destruct (findHint _ _ _) as [hint|].
  2:{ eexists. split_and!; [reflexivity|reflexivity|reflexivity|].
      right. done. }
  destruct (cosineDistance _ _);
    (eexists; split_and!; [reflexivity|reflexivity|reflexivity|];
     right; done).
Qed.

Lemma handleGuesses_cons (puzzleManager : option (PuzzleManager num))
    (gameState : option (GameState num)) (guess : string)
    (rest : list string) :
  handleGuesses puzzleManager gameState (guess :: rest)
  = (handleGuess puzzleManager gameState guess
     :: (handleGuesses puzzleManager
           (Client.gameState (handleGuess puzzleManager gameState guess))
           rest).1,
     (handleGuesses puzzleManager
        (Client.gameState (handleGuess puzzleManager gameState guess))
        rest).2).
Proof.
  simpl. destruct (handleGuesses _ _ rest). reflexivity.
Qed.

(** X18: the page never records a word twice, and never records the target:
    for a history without repetition that does not hold the target, the
    history after any sequence of guesses extends it and is such a history
    again. *)
Theorem handleGuesses_history (puzzleManager : PuzzleManager num)
    (gameState : GameState num) (guesses : list string) :
  NoDup (guessesHistory gameState) ->
  (targetWord gameState ∉ guessesHistory gameState) ->
  exists gameState',
    (handleGuesses (Some puzzleManager) (Some gameState) guesses).2
    = Some gameState'
    /\ targetWord gameState' = targetWord gameState
    /\ guessesHistory gameState `prefix_of` guessesHistory gameState'
    /\ NoDup (guessesHistory gameState')
    /\ (targetWord gameState' ∉ guessesHistory gameState').
Proof.
  revert gameState.
  induction guesses as [|guess rest IH]; intros gameState Hnd Hnt.
  - exists gameState. simpl. split_and!; done.
  - rewrite handleGuesses_cons. cbn [snd].
    destruct (handleGuess_step puzzleManager gameState guess)
      as (gs1 & -> & Ht & _ & Hh).
    assert (Hnd1 : NoDup (guessesHistory gs1)
                   /\ (targetWord gs1 ∉ guessesHistory gs1)
                   /\ guessesHistory gameState
                        `prefix_of` guessesHistory gs1).
    { rewrite Ht. destruct Hh as [->|(-> & Hfresh & Hne & _)].
      - done.
      - split_and!.
        + apply NoDup_app. split_and!; [done| |apply NoDup_singleton].
          intros x Hx Hx'. apply list_elem_of_singleton in Hx' as ->. done.
        + rewrite elem_of_app, list_elem_of_singleton. intros [?|?]; done.
        + apply prefix_app_r. done. }
    destruct Hnd1 as (Hnd1 & Hnt1 & Hpre).
    destruct (IH gs1 Hnd1 Hnt1) as (gs' & -> & Ht' & Hpre' & Hnd' & Hnt').
    exists gs'. split_and!; try done; [congruence|].
    etrans; eassumption.
Qed.

(** X19: the page has no ceiling of its own.  Every new wrong guess of a known
    word is recorded, however many were made; from the tenth on the answer
    is "out of guesses", the state is saved, and the inputs are left as
    open as before. *)
Theorem handleGuesses_no_ceiling (puzzleManager : PuzzleManager num)
    (gameState : GameState num) (guesses : list string) :
  Forall (fun guess =>
            guess <> "" /\ guess <> targetWord gameState
            /\ is_Some (getEmbedding puzzleManager guess)) guesses ->
  NoDup (guessesHistory gameState ++ guesses) ->
  let run := handleGuesses (Some puzzleManager) (Some gameState) guesses in
  (exists gameState',
      run.2 = Some gameState'
      /\ guessesHistory gameState'
         = guessesHistory gameState ++ guesses
      /\ solved gameState' = solved gameState)
  /\ length run.1 = length guesses
  /\ forall i outcome,
       run.1 !! i = Some outcome ->
       disabled outcome = Some (default false (solved gameState))
       /\ (10 <= length (guessesHistory gameState) + S i ->
           message outcome = Some (OutOfGuesses (targetWord gameState))
           /\ exists playerState,
               saved outcome = Some playerState
               /\ Server.guessesHistory playerState
                  = guessesHistory gameState ++ take (S i) guesses).
Proof.
  revert gameState.
  induction guesses as [|guess rest IH]; intros gameState Hall Hnd run.
  - unfold run. simpl. split_and!; [|done|].
    + exists gameState. rewrite app_nil_r. done.
    + intros i outcome Hi. rewrite lookup_nil in Hi. discriminate.
  - apply Forall_cons in Hall as [(Hne & Hnt & [ge Hge]) Hall].
    assert (Hfresh : guess ∉ guessesHistory gameState).
    { apply NoDup_app in Hnd as (_ & Hdisj & _). intros Hin.
      apply (Hdisj guess Hin). left. }
    set (gs1 := {| targetWord := targetWord gameState;
                   targetEmbedding := targetEmbedding gameState;
                   guessesHistory := guessesHistory gameState ++ [guess];
                   usedHints := usedHints gameState;
                   solved := solved gameState |}).
    assert (Hstep : exists gs2 m s,
               handleGuess (Some puzzleManager) (Some gameState) guess
               = {| Client.gameState := Some gs2; message := Some m;
                    saved := s;
                    disabled := Some (default false (solved gameState)) |}
               /\ targetWord gs2 = targetWord gameState
               /\ guessesHistory gs2 = guessesHistory gameState ++ [guess]
               /\ solved gs2 = solved gameState
               /\ (10 <= length (guessesHistory gameState) + 1 ->
                   m = OutOfGuesses (targetWord gameState)
                   /\ s = Some (saveGameState gs1))).
    { unfold handleGuess.
      rewrite (proj2 (truthy_true guess) Hne). cbn [negb].
      unfold Array_includes. rewrite bool_decide_eq_false_2 by exact Hfresh.
      rewrite Hge.
      destruct (String.eqb_spec guess (targetWord gameState)); [done|].
      cbn [guessesHistory targetWord targetEmbedding usedHints solved].
      fold gs1.
      destruct (Z.leb_spec
                  (10 - Z.of_nat (length (guessesHistory gameState
                                          ++ [guess]))) 0) as [Hle|Hgt].
      { exists gs1, (OutOfGuesses (targetWord gameState)),
          (Some (saveGameState gs1)). split_and!; done. }
      rewrite length_app in Hgt. simpl in Hgt.
      destruct (findHint puzzleManager guess gs1) as [hint|].
      2:{ exists gs1, UnexpectedError, None. split_and!; try done. lia. }
      cbn [targetEmbedding].
      destruct (cosineDistance ge (targetEmbedding gameState)) as [d|].
      - eexists _, _, _. split_and!; [reflexivity|done|done|done|lia].
      - eexists _, _, _. split_and!; [reflexivity|done|done|done|lia]. }
    destruct Hstep as (gs2 & m & s & Hout & Ht2 & Hh2 & Hs2 & Hten).
    unfold run. rewrite handleGuesses_cons, Hout. cbn [Client.gameState].
    destruct (IH gs2) as ((gs' & Hfin & Hh' & Hs') & Hlen & Hrest).
    { rewrite Ht2. exact Hall. }
    { rewrite Hh2, <- app_assoc. exact Hnd. }
    cbn [fst snd]. split_and!.
    + exists gs'. rewrite Hfin, Hh', Hh2, Hs', Hs2, <- app_assoc. done.
    + simpl. rewrite Hlen. reflexivity.
    + intros [|i] outcome Hi.
      * injection Hi as <-. cbn [disabled message saved]. split; [done|].
        intros H10. destruct Hten as [-> ->]; [lia|].
        split; [done|]. eexists. split; [reflexivity|]. reflexivity.
      * cbn [lookup list_lookup] in Hi.
        destruct (Hrest i outcome Hi) as [Hd Hm]. rewrite Hs2 in Hd.
        split; [exact Hd|]. intros H10.
        destruct Hm as (Hm & ps & Hsv & Hps).
        { rewrite Hh2, length_app. simpl. lia. }
        rewrite Ht2 in Hm. split; [exact Hm|].
        exists ps. split; [exact Hsv|].
        rewrite Hps, Hh2, <- app_assoc. reflexivity.
Qed.

Lemma handleGuess_no_error (table : PuzzleData num) (dim : nat)
    (gameState : GameState num) (guess : string) :
  uniform_table dim table ->
  length (targetEmbedding gameState) = dim ->
  message (handleGuess (Some (new_PuzzleManager table)) (Some gameState)
             guess)
  <> Some UnexpectedError.
Proof.
  intros Hu Hdim. unfold handleGuess.
  destruct (negb (truthy guess)); [discriminate|].
  destruct (Array_includes _ _); [discriminate|].
  destruct (getEmbedding (new_PuzzleManager table) guess) as [ge|] eqn:Hge;
    [|discriminate].
  destruct (String.eqb guess (targetWord gameState)); [discriminate|].
  cbn [guessesHistory targetWord targetEmbedding usedHints solved].
  destruct (_ <=? 0)%Z; [discriminate|].
  match goal with
  | |- context [findHint ?m ?g ?gs] =>
      destruct (findHint_total table g gs dim Hu Hdim) as [w Hw];
      destruct (findHint_distance m g gs ge w Hge Hw) as [D HD]
  end.
  rewrite Hw. cbn [targetEmbedding] in HD |- *. rewrite HD. discriminate.
Qed.

(** X20: on a table without [null] and with vectors of one dimension, a page
    that [initializeGame] has set up never answers a guess with "An
    unexpected error occurred." *)
Theorem initializeGame_no_error (table : PuzzleData num) (dim : nat)
    (targetWord : string) (playerState : Server.PlayerState)
    (puzzleManager : PuzzleManager num) (gameState : GameState num)
    (guesses : list string) :
  uniform_table dim table ->
  initializeGame table targetWord playerState
    = (puzzleManager, Some gameState) ->
  Forall (fun outcome => message outcome <> Some UnexpectedError)
    (handleGuesses (Some puzzleManager) (Some gameState) guesses).1.
Proof.
  intros Hu Hinit. unfold initializeGame in Hinit. cbn [getPuzzleManager
    getInstance fst] in Hinit.
  destruct (getEmbedding (new_PuzzleManager table) targetWord)
    as [te|] eqn:Hte; [|discriminate].
  injection Hinit as <- <-.
  pose proof (uniform_table_getEmbedding table dim _ _ Hu Hte) as Hdim.
  set (gs := {| Puzzle.targetWord := targetWord;
                targetEmbedding := te;
                guessesHistory := Server.guessesHistory playerState;
                usedHints := Server.usedHints playerState;
                solved := Server.solved playerState |}).
  assert (Hgs : length (targetEmbedding gs) = dim) by exact Hdim.
  clearbody gs. clear Hte Hdim. revert gs Hgs.
  induction guesses as [|guess rest IH]; intros gs Hgs.
  - constructor.
  - rewrite handleGuesses_cons. cbn [fst]. constructor.
    + apply (handleGuess_no_error table dim gs guess Hu Hgs).
    + destruct (handleGuess_step (new_PuzzleManager table) gs guess)
        as (gs1 & -> & _ & Hte1 & _).
      apply IH. rewrite Hte1. exact Hgs.
Qed.

(** X21: the page and the route play the same game on a hint, and differ on a
    win and on a loss.  For a running session and a new guess of a known
    word: when a hint is due both compute the same one and save the same
    state (and both fail when [findHint] raises); on a win the route records
    the guess and the page does not; on the tenth wrong guess the route
    closes the session and the page does not. *)
Theorem handleGuess_and_play (puzzleManager : PuzzleManager num)
    (gameState : GameState num) (guess : string) (key : string)
    (redis : Server.Redis num) (guessEmbedding : list num) :
  let targetState :=
    {| Server.targetWord := targetWord gameState;
       Server.targetEmbedding := targetEmbedding gameState |} in
  let history := guessesHistory gameState ++ [guess] in
  let outcome :=
    handleGuess (Some puzzleManager) (Some gameState) guess in
  let served :=
    Server.play puzzleManager key guess targetState
      (saveGameState gameState) redis in
  getEmbedding puzzleManager guess = Some guessEmbedding ->
  guess <> "" ->
  (guess ∉ guessesHistory gameState) ->
  default false (solved gameState) = false ->
  (guess <> targetWord gameState -> length history < 10 ->
   (forall response,
       served.2 = Ok response ->
       exists hint distance,
         response = Hinted hint (10 - Z.of_nat (length history))
         /\ message outcome
            = Some (HintGiven guess distance hint
                      (10 - Z.of_nat (length history)))
         /\ saved outcome = Server.players served.1 !! key)
   /\ (is_Throw served.2 ->
       message outcome = Some UnexpectedError
       /\ saved outcome = None /\ served.1 = redis))
  /\ (guess = targetWord gameState ->
      Server.players served.1 !! key
      = Some {| Server.guessesHistory := history;
                Server.usedHints := usedHints gameState;
                Server.solved := Some true |}
      /\ saved outcome
         = Some {| Server.guessesHistory := guessesHistory gameState;
                   Server.usedHints := usedHints gameState;
                   Server.solved := Some true |})
  /\ (guess <> targetWord gameState -> 10 <= length history ->
      Server.players served.1 !! key
      = Some {| Server.guessesHistory := history;
                Server.usedHints := usedHints gameState;
                Server.solved := Some true |}
      /\ saved outcome
         = Some {| Server.guessesHistory := history;
                   Server.usedHints := usedHints gameState;
                   Server.solved := solved gameState |}).
Proof.
  intros targetState history outcome served Hge Hne Hfresh Hs.
  unfold served, outcome, Server.play, handleGuess.
  rewrite (proj2 (truthy_true guess) Hne). cbn [negb].
  unfold Array_includes. rewrite bool_decide_eq_false_2 by exact Hfresh.
  rewrite Hge.
  cbn [saveGameState Server.solved Server.guessesHistory Server.usedHints
       Server.targetWord Server.targetEmbedding targetState
       guessesHistory targetWord targetEmbedding usedHints solved].
  rewrite Hs. fold history.
  destruct (String.eqb_spec guess (targetWord gameState)) as [Heq|Hneq].
  { split_and!; [done| |done]. intros _. cbn [fst].
    split; [apply lookup_insert_eq|reflexivity]. }
  replace (10 - Z.of_nat (length history) <=? 0)%Z
    with (10 <=? length history)
    by (destruct (Nat.leb_spec 10 (length history));
        destruct (Z.leb_spec (10 - Z.of_nat (length history)) 0); lia).
  destruct (Nat.leb_spec 10 (length history)) as [Hle|Hlt].
  { split_and!; [intros _ ?; lia|done|]. intros _ _. cbn [fst].
    split; [apply lookup_insert_eq|reflexivity]. }
  split_and!; [|done|intros _ ?; lia]. intros _ _.
  match goal with
  | |- context [findHint ?m ?g ?gs] =>
      destruct (findHint m g gs) as [hint|e] eqn:Hh
  end.
  - destruct (findHint_distance _ _ _ _ _ Hge Hh) as [D HD].
    cbn [targetEmbedding] in HD |- *. rewrite HD. cbn [fst snd].
    split; [|intros []].
    intros response [= <-]. exists hint, D.
    split_and!; [reflexivity|reflexivity|].
    cbn [saved saveGameState guessesHistory usedHints solved].
    symmetry. apply lookup_insert_eq.
  - cbn [fst snd]. split; [discriminate|]. intros _. done.
Qed.

End ClientFacts.

(** ** The page of the served game *)

Section ThinClientFacts.
Context {num : Type} `{Number num}.
Import Puzzle Server.

Local Ltac listed :=
  repeat first [ apply elem_of_cons; left; reflexivity
               | apply elem_of_cons; right ].

(** The replies of the route. *)
Lemma post_hint_responses (puzzleManager : PuzzleManager num)
    (context : Context) (body : Body) (redis : Redis num)
    (response : Response) :
  (post_hint puzzleManager context body redis).2 = Ok response ->
  (exists code error,
      response = Status code error
      /\ error ∈ ["postId is required";
                  "Guess must be a non-empty string.";
                  "Word not in vocabulary.";
                  "Could not select a target word.";
                  "Could not find embedding for target word."])
  \/ (exists word,
        response
        = AlreadyCompleted
            ("You have already completed this puzzle! The word was '"
             +:+ word +:+ "'."))
  \/ (exists n : nat,
        response
        = Won ("Congratulations! You guessed the word in "
               +:+ pretty n +:+ " tries!"))
  \/ (exists word,
        response
        = Lost ("You've used all 10 guesses! The word was '"
                +:+ word +:+ "'."))
  \/ (exists h n, response = Hinted h n).
Proof.
  assert (Hplay : forall key g ts ps redis1,
             (play puzzleManager key g ts ps redis1).2 = Ok response ->
             (exists word,
                 response
                 = AlreadyCompleted
                     ("You have already completed this puzzle! The word was '"
                      +:+ word +:+ "'."))
             \/ (exists n : nat,
                   response
                   = Won ("Congratulations! You guessed the word in "
                          +:+ pretty n +:+ " tries!"))
             \/ (exists word,
                   response
                   = Lost ("You've used all 10 guesses! The word was '"
                           +:+ word +:+ "'."))
             \/ (exists h n, response = Hinted h n)).
  { intros key g ts ps redis1. unfold play.
    destruct (default false (solved ps)).
    { intros [= <-]. left. eauto. }
    destruct (String.eqb g (targetWord ts)).
    { intros [= <-]. right. left. eauto. }
    destruct (10 <=? _).
    { intros [= <-]. right. right. left. eauto. }
    destruct (findHint _ _ _); [|discriminate].
    intros [= <-]. right. right. right. eauto. }
  unfold post_hint.
  destruct (postId context) as [post|].
  2:{ intros [= <-]. left. eexists _, _. split; [reflexivity|listed]. }
  destruct (negb (truthy post)).
  { intros [= <-]. left. eexists _, _. split; [reflexivity|listed]. }
  destruct (guess body) as [g|].
  2:{ intros [= <-]. left. eexists _, _. split; [reflexivity|listed]. }
  destruct (negb (truthy g)).
  { intros [= <-]. left. eexists _, _. split; [reflexivity|listed]. }
  destruct (negb (Array_includes _ _)).
  { intros [= <-]. left. eexists _, _. split; [reflexivity|listed]. }
  destruct (lazy_target_cases puzzleManager post redis)
    as [(ts & _ & ->)|[(_ & error & Hl)|(_ & ts & -> & _)]].
  - cbn zeta. destruct (lazy_player _ _) as [redis1 ps].
    intros Hr. right. eapply Hplay. exact Hr.
  - revert Hl. unfold lazy_target.
    destruct (targets redis !! target_key post); [discriminate|]. simpl.
    destruct (getShuffledVocabulary puzzleManager !! _) as [w|].
    2:{ intros _ [= <-]. left. eexists _, _. split; [reflexivity|listed]. }
    destruct (negb (truthy w)).
    { intros _ [= <-]. left. eexists _, _. split; [reflexivity|listed]. }
    destruct (getEmbedding puzzleManager w); [discriminate|].
    intros _ [= <-]. left. eexists _, _. split; [reflexivity|listed].
  - cbn zeta. destruct (lazy_player _ _) as [redis1 ps].
    intros Hr. right. eapply Hplay. exact Hr.
Qed.

(** X22: the page of the served game keeps its inputs closed after a guess
    exactly when the route answered that the puzzle was already completed;
    after the reply to the winning guess, to the tenth wrong guess, to a hint
    or to a refused request the inputs are open again. *)
Theorem thin_page_closes_iff_already_completed
    (puzzleManager : PuzzleManager num) (context : Context) (body : Body)
    (redis : Redis num) (response : Response) (guess : string) :
  (post_hint puzzleManager context body redis).2 = Ok response ->
  guess <> "" ->
  exists display,
    ThinClient.handleGuess guess (ThinClient.Answered response)
    = Some display
    /\ (ThinClient.disabled display = true
        <-> exists message, response = AlreadyCompleted message).
Proof.
  intros Hr Hne. unfold ThinClient.handleGuess.
  rewrite (proj2 (truthy_true guess) Hne). cbn [negb].
  destruct (post_hint_responses _ _ _ _ _ Hr)
    as [(code & error & -> & Herr)|[(word & ->)|[(n & ->)|[(word & ->)
        |(h & n & ->)]]]].
  - assert (Hp : String.prefix "You have already" error = false
                 /\ truthy error = true).
    { repeat (apply elem_of_cons in Herr as [->|Herr];
              [split; vm_compute; reflexivity|]).
      inversion Herr. }
    destruct Hp as [Hp Ht].
    cbn [ThinClient.ok ThinClient.data_error ThinClient.data isGameOver
         default from_option].
    rewrite Ht.
    destruct (negb _); eexists; (split; [reflexivity|]);
      cbn [ThinClient.disabled]; try rewrite Hp;
      (split; [discriminate|intros [m Hm]; discriminate Hm]).
  - eexists. split; [reflexivity|]. cbn [ThinClient.disabled].
    split; [eauto|]. intros _. vm_compute. reflexivity.
  - eexists. split; [reflexivity|]. cbn [ThinClient.disabled].
    split; [|intros [m Hm]; discriminate Hm].
    intros Hp. vm_compute in Hp. discriminate Hp.
  - eexists. split; [reflexivity|]. cbn [ThinClient.disabled].
    split; [|intros [m Hm]; discriminate Hm].
    intros Hp. vm_compute in Hp. discriminate Hp.
  - eexists. split; [reflexivity|]. cbn [ThinClient.disabled].
    split; [|intros [m Hm]; discriminate Hm].
    intros Hp. vm_compute in Hp. discriminate Hp.
Qed.

End ThinClientFacts.

(** ** Instances of the further properties *)

Section MoreInstances.
Import Examples Scenario Samples.
Local Open Scope float_scope.

Lemma getEmbedding_aligned_witness :
  NoDup (Puzzle.hint_vocabulary pets)
  /\ Puzzle.getEmbedding (Puzzle.new_PuzzleManager pets) "dog"
     = Some [0; 1].
Proof.
  assert (Hnd : NoDup (Puzzle.hint_vocabulary pets)).
  { refine (bool_decide_unpack _ _). vm_compute. exact I. }
  split; [exact Hnd|].
  apply (getEmbedding_aligned pets 1 "dog" [0; 1] Hnd);
    [reflexivity|discriminate|reflexivity].
Defined.

Lemma exact_shuffle_fisher_yates_witness :
  (2 <= length ["a"; "b"; "c"])%nat
  /\ shuffle_in_bounds (num := R) 2 0 ["a"; "b"; "c"]
  /\ forall p, (2 <= p)%nat ->
       Puzzle.shuffle_loop (num := R) 2 0 ["a"; "b"; "c"] !! p
       = ["a"; "b"; "c"] !! p.
Proof.
  split; [simpl; lia|].
  apply (exact_shuffle_fisher_yates 2 0 ["a"; "b"; "c"]). simpl. lia.
Defined.

Lemma findHint_returns_iff_witness :
  Puzzle.getEmbedding (Puzzle.new_PuzzleManager pets) "dog" = Some [0; 1]
  /\ ((exists w,
          Puzzle.findHint (Puzzle.new_PuzzleManager pets) "dog" cat_after_dog
          = Ok w)
      <-> uniform_dimension 2 pets cat_after_dog).
Proof.
  split; [vm_compute; reflexivity|].
  apply (findHint_returns_iff pets "dog" cat_after_dog [0; 1]).
  vm_compute. reflexivity.
Defined.

Lemma findHint_fallback_guarantee_witness :
  uniform_dimension 2 pets cat_after_dog
  /\ exists w,
      Puzzle.findHint (Puzzle.new_PuzzleManager pets) "dog" cat_after_dog
      = Ok w.
Proof.
  split; [exact pets_uniform|].
  destruct (findHint_fallback_guarantee pets "dog" cat_after_dog 2 [0; 1]
              pets_uniform) as (w & Hw & _).
  - vm_compute. reflexivity.
  - exists w. exact Hw.
Defined.

Lemma findHint_same_history_witness :
  same_history cat_after_dog dog_twice
  /\ Puzzle.findHint manager "dog" cat_after_dog
     = Puzzle.findHint manager "dog" dog_twice.
Proof.
  assert (Hs : same_history cat_after_dog dog_twice).
  { split_and!; [reflexivity|reflexivity| |reflexivity].
    intros w. simpl. rewrite !elem_of_cons. tauto. }
  split; [exact Hs|].
  apply (findHint_same_history manager "dog" cat_after_dog dog_twice Hs).
Defined.

Lemma cosineDistance_scale_invariant_witness :
  (0 < 2)%R
  /\ cosineDistance (map (Rmult 2) [1; 0]%R) [0; 1]%R
     = cosineDistance [1; 0]%R [0; 1]%R.
Proof.
  assert (Hk : (0 < 2)%R) by lra.
  split; [exact Hk|].
  apply (cosineDistance_scale_invariant 2 [1; 0]%R [0; 1]%R Hk).
Defined.

Lemma binary64_zero_vector_witness :
  cosineDistance [0; -0] [nan; infinity] = Ok 1
  /\ cosineDistance [nan; infinity] [0; -0] = Ok 1.
Proof.
  apply (binary64_zero_vector [0; -0] [nan; infinity]).
  - constructor; [left; reflexivity|].
    constructor; [right; reflexivity|constructor].
  - reflexivity.
Defined.

Lemma serve_session_counts_witness :
  Server.players (serve manager [dog_request] fresh).1
    !! Server.player_key "t3_abc" (Some "t2_player") = Some after_dog
  /\ session_counts after_dog.
Proof.
  assert (Hrun : Server.players (serve manager [dog_request] fresh).1
                   !! Server.player_key "t3_abc" (Some "t2_player")
                 = Some after_dog) by (vm_compute; reflexivity).
  split; [exact Hrun|].
  apply (serve_session_counts manager [dog_request] fresh
           (Server.player_key "t3_abc" (Some "t2_player")) after_dog);
    [|exact Hrun].
  intros key playerState Hkey. unfold fresh in Hkey. simpl in Hkey.
  rewrite lookup_empty in Hkey. discriminate.
Defined.

Lemma serve_distinct_hints_witness :
  Server.players (serve manager [dog_request] fresh).1
    !! Server.player_key "t3_abc" (Some "t2_player") = Some after_dog
  /\ distinct_hints after_dog.
Proof.
  assert (Hrun : Server.players (serve manager [dog_request] fresh).1
                   !! Server.player_key "t3_abc" (Some "t2_player")
                 = Some after_dog) by (vm_compute; reflexivity).
  split; [exact Hrun|].
  apply (serve_distinct_hints manager [dog_request] fresh
           (Server.player_key "t3_abc" (Some "t2_player")) after_dog);
    [|exact Hrun].
  intros key playerState Hkey. unfold fresh in Hkey. simpl in Hkey.
  rewrite lookup_empty in Hkey. discriminate.
Defined.

Lemma pets_uniform_table : uniform_table 2 pets.
Proof. repeat constructor. Qed.

Lemma serve_no_exception_witness :
  uniform_table 2 signed_zero
  /\ Puzzle.getEmbedding (Puzzle.new_PuzzleManager signed_zero) "up"
     = Some [-0; 1]
  /\ Server.targets
       (serve (Puzzle.new_PuzzleManager signed_zero) [right_request]
          untouched).1 !! Server.target_key "t3_abc"
     = Some {| Server.targetWord := "up";
               Server.targetEmbedding := [0; 1] |}
  /\ Forall (fun outcome => exists response, outcome = Ok response)
       (serve (Puzzle.new_PuzzleManager signed_zero) [right_request]
          untouched).2
  /\ targets_from (Puzzle.new_PuzzleManager signed_zero)
       (serve (Puzzle.new_PuzzleManager signed_zero) [right_request]
          untouched).1.
Proof.
  assert (Hu : uniform_table 2 signed_zero) by (repeat constructor).
  split; [exact Hu|].
  split; [vm_compute; reflexivity|].
  split; [vm_compute; reflexivity|].
  apply (serve_no_exception signed_zero 2 [right_request] untouched Hu).
  intros key targetState Hkey. unfold untouched in Hkey. simpl in Hkey.
  rewrite lookup_empty in Hkey. discriminate.
Defined.

Lemma post_hint_status_witness :
  Server.post_hint sparse_manager context {| Server.guess := Some "dog" |}
    before_sun
  = ({| Server.targets := ∅; Server.players := ∅;
        Server.globalWordIndex := 3 |},
     Ok (Server.Status 500 "Could not find embedding for target word."))
  /\ Server.globalWordIndex
       {| Server.targets := (∅ : gmap string (Server.TargetState float));
          Server.players := ∅;
          Server.globalWordIndex := 3 |}
     = S (Server.globalWordIndex before_sun).
Proof.
  assert (Hrun : Server.post_hint sparse_manager context
                   {| Server.guess := Some "dog" |} before_sun
                 = ({| Server.targets := ∅; Server.players := ∅;
                       Server.globalWordIndex := 3 |},
                    Ok (Server.Status 500
                          "Could not find embedding for target word.")))
    by (vm_compute; reflexivity).
  split; [exact Hrun|].
  destruct (post_hint_status sparse_manager context
              {| Server.guess := Some "dog" |} before_sun _ _ _ Hrun)
    as (_ & _ & [(Hcode & _)|(_ & Hindex & _)]);
    [discriminate Hcode|exact Hindex].
Defined.

Lemma post_hint_frame_witness :
  Server.postId context = Some "t3_abc"
  /\ Server.players
       (Server.post_hint manager context {| Server.guess := Some "dog" |}
          fresh).1 !! "puzzle:player:t3_xyz:t2_player"
     = Server.players fresh !! "puzzle:player:t3_xyz:t2_player".
Proof.
  split; [reflexivity|].
  apply (post_hint_frame manager context {| Server.guess := Some "dog" |}
           fresh "t3_abc" eq_refl).
  vm_compute. discriminate.
Defined.

Lemma pets_complete : complete_table pets.
Proof.
  intros i w Hi.
  do 5 (destruct i as [|i];
        [injection Hi as <-; split; [discriminate|eexists; reflexivity]|]).
  discriminate.
Qed.

Lemma serve_complete_table_witness :
  complete_table pets
  /\ Forall (fun outcome =>
               forall error, outcome <> Ok (Server.Status 500 error))
       (serve manager [dog_request] untouched).2.
Proof.
  split; [exact pets_complete|].
  apply (serve_complete_table pets [dog_request] untouched pets_complete).
Defined.

Lemma handleGuesses_history_witness :
  NoDup (Puzzle.guessesHistory cat_after_dog)
  /\ ("cat" ∉ Puzzle.guessesHistory cat_after_dog)
  /\ exists gameState',
      (Client.handleGuesses (Some manager) (Some cat_after_dog)
         ["puppy"; "dog"; "cat"]).2 = Some gameState'
      /\ NoDup (Puzzle.guessesHistory gameState').
Proof.
  assert (Hnd : NoDup (Puzzle.guessesHistory cat_after_dog)).
  { refine (bool_decide_unpack _ _). vm_compute. exact I. }
  assert (Hnt : Puzzle.targetWord cat_after_dog
                ∉ Puzzle.guessesHistory cat_after_dog).
  { refine (bool_decide_unpack _ _). vm_compute. exact I. }
  split; [exact Hnd|]. split; [exact Hnt|].
  destruct (handleGuesses_history manager cat_after_dog
              ["puppy"; "dog"; "cat"] Hnd Hnt)
    as (gameState' & Hrun & _ & _ & Hnd' & _).
  exists gameState'. split; assumption.
Defined.

Lemma handleGuesses_no_ceiling_witness :
  NoDup (Puzzle.guessesHistory nine_guesses ++ ["dog"; "puppy"])
  /\ exists gameState',
      (Client.handleGuesses (Some manager) (Some nine_guesses)
         ["dog"; "puppy"]).2 = Some gameState'
      /\ Puzzle.guessesHistory gameState'
         = Puzzle.guessesHistory nine_guesses ++ ["dog"; "puppy"].
Proof.
  assert (Hnd : NoDup (Puzzle.guessesHistory nine_guesses
                       ++ ["dog"; "puppy"])).
  { refine (bool_decide_unpack _ _). vm_compute. exact I. }
  split; [exact Hnd|].
  destruct (handleGuesses_no_ceiling manager nine_guesses ["dog"; "puppy"])
    as ((gameState' & Hrun & Hhistory & _) & _).
  - repeat constructor; try discriminate; eexists; vm_compute; reflexivity.
  - exact Hnd.
  - exists gameState'. split; assumption.
Defined.

Lemma initializeGame_no_error_witness :
  uniform_table 2 pets
  /\ Client.initializeGame pets "cat" new_player
     = (manager, Some {| Puzzle.targetWord := "cat";
                         Puzzle.targetEmbedding := [1; 0];
                         Puzzle.guessesHistory := [];
                         Puzzle.usedHints := [];
                         Puzzle.solved := None |})
  /\ Forall (fun outcome =>
               Client.message outcome <> Some Client.UnexpectedError)
       (Client.handleGuesses (Some manager)
          (Some {| Puzzle.targetWord := "cat";
                   Puzzle.targetEmbedding := [1; 0];
                   Puzzle.guessesHistory := [];
                   Puzzle.usedHints := [];
                   Puzzle.solved := None |}) ["dog"]).1.
Proof.
  assert (Hinit : Client.initializeGame pets "cat" new_player
                  = (manager, Some {| Puzzle.targetWord := "cat";
                                      Puzzle.targetEmbedding := [1; 0];
                                      Puzzle.guessesHistory := [];
                                      Puzzle.usedHints := [];
                                      Puzzle.solved := None |}))
    by (vm_compute; reflexivity).
  split; [exact pets_uniform_table|]. split; [exact Hinit|].
  apply (initializeGame_no_error pets 2 "cat" new_player manager _ ["dog"]
           pets_uniform_table Hinit).
Defined.

Lemma handleGuess_and_play_witness :
  Puzzle.getEmbedding manager "cat" = Some [1; 0]
  /\ Client.saved
       (Client.handleGuess (Some manager) (Some cat_after_dog) "cat")
     = Some {| Server.guessesHistory := ["dog"];
               Server.usedHints := [];
               Server.solved := Some true |}.
Proof.
  assert (Hge : Puzzle.getEmbedding manager "cat" = Some [1; 0])
    by (vm_compute; reflexivity).
  split; [exact Hge|].
  destruct (handleGuess_and_play manager cat_after_dog "cat" "key" fresh
              [1; 0] Hge) as (_ & Hwin & _).
  - discriminate.
  - refine (bool_decide_unpack _ _). vm_compute. exact I.
  - reflexivity.
  - destruct (Hwin eq_refl) as [_ Hsaved]. exact Hsaved.
Defined.

Lemma thin_page_closes_iff_already_completed_witness :
  (Server.post_hint manager context {| Server.guess := Some "dog" |}
     fresh).2 = Ok (Hinted "car" 9)
  /\ exists display,
      ThinClient.handleGuess "dog" (ThinClient.Answered (Hinted "car" 9))
      = Some display
      /\ (ThinClient.disabled display = true
          <-> exists message, Hinted "car" 9 = AlreadyCompleted message).
Proof.
  assert (Hrun : (Server.post_hint manager context
                    {| Server.guess := Some "dog" |} fresh).2
                 = Ok (Hinted "car" 9)) by (vm_compute; reflexivity).
  split; [exact Hrun|].
  apply (thin_page_closes_iff_already_completed manager context
           {| Server.guess := Some "dog" |} fresh (Hinted "car" 9) "dog"
           Hrun).
  discriminate.
Defined.

End MoreInstances.
